(** * Cartoon Survivor: obstacle generator, mob spawner and frame loop

    A shallow embedding of [src/main.py].  Integer data ([pygame.Rect]
    coordinates, list indices, counters) is modelled over [Z] and [nat];
    Python floats are modelled by exact numbers: rationals for the draws of
    the [random] module, reals for positions, timers and hit points, so
    that [math.hypot], [math.cos] and [math.sin] are the mathematical
    functions.  Rounding of the floating-point unit is not modelled. *)

From Stdlib Require Import ZArith QArith Qround Qreals Reals Lra Lia.
From stdpp Require Import base list gmap sorting.

(** ** World constants (the Config block of the source) *)

Definition SCREEN_W : Z := 800.
Definition SCREEN_H : Z := 600.
Definition WORLD_W : Z := 2400.
Definition WORLD_H : Z := 1800.
Definition PLAYER_RADIUS : Z := 16.
Definition MOB_RADIUS : Z := 14.
Definition LAVA_RADIUS : Z := 60.
Definition LEVEL_DURATION_SECONDS : Z := 10 * 60.
Definition FPS : Z := 60.

Definition OBSTACLE_COUNT : Z := 80.
Definition NEAR_RADIUS : Z := 120.
Definition MAX_NEARBY_OBSTACLES : nat := 2.
Definition GRID_BIAS : Z := 200.
Definition OBSTACLE_SAFETY_MARGIN : Z := 8.

(** ** The [random] module

    The generator is an entropy source read through a cursor.  Every
    primitive of the module consumes one raw word, so any sequence of
    outcomes of [randint], [random], [choice] and [shuffle] is produced by
    some entropy source, and a statement quantified over every source
    covers every random choice the program can make. *)

Module Random.

Record Rng := mkRng { entropy : nat -> Z; cursor : nat }.

Definition Rand (A : Type) : Type := Rng -> A * Rng.

Definition ret {A} (a : A) : Rand A := fun g => (a, g).

Definition bind {A B} (m : Rand A) (k : A -> Rand B) : Rand B :=
  fun g => let '(a, g') := m g in k a g'.

Definition next_raw : Rand Z :=
  fun g => (entropy g (cursor g), mkRng (entropy g) (S (cursor g))).

End Random.

Import Random.

Declare Scope rand_scope.
Delimit Scope rand_scope with rand.
Notation "'let*' x := m 'in' k" := (bind m (fun x => k))
  (at level 10, x name, m at level 100, k at level 200) : rand_scope.
Notation "'let*' ' p := m 'in' k" := (bind m (fun x => let 'p := x in k))
  (at level 10, p pattern, m at level 100, k at level 200) : rand_scope.

Section RandomPrimitives.
Local Open Scope rand_scope.

(** [random._randbelow(n)]: an integer in [0, n). *)
Definition randbelow (n : Z) : Rand Z :=
  let* r := next_raw in ret (r mod n)%Z.

(** [random.randint(a, b)]: an integer in [a, b]. *)
Definition randint (a b : Z) : Rand Z :=
  let* r := randbelow (b - a + 1)%Z in ret (a + r)%Z.

(** [random.random()]: a 53-bit dyadic rational in [0, 1). *)
Definition random : Rand Q :=
  let* r := next_raw in ret (Qmake (r mod 2 ^ 53)%Z (2 ^ 53)%positive).

(** [random.uniform(a, b)] is [a + (b - a) * random()].  Here the sum is
    exact and stays below [b]; the floating-point sum can round up to
    [b], so what is stated about a draw bounds it by [b] inclusively. *)
Definition uniform (a b : Q) : Rand Q :=
  let* u := random in ret (a + (b - a) * u)%Q.

(** [random.choice(seq)] is [seq[_randbelow(len(seq))]]. *)
Definition choice {A} (d : A) (l : list A) : Rand A :=
  let* i := randbelow (Z.of_nat (length l)) in ret (nth (Z.to_nat i) l d).

(** [random.shuffle(x)]: for i = len(x)-1 down to 1, swap x[i] with
    x[_randbelow(i + 1)]. *)
Definition swap {A} (l : list A) (i j : nat) : list A :=
  match l !! i, l !! j with
  | Some a, Some b => <[j := a]> (<[i := b]> l)
  | _, _ => l
  end.

Fixpoint shuffle_from {A} (i : nat) (l : list A) : Rand (list A) :=
  match i with
  | O => ret l
  | S i' =>
      let* j := randbelow (Z.of_nat i + 1) in
      shuffle_from i' (swap l i (Z.to_nat j))
  end.

Definition shuffle {A} (l : list A) : Rand (list A) :=
  shuffle_from (length l - 1) l.

End RandomPrimitives.

(** ** Integer helpers and [pygame.Rect] *)

(** [clamp(v, a, b) = max(a, min(b, v))] on integers. *)
Definition clampZ (v a b : Z) : Z := Z.max a (Z.min b v).

(** [int(x)] truncates toward zero. *)
Definition py_int (q : Q) : Z :=
  if Qle_bool 0 q then Qfloor q else Qceiling q.

(** A [pygame.Rect] holds integer [x], [y], [w], [h]; [right] and [bottom]
    are [x + w] and [y + h], the centre uses C integer division. *)
Record Rect := mkRect { rx : Z; ry : Z; rw : Z; rh : Z }.

Section RectOps.
Local Open Scope Z_scope.

Definition left (r : Rect) : Z := rx r.
Definition top (r : Rect) : Z := ry r.
Definition right (r : Rect) : Z := rx r + rw r.
Definition bottom (r : Rect) : Z := ry r + rh r.
Definition centerx (r : Rect) : Z := rx r + Z.quot (rw r) 2.
Definition centery (r : Rect) : Z := ry r + Z.quot (rh r) 2.

(** [Rect.inflate(dx, dy)] grows the size by [dx], [dy] around the centre. *)
Definition inflate (r : Rect) (dx dy : Z) : Rect :=
  mkRect (rx r - Z.quot dx 2) (ry r - Z.quot dy 2) (rw r + dx) (rh r + dy).

(** [Rect.colliderect]: open-interior intersection; a rectangle of zero
    width or height collides with nothing. *)
Definition colliderect (a b : Rect) : bool :=
  if (rw a =? 0) || (rh a =? 0) || (rw b =? 0) || (rh b =? 0) then false
  else (Z.min (rx a) (rx a + rw a) <? Z.max (rx b) (rx b + rw b))
    && (Z.min (ry a) (ry a + rh a) <? Z.max (ry b) (ry b + rh b))
    && (Z.min (rx b) (rx b + rw b) <? Z.max (rx a) (rx a + rw a))
    && (Z.min (ry b) (ry b + rh b) <? Z.max (ry a) (ry a + rh a)).

End RectOps.

(** ** Obstacles *)

Inductive Kind := tree | rock | house | water | hay.

Record Obstacle := mkObstacle { rect : Rect; kind : Kind }.

Definition kinds : list Kind := [tree; rock; house; water; hay].

(** [distance(ax, ay, bx, by) < r] for integer arguments: [math.hypot] of
    integers is below the integer [r] exactly when the sum of squares is
    below [r * r] (see [hypot_lt_squares] for the real-number reading). *)
Definition distance_ltZ (ax ay bx by_ r : Z) : bool :=
  ((ax - bx) * (ax - bx) + (ay - by_) * (ay - by_) <? r * r)%Z.

Definition near (a b : Rect) : bool :=
  distance_ltZ (centerx a) (centery a) (centerx b) (centery b) NEAR_RADIUS.

(** ** [generate_obstacles]: candidate centres and greedy placement *)

Section Placement.
Local Open Scope rand_scope.
Local Open Scope Z_scope.

Fixpoint mapM {A B} (f : A -> Rand B) (l : list A) : Rand (list B) :=
  match l with
  | [] => ret []
  | a :: rest =>
      let* b := f a in
      let* bs := mapM f rest in
      ret (b :: bs)
  end.

Definition range (n : Z) : list Z := map Z.of_nat (seq 0 (Z.to_nat n)).

Definition x_cells : Z := Z.max 4 (WORLD_W / GRID_BIAS).
Definition y_cells : Z := Z.max 4 (WORLD_H / GRID_BIAS).

(** [int((g + 0.5) * world / cells + random.uniform(-GRID_BIAS/3, GRID_BIAS/3))] *)
Definition jittered_center (g world cells : Z) : Rand Z :=
  let* j := uniform (inject_Z (- GRID_BIAS) / 3)%Q (inject_Z GRID_BIAS / 3)%Q in
  ret (py_int ((inject_Z g + (1 # 2)) * inject_Z world / inject_Z cells + j)%Q).

Definition grid_cells : list (Z * Z) :=
  gx ← range x_cells; gy ← range y_cells; [(gx, gy)].

Definition grid_candidates : Rand (list (Z * Z)) :=
  mapM (fun c : Z * Z =>
          let* cx := jittered_center (fst c) WORLD_W x_cells in
          let* cy := jittered_center (snd c) WORLD_H y_cells in
          ret (cx, cy)) grid_cells.

Definition center_area : Rect :=
  mkRect (WORLD_W / 2 - 400) (WORLD_H / 2 - 300) 800 600.

(** [any(rect.inflate(M*2, M*2).colliderect(o.rect) for o in obs)] *)
Definition overlapped (r : Rect) (obs : list Obstacle) : bool :=
  existsb (fun o => colliderect
                      (inflate r (OBSTACLE_SAFETY_MARGIN * 2) (OBSTACLE_SAFETY_MARGIN * 2))
                      (rect o)) obs.

(** The counting loop of the grid phase, which stops as soon as the count
    reaches [MAX_NEARBY_OBSTACLES]. *)
Fixpoint nearby_capped (r : Rect) (obs : list Obstacle) (nearby : nat) : nat :=
  match obs with
  | [] => nearby
  | o :: rest =>
      if near (rect o) r then
        if (MAX_NEARBY_OBSTACLES <=? S nearby)%nat then S nearby
        else nearby_capped r rest (S nearby)
      else nearby_capped r rest nearby
  end.

(** [sum(1 for o in obs if distance(...) < NEAR_RADIUS)] *)
Definition nearby_count (r : Rect) (obs : list Obstacle) : nat :=
  length (filter (fun o => near (rect o) r = true) obs).

(** The [for (cx, cy) in candidates] loop; [tries] counts the candidates
    looked at. *)
Fixpoint place_candidates (count max_tries : Z) (candidates : list (Z * Z))
    (obs : list Obstacle) (tries : Z) : Rand (list Obstacle) :=
  match candidates with
  | [] => ret obs
  | (cx, cy) :: rest =>
      if (count <=? Z.of_nat (length obs)) || (max_tries <=? tries) then ret obs
      else
        let* w := randint 40 160 in
        let* h := randint 40 140 in
        let* ox := randint (- GRID_BIAS / 2) (GRID_BIAS / 2) in
        let x := clampZ (cx + ox) 0 (WORLD_W - w) in
        let* oy := randint (- GRID_BIAS / 2) (GRID_BIAS / 2) in
        let y := clampZ (cy + oy) 0 (WORLD_H - h) in
        let r := mkRect x y w h in
        let tries := tries + 1 in
        if colliderect r center_area then
          place_candidates count max_tries rest obs tries
        else if overlapped r obs then
          place_candidates count max_tries rest obs tries
        else if (MAX_NEARBY_OBSTACLES <=? nearby_capped r obs 0)%nat then
          place_candidates count max_tries rest obs tries
        else
          let* k := choice hay kinds in
          place_candidates count max_tries rest (obs ++ [mkObstacle r k]) tries
  end.

(** The [while len(obs) < count and extra_tries < count * 12] loop;
    [budget] is [count * 12 - extra_tries], and every path through the
    body adds one to [extra_tries]. *)
Fixpoint place_random (budget : nat) (count : Z) (obs : list Obstacle)
    : Rand (list Obstacle) :=
  match budget with
  | O => ret obs
  | S budget' =>
      if count <=? Z.of_nat (length obs) then ret obs
      else
        let* w := randint 40 140 in
        let* h := randint 40 120 in
        let* x := randint 0 (WORLD_W - w) in
        let* y := randint 0 (WORLD_H - h) in
        let r := mkRect x y w h in
        if colliderect r center_area then place_random budget' count obs
        else if overlapped r obs then place_random budget' count obs
        else if (MAX_NEARBY_OBSTACLES <=? nearby_count r obs)%nat then
          place_random budget' count obs
        else
          let* k := choice hay kinds in
          place_random budget' count (obs ++ [mkObstacle r k])
  end.

End Placement.

(** ** [generate_obstacles]: the cluster-pruning post-process *)

Section PostProcess.

Definition near_idx (ob_list : list Obstacle) (i j : nat) : bool :=
  match ob_list !! i, ob_list !! j with
  | Some a, Some b => near (rect a) (rect b)
  | _, _ => false
  end.

(** [adj[i].append(j); adj[j].append(i)] *)
Definition add_edge (adj : list (list nat)) (i j : nat) : list (list nat) :=
  alter (fun l => l ++ [i]) j (alter (fun l => l ++ [j]) i adj).

Definition build_adj_list (ob_list : list Obstacle) : list (list nat) :=
  let n := length ob_list in
  foldl (fun adj i =>
           foldl (fun adj j => if near_idx ob_list i j then add_edge adj i j else adj)
                 adj (seq (S i) (n - S i)))
        (replicate n []) (seq 0 n).

(** The [for v in adj[u]] loop.  The stack is kept with its top first:
    [stack.append(v)] is a cons and [stack.pop()] takes the head. *)
Definition visit_neighbours (nbrs : list nat) (visited : list bool) (stack : list nat)
    : list bool * list nat :=
  foldl (fun (s : list bool * list nat) v =>
           match fst s !! v with
           | Some false => (<[v := true]> (fst s), v :: snd s)
           | _ => s
           end) (visited, stack) nbrs.

(** The [while stack] loop.  The source loop has no counter; [fuel] bounds
    the number of pops and [None] means the bound was too small. *)
Fixpoint dfs_loop (fuel : nat) (adj : list (list nat)) (visited : list bool)
    (stack comp : list nat) : option (list bool * list nat) :=
  match stack with
  | [] => Some (visited, comp)
  | u :: stack' =>
      match fuel with
      | O => None
      | S fuel' =>
          let s := visit_neighbours (default [] (adj !! u)) visited stack' in
          dfs_loop fuel' adj (fst s) (snd s) (comp ++ [u])
      end
  end.

Fixpoint components_from (fuel : nat) (adj : list (list nat)) (indices : list nat)
    (visited : list bool) (comps : list (list nat)) : option (list (list nat)) :=
  match indices with
  | [] => Some comps
  | i :: rest =>
      match visited !! i with
      | Some false =>
          match dfs_loop fuel adj (<[i := true]> visited) [i] [] with
          | Some (visited', comp) =>
              components_from fuel adj rest visited' (comps ++ [comp])
          | None => None
          end
      | _ => components_from fuel adj rest visited comps
      end
  end.

Definition connected_components_fuel (fuel : nat) (adj : list (list nat))
    : option (list (list nat)) :=
  components_from fuel adj (seq 0 (length adj)) (replicate (length adj) false) [].

(** Each pop of the inner loop takes a vertex that was pushed once, so
    [len(adj)] pops are enough (theorem [connected_components_total]). *)
Definition connected_components (adj : list (list nat)) : option (list (list nat)) :=
  connected_components_fuel (length adj) adj.

Definition degree (adj : list (list nat)) (idx : nat) : nat :=
  length (default [] (adj !! idx)).

(** [sorted(comp, key=..., reverse=True)]: a stable sort, largest key
    first, equal keys in their original order. *)
Fixpoint insert_desc (key : nat -> nat) (x : nat) (l : list nat) : list nat :=
  match l with
  | [] => [x]
  | y :: rest =>
      if (key x <? key y)%nat then y :: insert_desc key x rest else x :: y :: rest
  end.

Definition sorted_desc (key : nat -> nat) (l : list nat) : list nat :=
  foldr (insert_desc key) [] l.

Definition marked_of (adj : list (list nat)) (comp : list nat) : list nat :=
  if (MAX_NEARBY_OBSTACLES <? length comp)%nat then
    take (length comp - MAX_NEARBY_OBSTACLES) (sorted_desc (degree adj) comp)
  else [].

Definition to_remove_indices (adj : list (list nat)) (comps : list (list nat))
    : gset nat :=
  foldl (fun acc comp => foldl (fun acc r => acc ∪ {[r]}) acc (marked_of adj comp))
        ∅ comps.

(** [[o for idx, o in enumerate(obs) if idx not in to_remove_indices]] *)
Fixpoint keep_unmarked (marked : gset nat) (idx : nat) (obs : list Obstacle)
    : list Obstacle :=
  match obs with
  | [] => []
  | o :: rest =>
      if decide (idx ∈ marked) then keep_unmarked marked (S idx) rest
      else o :: keep_unmarked marked (S idx) rest
  end.

Definition prune_clusters (obs : list Obstacle) : option (list Obstacle) :=
  let adj := build_adj_list obs in
  match connected_components adj with
  | None => None
  | Some comps =>
      let marked := to_remove_indices adj comps in
      Some (if decide (marked = ∅) then obs else keep_unmarked marked 0 obs)
  end.

End PostProcess.

Section Generate.
Local Open Scope rand_scope.

(** The part of [generate_obstacles] before the post-process: the grid
    candidates, their shuffle and the two placement loops.  Its result is
    the list [obs] that the post-process receives (lemma
    [generate_obstacles_place]). *)
Definition place_obstacles (count : Z) : Rand (list Obstacle) :=
  let* candidates := grid_candidates in
  let* candidates := shuffle candidates in
  let max_tries := (Z.of_nat (length candidates) * 6)%Z in
  let* obs := place_candidates count max_tries candidates [] 0%Z in
  place_random (Z.to_nat (count * 12)) count obs.

Definition generate_obstacles (count : Z) : Rand (option (list Obstacle)) :=
  let* candidates := grid_candidates in
  let* candidates := shuffle candidates in
  let max_tries := (Z.of_nat (length candidates) * 6)%Z in
  let* obs := place_candidates count max_tries candidates [] 0%Z in
  let* obs := place_random (Z.to_nat (count * 12)) count obs in
  ret (prune_clusters obs).

End Generate.

(** ** Geometry helpers on floats (modelled as reals) *)

Section Geometry.
Local Open Scope R_scope.

Definition Rleb (a b : R) : bool := if Rle_dec a b then true else false.
Definition Rltb (a b : R) : bool := if Rlt_dec a b then true else false.

(** [clamp(v, a, b) = max(a, min(b, v))] *)
Definition clamp (v a b : R) : R := Rmax a (Rmin b v).

(** [math.hypot] *)
Definition hypot (x y : R) : R := sqrt (x * x + y * y).

(** [distance(ax, ay, bx, by) = math.hypot(ax - bx, ay - by)] *)
Definition distance (ax ay bx by_ : R) : R := hypot (ax - bx) (ay - by_).

Definition circle_rect_collision (cx cy r : R) (rect : Rect) : bool :=
  let closest_x := clamp cx (IZR (left rect)) (IZR (right rect)) in
  let closest_y := clamp cy (IZR (top rect)) (IZR (bottom rect)) in
  Rleb (distance cx cy closest_x closest_y) r.

(** [Rect.collidepoint(x, y)]: the left and top edges are inside, the
    right and bottom edges are not. *)
Definition collidepoint (r : Rect) (x y : R) : bool :=
  Rleb (IZR (rx r)) x && Rltb x (IZR (rx r + rw r))
  && Rleb (IZR (ry r)) y && Rltb y (IZR (ry r + rh r)).

End Geometry.

(** ** [spawn_mob] *)

Inductive MobType := melee | shooter | lava.

Record Mob := mkMob {
  mob_x : R; mob_y : R; mob_hp : R; mob_speed : R;
  mob_type : MobType; mob_cooldown : R; mob_id : Z }.

(** Where the retry loop of [spawn_mob] left [x, y]; [sp_fallback] and
    [sp_iterations] are not in the source, they record which [break] was
    taken and how many times the loop body ran. *)
Record SpawnPos := mkSpawnPos {
  sp_x : R; sp_y : R; sp_fallback : bool; sp_iterations : nat }.

Section Spawner.
Local Open Scope rand_scope.

(** [random.choices(ENEMY_TYPES, weights=[0.6, 0.25, 0.15])[0]]: one
    [random()] compared with the running sums 0.6, 0.85, 1.0. *)
Definition choose_enemy_type : Rand MobType :=
  let* u := random in
  ret (if Qlt_le_dec u (6 # 10) then melee
       else if Qlt_le_dec u (85 # 100) then shooter else lava).

Definition half_bias : Q := inject_Z GRID_BIAS / 2.

Definition grid_limit (world : Z) : Z :=
  (if 0 <? world / GRID_BIAS then world / GRID_BIAS else 1)%Z.

Definition inside_obstacles (obstacles : list Obstacle) (x y : R) : bool :=
  existsb (fun o => collidepoint
                      (inflate (rect o) (OBSTACLE_SAFETY_MARGIN * 2)
                         (OBSTACLE_SAFETY_MARGIN * 2)) x y) obstacles.

(** The two [# fallback random] branches. *)
Definition fallback_position (iterations : nat) : Rand (option SpawnPos) :=
  let* x := uniform 0 (inject_Z WORLD_W) in
  let* y := uniform 0 (inject_Z WORLD_H) in
  ret (Some (mkSpawnPos (Q2R x) (Q2R y) true iterations)).

(** The [# grid biased sampling] block: one candidate position. *)
Definition sample_candidate : Rand (R * R) :=
  let* gx := randint 0 (grid_limit WORLD_W) in
  let* gy := randint 0 (grid_limit WORLD_H) in
  let* jx := uniform (- half_bias)%Q half_bias in
  let* jy := uniform (- half_bias)%Q half_bias in
  ret (clamp (IZR (gx * GRID_BIAS) + Q2R jx) 0 (IZR WORLD_W),
       clamp (IZR (gy * GRID_BIAS) + Q2R jy) 0 (IZR WORLD_H)).

(** The [while True] loop.  [fuel] bounds the number of iterations and
    [None] means the bound was too small; [iterations] counts them. *)
Fixpoint spawn_position (fuel : nat) (player_x player_y : R)
    (obstacles : list Obstacle) (tries : Z) (iterations : nat)
    : Rand (option SpawnPos) :=
  match fuel with
  | O => ret None
  | S fuel' =>
      let* c := sample_candidate in
      let x := fst c in
      let y := snd c in
      if Rltb (distance x y player_x player_y) 300 then
        let tries := (tries + 1)%Z in
        if (300 <? tries)%Z then fallback_position (S iterations)
        else spawn_position fuel' player_x player_y obstacles tries (S iterations)
      else if inside_obstacles obstacles x y then
        let tries := (tries + 1)%Z in
        if (500 <? tries)%Z then fallback_position (S iterations)
        else spawn_position fuel' player_x player_y obstacles tries (S iterations)
      else ret (Some (mkSpawnPos x y false (S iterations)))
  end.

(** What follows the loop: type, hit points, speed, cooldown and the
    dataclass default [id]. *)
Definition make_mob (minute : Z) (x y : R) : Rand Mob :=
  let* t := choose_enemy_type in
  let* jhp := uniform (- (4)) 6 in
  let hp := (22 + IZR minute * 15 + Q2R jhp)%R in
  let* jspeed := uniform (- (8)) 8 in
  let speed := (55 + IZR minute * 8 + Q2R jspeed)%R in
  let* cooldown := uniform (8 # 10) (22 # 10) in
  let* id := randint 0 999999 in
  ret (mkMob x y hp speed t (Q2R cooldown) id).

Definition spawn_mob_fuel (fuel : nat) (minute : Z) (player_x player_y : R)
    (obstacles : list Obstacle) : Rand (option Mob) :=
  let* pos := spawn_position fuel player_x player_y obstacles 0 0 in
  match pos with
  | None => ret None
  | Some p => let* m := make_mob minute (sp_x p) (sp_y p) in ret (Some m)
  end.

(** Every rejected candidate adds one to [tries], and a rejection with
    [tries > 500] leaves the loop, so 501 iterations are enough (theorem
    [spawn_mob_total]). *)
Definition SPAWN_FUEL : nat := 501.

Definition spawn_mob (minute : Z) (player_x player_y : R)
    (obstacles : list Obstacle) : Rand (option Mob) :=
  spawn_mob_fuel SPAWN_FUEL minute player_x player_y obstacles.

End Spawner.

(** ** The game loop: data *)

Inductive AttackType := attack_projectile | attack_melee.

Inductive Champion := mage | rogue | knight.

Record Preset := mkPreset {
  preset_attack_type : AttackType; preset_proj_speed : R; preset_proj_dmg : R;
  preset_cooldown : R; preset_range : R }.

(** The [CHAMPIONS] table. *)
Definition CHAMPIONS (key : Champion) : Preset :=
  match key with
  | mage => mkPreset attack_projectile 420 28 (7 / 10) 520
  | rogue => mkPreset attack_projectile 650 14 (35 / 100) 620
  | knight => mkPreset attack_melee 0 36 (5 / 10) 56
  end.

Record Player := mkPlayer {
  p_x : R; p_y : R; p_hp : R; p_level : Z; p_xp : Z; p_speed : R;
  p_attack_cooldown : R; p_attack_timer : R; p_champion : Champion;
  p_proj_speed : R; p_proj_dmg : R; p_attack_range : R;
  p_attack_type : AttackType }.

(** [Player(x=WORLD_W // 2, y=WORLD_H // 2)] with the dataclass defaults. *)
Definition new_player : Player :=
  mkPlayer (IZR (WORLD_W / 2)) (IZR (WORLD_H / 2)) 100 1 0 250 (5 / 10) 0 mage
           420 20 520 attack_projectile.

Inductive Owner := owner_player | owner_mob.

Record Projectile := mkProjectile {
  pr_x : R; pr_y : R; pr_vx : R; pr_vy : R; pr_speed : R; pr_dmg : R;
  pr_owner : Owner; pr_ttl : R }.

Record LavaPool := mkLavaPool {
  lp_x : R; lp_y : R; lp_radius : R; lp_duration : R; lp_tick : R }.

Inductive State := champ_select | playing | levelup | win | dead.

Inductive Key := K_ESCAPE | K_1 | K_2 | K_3 | K_other.

Inductive Event := QUIT | KEYDOWN (key : Key) | OTHER_EVENT.

(** [pygame.key.get_pressed()], the eight keys the loop reads. *)
Record Keys := mkKeys {
  key_right : bool; key_d : bool; key_left : bool; key_a : bool;
  key_down : bool; key_s : bool; key_up : bool; key_w : bool }.

Definition no_keys : Keys := mkKeys false false false false false false false false.

(** What one iteration of the main loop reads from pygame: the
    milliseconds returned by [clock.tick(FPS)], the event queue and the
    keyboard state. *)
Record FrameInput := mkFrameInput {
  tick_ms : Z; frame_events : list Event; frame_keys : Keys }.

(** The variables of [main] that the loop reads and writes. *)
Record World := mkWorld {
  player : Player;
  projectile_list : list Projectile;
  lava_pools : list LavaPool;
  mobs : list Mob;
  obstacles : list Obstacle;
  elapsed : R;
  spawn_acc : R;
  state : State;
  cam_x : R;
  cam_y : R;
  running : bool;
  rng : Rng }.

Definition BASE_SPAWN : R := 17 / 10.

(** Dataclass equality ([==], used by [in] and [list.remove]) compares
    every field. *)
Definition mob_eq_dec (a b : Mob) : {a = b} + {a <> b}.
Proof.
  decide equality; try apply Req_EM_T; try apply Z.eq_dec. decide equality.
Defined.

Definition owner_eq_dec (a b : Owner) : {a = b} + {a <> b}.
Proof. decide equality. Defined.

Definition projectile_eq_dec (a b : Projectile) : {a = b} + {a <> b}.
Proof. decide equality; try apply Req_EM_T; apply owner_eq_dec. Defined.

Definition lava_eq_dec (a b : LavaPool) : {a = b} + {a <> b}.
Proof. decide equality; apply Req_EM_T. Defined.

(** [list.remove(x)]: drop the first element equal to [x]; [None] when
    there is none (Python raises [ValueError]). *)
Fixpoint list_remove {A} (eq_dec : forall a b : A, {a = b} + {a <> b})
    (x : A) (l : list A) : option (list A) :=
  match l with
  | [] => None
  | y :: rest =>
      if eq_dec y x then Some rest
      else match list_remove eq_dec x rest with
           | Some rest' => Some (y :: rest')
           | None => None
           end
  end.

(** ** The game loop: one frame *)

Section GameStep.
Local Open Scope R_scope.
Local Open Scope rand_scope.

(** [dt = clock.tick(FPS) / 1000.0] *)
Definition dt_of (inp : FrameInput) : R := IZR (tick_ms inp) / 1000.

(** [minute = int(elapsed // 60)] *)
Definition minute_of (elapsed : R) : Z := Int_part (elapsed / 60).

(** [math.radians] *)
Definition radians (deg : R) : R := deg * PI / 180.

Definition set_position (p : Player) (x y : R) : Player :=
  mkPlayer x y (p_hp p) (p_level p) (p_xp p) (p_speed p) (p_attack_cooldown p)
    (p_attack_timer p) (p_champion p) (p_proj_speed p) (p_proj_dmg p)
    (p_attack_range p) (p_attack_type p).

Definition set_hp (p : Player) (hp : R) : Player :=
  mkPlayer (p_x p) (p_y p) hp (p_level p) (p_xp p) (p_speed p) (p_attack_cooldown p)
    (p_attack_timer p) (p_champion p) (p_proj_speed p) (p_proj_dmg p)
    (p_attack_range p) (p_attack_type p).

Definition set_level (p : Player) (level : Z) : Player :=
  mkPlayer (p_x p) (p_y p) (p_hp p) level (p_xp p) (p_speed p) (p_attack_cooldown p)
    (p_attack_timer p) (p_champion p) (p_proj_speed p) (p_proj_dmg p)
    (p_attack_range p) (p_attack_type p).

Definition set_xp (p : Player) (xp : Z) : Player :=
  mkPlayer (p_x p) (p_y p) (p_hp p) (p_level p) xp (p_speed p) (p_attack_cooldown p)
    (p_attack_timer p) (p_champion p) (p_proj_speed p) (p_proj_dmg p)
    (p_attack_range p) (p_attack_type p).

Definition set_speed (p : Player) (speed : R) : Player :=
  mkPlayer (p_x p) (p_y p) (p_hp p) (p_level p) (p_xp p) speed (p_attack_cooldown p)
    (p_attack_timer p) (p_champion p) (p_proj_speed p) (p_proj_dmg p)
    (p_attack_range p) (p_attack_type p).

Definition set_attack_timer (p : Player) (timer : R) : Player :=
  mkPlayer (p_x p) (p_y p) (p_hp p) (p_level p) (p_xp p) (p_speed p)
    (p_attack_cooldown p) timer (p_champion p) (p_proj_speed p) (p_proj_dmg p)
    (p_attack_range p) (p_attack_type p).

Definition set_damage_range (p : Player) (dmg range : R) : Player :=
  mkPlayer (p_x p) (p_y p) (p_hp p) (p_level p) (p_xp p) (p_speed p)
    (p_attack_cooldown p) (p_attack_timer p) (p_champion p) (p_proj_speed p) dmg
    range (p_attack_type p).

Definition choose_champion (key : Champion) (p : Player) : Player :=
  let c := CHAMPIONS key in
  mkPlayer (p_x p) (p_y p) (p_hp p) (p_level p) (p_xp p) (p_speed p)
    (preset_cooldown c) (p_attack_timer p) key (preset_proj_speed c)
    (preset_proj_dmg c) (preset_range c) (preset_attack_type c).

(** *** Events *)

(** The three level-up choices. *)
Definition apply_bonus (key : Key) (p : Player) : Player :=
  match key with
  | K_1 => set_damage_range p (p_proj_dmg p + (8 + IZR (p_level p) * 2))
                            (p_attack_range p + 10)
  | K_2 => set_speed p (p_speed p + 40)
  | K_3 => set_hp p (p_hp p + 40)
  | _ => p
  end.

Definition bonus_key (key : Key) : bool :=
  match key with K_1 | K_2 | K_3 => true | _ => false end.

Definition is_levelup (s : State) : bool :=
  match s with levelup => true | _ => false end.

Definition is_playing (s : State) : bool :=
  match s with playing => true | _ => false end.

(** One pass of the body of [for ev in pygame.event.get()]. *)
Definition handle_event (s : bool * State * Player) (ev : Event)
    : bool * State * Player :=
  let '(run, st, p) := s in
  match ev with
  | QUIT => (false, st, p)
  | KEYDOWN key =>
      let run := match key with K_ESCAPE => false | _ => run end in
      if is_levelup st && bonus_key key then
        let p := apply_bonus key p in
        (run, playing, set_level p (p_level p + 0))
      else (run, st, p)
  | OTHER_EVENT => (run, st, p)
  end.

(** *** Player movement *)

(** [(keys[a] or keys[b]) - (keys[c] or keys[d])] *)
Definition axis (pos neg : bool) : Z := (Z.b2z pos - Z.b2z neg)%Z.

Definition blocked (obstacles : list Obstacle) (x y radius : R) : bool :=
  existsb (fun o => circle_rect_collision x y radius (rect o)) obstacles.

Definition move_player (keys : Keys) (dt : R) (obstacles : list Obstacle)
    (p : Player) : Player :=
  let dx := axis (key_right keys || key_d keys) (key_left keys || key_a keys) in
  let dy := axis (key_down keys || key_s keys) (key_up keys || key_w keys) in
  if negb (dx =? 0)%Z || negb (dy =? 0)%Z then
    let ln := hypot (IZR dx) (IZR dy) in
    let dx := IZR dx / ln in
    let dy := IZR dy / ln in
    let new_x := p_x p + dx * p_speed p * dt in
    let new_y := p_y p + dy * p_speed p * dt in
    if blocked obstacles new_x new_y (IZR PLAYER_RADIUS) then p
    else set_position p (clamp new_x 0 (IZR WORLD_W)) (clamp new_y 0 (IZR WORLD_H))
  else p.

(** *** Spawning *)

Definition spawn_interval (minute : Z) : R :=
  Rmax (4 / 10) (BASE_SPAWN - IZR minute * (12 / 100)).

(** The [while spawn_acc >= spawn_interval] loop; [fuel] bounds its
    iterations and [None] means the bound was too small. *)
Fixpoint spawn_loop (fuel : nat) (minute : Z) (p : Player)
    (obstacles : list Obstacle) (interval acc : R) (ms : list Mob)
    : Rand (option (R * list Mob)) :=
  if Rleb interval acc then
    match fuel with
    | O => ret None
    | S fuel' =>
        let* m := spawn_mob minute (p_x p) (p_y p) obstacles in
        match m with
        | None => ret None
        | Some m =>
            spawn_loop fuel' minute p obstacles interval (acc - interval) (ms ++ [m])
        end
    end
  else ret (Some (acc, ms)).

(** The loop runs [floor(acc / interval)] times; [up] is one more. *)
Definition spawn_fuel (interval acc : R) : nat := Z.to_nat (up (acc / interval)).

(** *** Mobs *)

Definition set_mob_position (m : Mob) (x y : R) : Mob :=
  mkMob x y (mob_hp m) (mob_speed m) (mob_type m) (mob_cooldown m) (mob_id m).

Definition set_mob_cooldown (m : Mob) (cooldown : R) : Mob :=
  mkMob (mob_x m) (mob_y m) (mob_hp m) (mob_speed m) (mob_type m) cooldown (mob_id m).

Definition set_mob_hp (m : Mob) (hp : R) : Mob :=
  mkMob (mob_x m) (mob_y m) hp (mob_speed m) (mob_type m) (mob_cooldown m) (mob_id m).

(** [vx, vy] normalised, and [dist = math.hypot(vx, vy) or 1.0]. *)
Definition toward (px py mx my : R) : R * R * R :=
  let vx := px - mx in
  let vy := py - my in
  let h := hypot vx vy in
  let dist := if Req_EM_T h 0 then 1 else h in
  (vx / dist, vy / dist, dist).

(** The steering loops: the first angle whose step is not blocked. *)
Fixpoint try_angles (rotate : R -> R * R) (attempt : R -> R -> option (R * R))
    (angles : list R) : option (R * R) :=
  match angles with
  | [] => None
  | ang :: rest =>
      match attempt (fst (rotate ang)) (snd (rotate ang)) with
      | Some pos => Some pos
      | None => try_angles rotate attempt rest
      end
  end.

Definition rotate_toward (vx vy ang : R) : R * R :=
  (vx * cos ang - vy * sin ang, vx * sin ang + vy * cos ang).

Definition rotate_away (vx vy ang : R) : R * R :=
  (- vx * cos ang + vy * sin ang, - vx * sin ang - vy * cos ang).

(** [try_move_with_vector] of the melee branch. *)
Definition try_move_with_vector (obstacles : list Obstacle) (m : Mob) (step : R)
    (dx_unit dy_unit : R) : option (R * R) :=
  let nx := mob_x m + dx_unit * step in
  let ny := mob_y m + dy_unit * step in
  if blocked obstacles nx ny (IZR MOB_RADIUS) then None else Some (nx, ny).

(** [attempt_translate] of the shooter branch, with [speed_mult] at its
    default. *)
Definition attempt_translate (obstacles : list Obstacle) (m : Mob) (dt : R)
    (dx_unit dy_unit : R) : option (R * R) :=
  let speed_mult := 1 in
  let nx := mob_x m + dx_unit * mob_speed m * speed_mult * dt in
  let ny := mob_y m + dy_unit * mob_speed m * speed_mult * dt in
  if blocked obstacles nx ny (IZR MOB_RADIUS) then None else Some (nx, ny).

Definition moved_to (m : Mob) (target : option (R * R)) : Mob :=
  match target with
  | Some (nx, ny) =>
      set_mob_position m (clamp nx 0 (IZR WORLD_W)) (clamp ny 0 (IZR WORLD_H))
  | None => m
  end.

Definition melee_angles : list R :=
  [0; radians 30; radians (-30); radians 60; radians (-60); radians 100; radians (-100)].

Definition approach_angles : list R :=
  [0; radians 25; radians (-25); radians 50; radians (-50)].

Definition retreat_angles : list R := [0; radians 25; radians (-25)].

(** What the mob loop reads and writes besides the mob itself. *)
Record Scene := mkScene {
  sc_player : Player; sc_projectiles : list Projectile; sc_pools : list LavaPool }.

(** The steering part of the melee branch. *)
Definition melee_move (dt : R) (obstacles : list Obstacle) (p : Player) (m : Mob)
    : Mob :=
  let '(vx, vy, dist) := toward (p_x p) (p_y p) (mob_x m) (mob_y m) in
  let step := mob_speed m * dt in
  moved_to m (try_angles (rotate_toward vx vy)
                (try_move_with_vector obstacles m step) melee_angles).

Definition update_melee (dt : R) (obstacles : list Obstacle) (m : Mob) (sc : Scene)
    : Mob * Scene :=
  let p := sc_player sc in
  let m := melee_move dt obstacles p m in
  if Rleb (distance (mob_x m) (mob_y m) (p_x p) (p_y p))
          (IZR (MOB_RADIUS + PLAYER_RADIUS))
  then (m, mkScene (set_hp p (p_hp p - 12 * dt)) (sc_projectiles sc) (sc_pools sc))
  else (m, sc).

Definition update_shooter (dt : R) (minute : Z) (obstacles : list Obstacle)
    (m : Mob) (sc : Scene) : Rand (Mob * Scene) :=
  let p := sc_player sc in
  let '(vx, vy, dist) := toward (p_x p) (p_y p) (mob_x m) (mob_y m) in
  let desired := 380 in
  let m :=
    if Rltb desired dist then
      moved_to m (try_angles (rotate_toward vx vy)
                    (attempt_translate obstacles m dt) approach_angles)
    else if Rltb dist (desired - 60) then
      moved_to m (try_angles (rotate_away vx vy)
                    (attempt_translate obstacles m dt) retreat_angles)
    else m in
  if Rleb (mob_cooldown m) 0 && Rleb dist 700 then
    let ps := 420 in
    let shot := mkProjectile (mob_x m) (mob_y m) (vx * ps) (vy * ps) ps
                  (18 + IZR minute * 2) owner_mob 6 in
    let* cooldown := uniform (12 # 10) 2 in
    ret (set_mob_cooldown m (Q2R cooldown),
         mkScene p (sc_projectiles sc ++ [shot]) (sc_pools sc))
  else ret (m, sc).

(** [random.uniform(0, math.tau)] is [0 + (tau - 0) * random()]. *)
Definition update_lava (dt : R) (obstacles : list Obstacle) (m : Mob) (sc : Scene)
    : Rand (Mob * Scene) :=
  let* u := random in
  let ang := 0 + (2 * PI - 0) * Q2R u in
  let nx := mob_x m + cos ang * mob_speed m * (25 / 100) * dt in
  let ny := mob_y m + sin ang * mob_speed m * (25 / 100) * dt in
  let m := if blocked obstacles nx ny (IZR MOB_RADIUS) then m
           else set_mob_position m (clamp nx 0 (IZR WORLD_W)) (clamp ny 0 (IZR WORLD_H)) in
  if Rleb (mob_cooldown m) 0 then
    let* jd := uniform (- (1)) 2 in
    let pool := mkLavaPool (mob_x m) (mob_y m) (IZR LAVA_RADIUS) (6 + Q2R jd) 0 in
    let* jc := uniform 0 3 in
    ret (set_mob_cooldown m (4 + Q2R jc),
         mkScene (sc_player sc) (sc_projectiles sc) (sc_pools sc ++ [pool]))
  else ret (m, sc).

(** The body of [for mob in mobs[:]] up to the dead-mob test. *)
Definition update_mob (dt : R) (minute : Z) (obstacles : list Obstacle)
    (m : Mob) (sc : Scene) : Rand (Mob * Scene) :=
  let m := set_mob_cooldown m (Rmax 0 (mob_cooldown m - dt)) in
  match mob_type m with
  | melee => ret (update_melee dt obstacles m sc)
  | shooter => update_shooter dt minute obstacles m sc
  | lava => update_lava dt obstacles m sc
  end.

(** [try: mobs.remove(mob) except ValueError: pass] and its siblings. *)
Definition remove_or_keep {A} (eq_dec : forall a b : A, {a = b} + {a <> b})
    (x : A) (l : list A) : list A :=
  match list_remove eq_dec x l with Some l' => l' | None => l end.

(** The loop over the snapshot [mobs[:]].  The mobs are objects shared
    with the live list, so the loop is modelled on the live list: [i] is
    the place of the next snapshot element in it, [n] the number of
    snapshot elements left.  A mob is changed in place, and a dead one is
    taken out with [list.remove], after which the next element is at [i]
    again. *)
Fixpoint update_mobs (n i : nat) (dt : R) (minute : Z) (obstacles : list Obstacle)
    (live : list Mob) (sc : Scene) : Rand (list Mob * Scene) :=
  match n with
  | O => ret (live, sc)
  | S n' =>
      match live !! i with
      | None => ret (live, sc)
      | Some m =>
          let* r := update_mob dt minute obstacles m sc in
          let m := fst r in
          let sc := snd r in
          let live := <[i := m]> live in
          if Rleb (mob_hp m) 0 then
            let live := remove_or_keep mob_eq_dec m live in
            let p := sc_player sc in
            let sc := mkScene (set_xp p (p_xp p + 1)) (sc_projectiles sc) (sc_pools sc) in
            update_mobs n' i dt minute obstacles live sc
          else update_mobs n' (S i) dt minute obstacles live sc
      end
  end.

(** *** Projectiles *)

Definition advance (p : Projectile) (dt : R) : Projectile :=
  mkProjectile (pr_x p + pr_vx p * dt) (pr_y p + pr_vy p * dt) (pr_vx p) (pr_vy p)
    (pr_speed p) (pr_dmg p) (pr_owner p) (pr_ttl p - dt).

(** [0 <= p.x <= WORLD_W and 0 <= p.y <= WORLD_H] *)
Definition in_world (x y : R) : bool :=
  Rleb 0 x && Rleb x (IZR WORLD_W) && Rleb 0 y && Rleb y (IZR WORLD_H).

(** [for mob in mobs[:]]: the first mob within reach is hurt, in place;
    [None] when no mob is. *)
Fixpoint hit_mob (p : Projectile) (ms : list Mob) : option (list Mob) :=
  match ms with
  | [] => None
  | m :: rest =>
      if Rleb (distance (pr_x p) (pr_y p) (mob_x m) (mob_y m)) (IZR (MOB_RADIUS + 6))
      then Some (set_mob_hp m (mob_hp m - pr_dmg p) :: rest)
      else match hit_mob p rest with
           | Some rest' => Some (m :: rest')
           | None => None
           end
  end.

Definition is_owner_mob (o : Owner) : bool :=
  match o with owner_mob => true | owner_player => false end.

(** The loop over [projectile_list[:]], on the live list as for the
    mobs. *)
Fixpoint update_projectiles (n i : nat) (dt : R) (obstacles : list Obstacle)
    (live : list Projectile) (pl : Player) (ms : list Mob)
    : list Projectile * Player * list Mob :=
  match n with
  | O => (live, pl, ms)
  | S n' =>
      match live !! i with
      | None => (live, pl, ms)
      | Some p =>
          let p := advance p dt in
          let live := <[i := p]> live in
          if Rleb (pr_ttl p) 0 || negb (in_world (pr_x p) (pr_y p)) then
            update_projectiles n' i dt obstacles
              (remove_or_keep projectile_eq_dec p live) pl ms
          else if blocked obstacles (pr_x p) (pr_y p) 4 then
            update_projectiles n' i dt obstacles
              (remove_or_keep projectile_eq_dec p live) pl ms
          else if is_owner_mob (pr_owner p)
                  && Rleb (distance (pr_x p) (pr_y p) (p_x pl) (p_y pl))
                          (IZR (PLAYER_RADIUS + 6)) then
            update_projectiles n' i dt obstacles
              (remove_or_keep projectile_eq_dec p live)
              (set_hp pl (p_hp pl - pr_dmg p)) ms
          else if negb (is_owner_mob (pr_owner p)) then
            match hit_mob p ms with
            | Some ms' =>
                update_projectiles n' i dt obstacles
                  (remove_or_keep projectile_eq_dec p live) pl ms'
            | None => update_projectiles n' (S i) dt obstacles live pl ms
            end
          else update_projectiles n' (S i) dt obstacles live pl ms
      end
  end.

(** *** Lava pools *)

(** The loop over [lava_pools[:]].  [lava_pools.remove(lava)] finds the
    pool, which sits at place [i]. *)
Fixpoint update_pools (n i : nat) (dt : R) (live : list LavaPool) (pl : Player)
    : list LavaPool * Player :=
  match n with
  | O => (live, pl)
  | S n' =>
      match live !! i with
      | None => (live, pl)
      | Some l =>
          let l := mkLavaPool (lp_x l) (lp_y l) (lp_radius l) (lp_duration l - dt)
                     (lp_tick l + dt) in
          let live := <[i := l]> live in
          if Rleb (lp_duration l) 0 then
            update_pools n' i dt (remove_or_keep lava_eq_dec l live) pl
          else if Rleb (distance (p_x pl) (p_y pl) (lp_x l) (lp_y l)) (lp_radius l) then
            update_pools n' (S i) dt live (set_hp pl (p_hp pl - 28 * dt))
          else update_pools n' (S i) dt live pl
      end
  end.

(** *** The player's attack *)

(** [min(mobs, key=...)]: the first mob at the least distance. *)
Definition nearest_mob (pl : Player) (ms : list Mob) : option Mob :=
  match ms with
  | [] => None
  | m :: rest =>
      Some (fold_left
              (fun best c =>
                 if Rltb (distance (p_x pl) (p_y pl) (mob_x c) (mob_y c))
                         (distance (p_x pl) (p_y pl) (mob_x best) (mob_y best))
                 then c else best)
              rest m)
  end.

Definition melee_strike (pl : Player) (m : Mob) : Mob :=
  if Rleb (distance (p_x pl) (p_y pl) (mob_x m) (mob_y m))
          (p_attack_range pl + IZR MOB_RADIUS)
  then set_mob_hp m (mob_hp m - p_proj_dmg pl) else m.

Definition auto_attack (dt : R) (pl : Player) (projs : list Projectile)
    (ms : list Mob) : Player * list Projectile * list Mob :=
  let pl := set_attack_timer pl (p_attack_timer pl - dt) in
  if Rleb (p_attack_timer pl) 0 then
    match nearest_mob pl ms with
    | None => (pl, projs, ms)
    | Some nearest =>
        let dist := distance (p_x pl) (p_y pl) (mob_x nearest) (mob_y nearest) in
        if Rleb dist (p_attack_range pl) then
          match p_attack_type pl with
          | attack_projectile =>
              let d := if Req_EM_T dist 0 then 1 else dist in
              let dx := (mob_x nearest - p_x pl) / d in
              let dy := (mob_y nearest - p_y pl) / d in
              let shot := mkProjectile (p_x pl) (p_y pl) (dx * p_proj_speed pl)
                            (dy * p_proj_speed pl) (p_proj_speed pl) (p_proj_dmg pl)
                            owner_player 6 in
              (set_attack_timer pl (p_attack_cooldown pl), projs ++ [shot], ms)
          | attack_melee =>
              (set_attack_timer pl (p_attack_cooldown pl), projs,
               map (melee_strike pl) ms)
          end
        else (pl, projs, ms)
    end
  else (pl, projs, ms).

(** *** The checks that end the playing block *)

Definition level_up_check (pl : Player) (st : State) : Player * State :=
  if (p_level pl * 5 <=? p_xp pl)%Z then (set_level pl (p_level pl + 1), levelup)
  else (pl, st).

Definition win_check (elapsed : R) (st : State) : State :=
  if Rleb (IZR LEVEL_DURATION_SECONDS) elapsed then win else st.

Definition death_check (pl : Player) (st : State) : State :=
  if Rleb (p_hp pl) 0 then dead else st.

(** *** Camera *)

Definition camera_x (pl : Player) : R :=
  clamp (p_x pl - IZR SCREEN_W / 2) 0 (IZR (WORLD_W - SCREEN_W)).

Definition camera_y (pl : Player) : R :=
  clamp (p_y pl - IZR SCREEN_H / 2) 0 (IZR (WORLD_H - SCREEN_H)).

(** *** One frame *)

(** The block [if state == 'playing':], given the time and minute of
    this frame.  [None] only if the spawn loop ran out of fuel. *)
Definition playing_block (keys : Keys) (dt : R) (now : R) (minute : Z)
    (w : World) : option World :=
  let obs := obstacles w in
  let pl := move_player keys dt obs (player w) in
  let interval := spawn_interval minute in
  let acc := spawn_acc w + dt in
  let '(spawned, g) :=
    spawn_loop (spawn_fuel interval acc) minute pl obs interval acc (mobs w) (rng w) in
  match spawned with
  | None => None
  | Some (acc, ms) =>
      let '(ms, sc, g) :=
        update_mobs (length ms) 0 dt minute obs ms
          (mkScene pl (projectile_list w) (lava_pools w)) g in
      let '(projs, pl, ms) :=
        update_projectiles (length (sc_projectiles sc)) 0 dt obs
          (sc_projectiles sc) (sc_player sc) ms in
      let '(pools, pl) := update_pools (length (sc_pools sc)) 0 dt (sc_pools sc) pl in
      let '(pl, projs, ms) := auto_attack dt pl projs ms in
      let '(pl, st) := level_up_check pl playing in
      let st := win_check now st in
      let st := death_check pl st in
      Some (mkWorld pl projs pools ms obs now acc st (camera_x pl) (camera_y pl)
              (running w) g)
  end.

(** The drawing part writes only the camera. *)
Definition draw_camera (w : World) : World :=
  match state w with
  | champ_select => w
  | _ =>
      mkWorld (player w) (projectile_list w) (lava_pools w) (mobs w) (obstacles w)
        (elapsed w) (spawn_acc w) (state w) (camera_x (player w)) (camera_y (player w))
        (running w) (rng w)
  end.

(** One iteration of [while running:]. *)
Definition frame (inp : FrameInput) (w : World) : option World :=
  let dt := dt_of inp in
  let now := elapsed w + dt in
  let minute := minute_of now in
  let '(run, st, pl) :=
    fold_left handle_event (frame_events inp) (running w, state w, player w) in
  let w := mkWorld pl (projectile_list w) (lava_pools w) (mobs w) (obstacles w)
             now (spawn_acc w) st (cam_x w) (cam_y w) run (rng w) in
  match (if is_playing st then playing_block (frame_keys inp) dt now minute w
         else Some w) with
  | Some w => Some (draw_camera w)
  | None => None
  end.

(** The loop: a frame per input while [running] holds. *)
Fixpoint run_frames (inputs : list FrameInput) (w : World) : option World :=
  match inputs with
  | [] => Some w
  | inp :: rest =>
      if running w then
        match frame inp w with
        | Some w' => run_frames rest w'
        | None => None
        end
      else Some w
  end.

(** *** Start of the game *)

(** [choose_champion] also sets [state = 'playing']; the world after the
    menu, with the obstacles the generator returned. *)
Definition start_world (key : Champion) (obs : list Obstacle) (g : Rng) : World :=
  mkWorld (choose_champion key new_player) [] [] [] obs 0 0 playing 0 0 true g.

End GameStep.
(** ** The champion menu *)

(** The events the menu reads: keys, and mouse clicks with their
    position [ev.pos]. *)
Inductive MenuEvent :=
  | MENU_QUIT
  | MENU_KEYDOWN (key : Key)
  | MOUSEBUTTONDOWN (mx my : Z)
  | MENU_OTHER.

(** How [champion_menu] is left: [choose_champion(key); return],
    [sys.exit()], or not yet. *)
Inductive MenuOutcome := Chosen (c : Champion) | Exited | Undecided.

Definition champion_of_key (key : Key) : option Champion :=
  match key with
  | K_1 => Some mage
  | K_2 => Some rogue
  | K_3 => Some knight
  | _ => None
  end.

(** [if mx < SCREEN_W / 3 ... elif mx < 2 * SCREEN_W / 3 ... else] *)
Definition champion_of_click (mx : Z) : Champion :=
  if Qlt_le_dec (inject_Z mx) (inject_Z SCREEN_W / 3) then mage
  else if Qlt_le_dec (inject_Z mx) (2 * inject_Z SCREEN_W / 3) then rogue
  else knight.

(** The body of [for ev in pygame.event.get()] for one event. *)
Definition menu_event (ev : MenuEvent) : MenuOutcome :=
  match ev with
  | MENU_QUIT => Exited
  | MENU_KEYDOWN key =>
      match champion_of_key key with
      | Some c => Chosen c
      | None => Undecided
      end
  | MOUSEBUTTONDOWN mx _ => Chosen (champion_of_click mx)
  | MENU_OTHER => Undecided
  end.

Fixpoint menu_events (evs : list MenuEvent) : MenuOutcome :=
  match evs with
  | [] => Undecided
  | ev :: rest =>
      match menu_event ev with
      | Undecided => menu_events rest
      | outcome => outcome
      end
  end.

(** [while state == 'champ_select'], one list of events per pass;
    [Undecided] when the menu is still open after the last one. *)
Fixpoint champion_menu (frames : list (list MenuEvent)) : MenuOutcome :=
  match frames with
  | [] => Undecided
  | evs :: rest =>
      match menu_events evs with
      | Undecided => champion_menu rest
      | outcome => outcome
      end
  end.

(** The centre of the [i]-th card, [int((i + 0.5) * SCREEN_W / 3)]. *)
Definition card_center (i : Z) : Z :=
  py_int ((inject_Z i + (1 # 2)) * inject_Z SCREEN_W / 3)%Q.

Definition champion_keys : list Champion := [mage; rogue; knight].

(** ** Graph notions used to state the cluster bound *)

Definition nbrs (adj : list (list nat)) (u : nat) : list nat := default [] (adj !! u).

Fixpoint unvisited (vis : list bool) : nat :=
  match vis with
  | [] => 0
  | b :: rest => (if b then 0 else 1) + unvisited rest
  end.

Definition edge (adj : list (list nat)) (u v : nat) : Prop := v ∈ nbrs adj u.

Definition closed (adj : list (list nat)) (c : list nat) : Prop :=
  ∀ u v, u ∈ c → edge adj u v → v ∈ c.

Definition linked (adj : list (list nat)) (c : list nat) : Prop :=
  ∀ u v, u ∈ c → v ∈ c → rtc (edge adj) u v.

(** The state of the [while stack] loop for the component rooted at [root],
    the components in [comps] being finished. *)
Record dfs_inv (adj : list (list nat)) (root : nat) (comps : list (list nat))
    (vis : list bool) (stack comp : list nat) : Prop := {
  inv_length : length vis = length adj;
  inv_visited : ∀ v, vis !! v = Some true ↔ v ∈ stack ++ comp ++ concat comps;
  inv_nodup : NoDup (stack ++ comp ++ concat comps);
  inv_closed : ∀ u v, u ∈ comp → edge adj u v → v ∈ comp ∨ v ∈ stack;
  inv_reach : ∀ v, v ∈ stack ++ comp → rtc (edge adj) root v;
}.

(** The state of the outer loop. *)
Record comps_inv (adj : list (list nat)) (vis : list bool) (comps : list (list nat)) : Prop := {
  cinv_length : length vis = length adj;
  cinv_visited : ∀ v, vis !! v = Some true ↔ v ∈ concat comps;
  cinv_nodup : NoDup (concat comps);
  cinv_closed : Forall (closed adj) comps;
  cinv_linked : Forall (linked adj) comps;
}.

Definition by_key_desc (key : nat → nat) (x y : nat) : Prop := key y ≤ key x.

(** The indices that survive [keep_unmarked], in order. *)
Fixpoint kept_indices (marked : gset nat) (idx : nat) (obs : list Obstacle) : list nat :=
  match obs with
  | [] => []
  | o :: rest =>
      if decide (idx ∈ marked) then kept_indices marked (S idx) rest
      else idx :: kept_indices marked (S idx) rest
  end.

Definition adjacent (obs : list Obstacle) (i j : nat) : Prop :=
  i ≠ j ∧ near_idx obs i j = true.

Definition clusters_bounded (obs : list Obstacle) : Prop :=
  ∀ cluster : list nat,
    NoDup cluster →
    (∀ i, i ∈ cluster → i < length obs) →
    (∀ i j, i ∈ cluster → j ∈ cluster → rtc (adjacent obs) i j) →
    length cluster ≤ MAX_NEARBY_OBSTACLES.

(** How each component is cut down: it keeps [min(len, MAX)] members, and
    no member that goes has a smaller degree than a member that stays. *)
Definition prunes_by_degree (adj : list (list nat)) (marked : gset nat)
    (c : list nat) : Prop :=
  length (filter (λ i, i ∉ marked) c) = length c `min` MAX_NEARBY_OBSTACLES
  ∧ ∀ r k, r ∈ c → k ∈ c → r ∈ marked → k ∉ marked → degree adj k ≤ degree adj r.

Definition is_component (obs : list Obstacle) (c : list nat) : Prop :=
  (∀ u v, u ∈ c → adjacent obs u v → v ∈ c)
  ∧ (∀ u v, u ∈ c → v ∈ c → rtc (adjacent obs) u v).

(** An entropy source for which the first three obstacles placed form a
    chain: the offsets drawn at positions 326 and 331 put them 100 apart,
    so the middle one is near both others. *)
Definition rng_chain : Rng :=
  mkRng (fun n => if (n =? 326)%nat then 200 else if (n =? 331)%nat then 100 else 0)%Z 0.

(** Two rectangles are [separated] when a gap of at least
    [OBSTACLE_SAFETY_MARGIN] lies between them along the x or the y axis. *)
Definition separated (a b : Rect) : Prop :=
  (right a + OBSTACLE_SAFETY_MARGIN <= left b
   ∨ right b + OBSTACLE_SAFETY_MARGIN <= left a
   ∨ bottom a + OBSTACLE_SAFETY_MARGIN <= top b
   ∨ bottom b + OBSTACLE_SAFETY_MARGIN <= top a)%Z.

Fixpoint pairwise {A} (R : A → A → Prop) (l : list A) : Prop :=
  match l with
  | [] => True
  | x :: rest => Forall (R x) rest ∧ pairwise R rest
  end.

Definition sized (o : Obstacle) : Prop := (40 <= rw (rect o) ∧ 40 <= rh (rect o))%Z.

Definition well_spaced (obs : list Obstacle) : Prop :=
  Forall sized obs ∧ pairwise (λ a b, separated (rect a) (rect b)) obs.

Definition rng_c2 : Rng :=
  mkRng (fun n => if (n =? 324)%nat then 50 else if (n =? 326)%nat then 100 else 0)%Z 0.



Definition rng_zero : Rng := mkRng (fun _ => 0%Z) 0.



(** The fields of the player that the simulation of mobs, projectiles,
    lava pools and the attack never writes: everything but [hp], [xp]
    and [attack_timer]. *)
Definition untouched (p q : Player) : Prop :=
  p_x q = p_x p ∧ p_y q = p_y p ∧ p_level q = p_level p ∧ p_speed q = p_speed p
  ∧ p_attack_cooldown q = p_attack_cooldown p ∧ p_champion q = p_champion p
  ∧ p_proj_speed q = p_proj_speed p ∧ p_proj_dmg q = p_proj_dmg p
  ∧ p_attack_range q = p_attack_range p ∧ p_attack_type q = p_attack_type p.

(** The world a frame hands to the playing block: the clock has advanced
    and the events have been handled. *)
Definition at_time (w : World) (now : R) (run : bool) : World :=
  mkWorld (player w) (projectile_list w) (lava_pools w) (mobs w) (obstacles w)
    now (spawn_acc w) playing (cam_x w) (cam_y w) run (rng w).

(** What a frame in ['playing'] computes when there are no mobs and no
    projectiles and no mob is spawned: the player moves, the lava pools
    are updated, the attack timer runs and the three checks are made. *)
Definition calm_frame (inp : FrameInput) (w : World) : World :=
  let dt := dt_of inp in
  let now := (elapsed w + dt)%R in
  let moved := move_player (frame_keys inp) dt (obstacles w) (player w) in
  let pools := update_pools (length (lava_pools w)) 0 dt (lava_pools w) moved in
  let timed := set_attack_timer (snd pools) (p_attack_timer (snd pools) - dt)%R in
  let checked := level_up_check timed playing in
  mkWorld (fst checked) [] (fst pools) [] (obstacles w) now (spawn_acc w + dt)%R
    (death_check (fst checked) (win_check now (snd checked)))
    (camera_x (fst checked)) (camera_y (fst checked)) (running w) (rng w).

(** A frame of 17 ms without events or keys. *)
Definition idle_frame : FrameInput := mkFrameInput 17 [] no_keys.

(** Ten milliseconds before the end of the level, the mage stands in a
    lava pool with a tenth of a hit point left. *)
Definition world_last_breath : World :=
  mkWorld (set_hp (choose_champion mage new_player) (1 / 10)) []
    [mkLavaPool 1200 900 (IZR LAVA_RADIUS) 5 1] [] [] (59999 / 100) 0 playing
    800 600 true rng_zero.

(** The same moment with full hit points and no lava. *)
Definition world_last_moment : World :=
  mkWorld (choose_champion mage new_player) [] [] [] [] (59999 / 100) 0 playing
    800 600 true rng_zero.

(** The start of a game, with five kills already counted. *)
Definition world_five_kills : World :=
  mkWorld (set_xp (choose_champion mage new_player) 5) [] [] [] [] 0 0 playing
    800 600 true rng_zero.

(** The same five kills, ten milliseconds before the end of the level. *)
Definition world_five_kills_late : World :=
  mkWorld (set_xp (choose_champion mage new_player) 5) [] [] [] [] (59999 / 100) 0
    playing 800 600 true rng_zero.

(** The solid rectangle, edges included. *)
Definition in_rect (r : Rect) (px py : R) : Prop :=
  (IZR (left r) <= px <= IZR (right r) ∧ IZR (top r) <= py <= IZR (bottom r))%R.

(** [d] is the least distance from [(cx, cy)] to a point of the rectangle. *)
Definition is_min_distance (d cx cy : R) (r : Rect) : Prop :=
  (∃ px py, in_rect r px py ∧ distance cx cy px py = d)
  ∧ ∀ px py, in_rect r px py → (d <= distance cx cy px py)%R.

(** A melee mob 20 units to the right of the mage, nothing else around. *)
Definition mob_adjacent : Mob := mkMob 1220 900 22 55 melee 0 7.

Definition world_adjacent : World :=
  mkWorld (choose_champion mage new_player) [] [] [mob_adjacent] [] 0 0 playing
    800 600 true rng_zero.

(** A frame without input: no event, no key held; [clock.tick] never
    returns a negative number. *)
Definition quiet (inp : FrameInput) : Prop :=
  frame_events inp = [] ∧ frame_keys inp = no_keys ∧ (0 <= tick_ms inp)%Z.

(** The milliseconds of a run of frames. *)
Definition total_ms (inputs : list FrameInput) : Z :=
  foldr (fun inp s => (tick_ms inp + s)%Z) 0%Z inputs.

(** One second at about 60 frames per second: 58 frames of 17 ms and one
    of 14 ms. *)
Definition one_second : list FrameInput :=
  replicate 58 idle_frame ++ [mkFrameInput 14 [] no_keys].

(** An entropy source that makes the first spawned mob a shooter at
    (725, 900) with speed 47 and cooldown 0.8. *)
Definition rng_shooter : Rng :=
  mkRng (fun n => if (n =? 0)%nat then 4
                  else if (n =? 1)%nat then 5
                  else if (n =? 2)%nat then 2 ^ 50
                  else if (n =? 4)%nat then 3 * 2 ^ 51 else 0)%Z 0.

(** One frame of a full second, as after a stall. *)
Definition long_frame : FrameInput := mkFrameInput 1000 [] no_keys.

(** Five seconds into a game, the field empty again, one second since
    the last spawn. *)
Definition world_overdue : World :=
  mkWorld (choose_champion mage new_player) [] [] [] [] 5 1 playing 800 600 true
    rng_shooter.

(** An obstacle as the two placement loops build it: sizes within the
    drawn ranges and the rectangle inside the world. *)
Definition in_world_rect (o : Obstacle) : Prop :=
  (40 <= rw (rect o) <= 160 ∧ 40 <= rh (rect o) <= 140
   ∧ 0 <= left (rect o) ∧ right (rect o) <= WORLD_W
   ∧ 0 <= top (rect o) ∧ bottom (rect o) <= WORLD_H)%Z.

Definition clear_of_center (o : Obstacle) : Prop :=
  colliderect (rect o) center_area = false.

Definition placed (o : Obstacle) : Prop := in_world_rect o ∧ clear_of_center o.



(** The events that end the loop: closing the window and Escape. *)
Definition stops (ev : Event) : bool :=
  match ev with
  | QUIT | KEYDOWN K_ESCAPE => true
  | _ => false
  end.

(** An event that resolves the level-up menu. *)
Definition picks_bonus (ev : Event) : bool :=
  match ev with
  | KEYDOWN key => bonus_key key
  | _ => false
  end.

(** A point of the world rectangle. *)
Definition in_world_point (x y : R) : Prop :=
  (0 <= x <= IZR WORLD_W ∧ 0 <= y <= IZR WORLD_H)%R.

(** The level-up menu is open, five kills in. *)
Definition world_menu_open : World :=
  mkWorld (set_level (set_xp (choose_champion mage new_player) 5) 2) [] [] [] []
    30 (3 / 10) levelup 800 600 true rng_zero.

Definition keys_right : Keys := mkKeys true false false false false false false false.

(** The distance the attack code compares. *)
Definition player_distance (pl : Player) (m : Mob) : R :=
  distance (p_x pl) (p_y pl) (mob_x m) (mob_y m).

(** What the three branches keep of the mob. *)
Definition kept (m m' : Mob) : Prop :=
  mob_hp m' = mob_hp m ∧ mob_speed m' = mob_speed m
  ∧ mob_type m' = mob_type m ∧ mob_id m' = mob_id m
  ∧ (0 <= mob_cooldown m → 0 <= mob_cooldown m')%R
  ∧ (in_world_point (mob_x m) (mob_y m) → in_world_point (mob_x m') (mob_y m')).

(** The projectile the mage or the rogue fires at [target]. *)
Definition is_shot_at (pl : Player) (target : Mob) (shot : Projectile) : Prop :=
  pr_x shot = p_x pl ∧ pr_y shot = p_y pl
  ∧ pr_speed shot = p_proj_speed pl ∧ pr_dmg shot = p_proj_dmg pl
  ∧ pr_owner shot = owner_player ∧ pr_ttl shot = 6%R
  ∧ ((hypot (pr_vx shot) (pr_vy shot) = Rabs (p_proj_speed pl)
      ∧ 0 < player_distance pl target)%R
     ∨ (pr_vx shot = 0%R ∧ pr_vy shot = 0%R ∧ player_distance pl target = 0%R)).



Definition mob_in_world (m : Mob) : Prop := in_world_point (mob_x m) (mob_y m).

(** * Proofs *)

(** *** The adjacency lists *)

Section Adjacency.

Lemma distance_ltZ_sym ax ay bx by_ r :
  distance_ltZ ax ay bx by_ r = distance_ltZ bx by_ ax ay r.
Proof. unfold distance_ltZ. f_equal. lia. Qed.

Lemma near_sym a b : near a b = near b a.
Proof. apply distance_ltZ_sym. Qed.

Lemma near_idx_sym obs i j : near_idx obs i j = near_idx obs j i.
Proof.
  unfold near_idx. destruct (obs !! i), (obs !! j); auto using near_sym.
Qed.

Lemma near_idx_lt obs i j :
  near_idx obs i j = true → i < length obs ∧ j < length obs.
Proof.
  unfold near_idx. destruct (obs !! i) eqn:Hi, (obs !! j) eqn:Hj; try done.
  intros _. split; eapply lookup_lt_Some; eauto.
Qed.

Lemma nbrs_alter_app adj i x u v :
  i < length adj →
  v ∈ nbrs (alter (λ l, l ++ [x]) i adj) u ↔ v ∈ nbrs adj u ∨ (u = i ∧ v = x).
Proof.
  intros Hi. unfold nbrs. destruct (decide (i = u)) as [->|Hne].
  - rewrite list_lookup_alter_eq.
    destruct (lookup_lt_is_Some_2 adj u Hi) as [l ->]. simpl.
    rewrite elem_of_app, list_elem_of_singleton. naive_solver.
  - rewrite list_lookup_alter_ne by done. naive_solver.
Qed.

Lemma nbrs_add_edge adj i j u v :
  i < length adj → j < length adj →
  v ∈ nbrs (add_edge adj i j) u ↔
  v ∈ nbrs adj u ∨ (u = i ∧ v = j) ∨ (u = j ∧ v = i).
Proof.
  intros Hi Hj. unfold add_edge.
  rewrite nbrs_alter_app by (by rewrite length_alter).
  rewrite nbrs_alter_app by done. naive_solver.
Qed.

Lemma length_add_edge adj i j : length (add_edge adj i j) = length adj.
Proof. unfold add_edge. by rewrite !length_alter. Qed.

Section Row.
Context (obs : list Obstacle) (i : nat).

Let row := λ (adj : list (list nat)) j,
  if near_idx obs i j then add_edge adj i j else adj.

Lemma length_row js adj : length (foldl row adj js) = length adj.
Proof.
  revert adj. induction js as [|j js IH]; intros adj; simpl; [done|].
  rewrite IH. unfold row. destruct (near_idx obs i j); [apply length_add_edge|done].
Qed.

Lemma nbrs_row js adj u v :
  length adj = length obs →
  v ∈ nbrs (foldl row adj js) u ↔
  v ∈ nbrs adj u
  ∨ (u = i ∧ v ∈ js ∧ near_idx obs i v = true)
  ∨ (v = i ∧ u ∈ js ∧ near_idx obs i u = true).
Proof.
  revert adj. induction js as [|j js IH]; intros adj Hlen; simpl.
  - rewrite !elem_of_nil. naive_solver.
  - rewrite IH; last first.
    { unfold row. destruct (near_idx obs i j); [by rewrite length_add_edge|done]. }
    unfold row. destruct (near_idx obs i j) eqn:Hn.
    + apply near_idx_lt in Hn as Hlt. destruct Hlt.
      rewrite nbrs_add_edge by lia. rewrite !elem_of_cons. clear IH. split.
      * intros [[?|[[-> ->]|[-> ->]]]|[(?&?&?)|(?&?&?)]]; eauto 10.
      * intros [?|[(?&[?|?]&?)|(?&[?|?]&?)]]; subst; eauto 10.
    + rewrite !elem_of_cons. clear IH. split.
      * intros [?|[(?&?&?)|(?&?&?)]]; eauto 10.
      * intros [?|[(?&[?|?]&?)|(?&[?|?]&?)]]; subst; try congruence; eauto 10.
Qed.

End Row.

Lemma length_rows obs rows adj :
  length (foldl (λ adj i,
            foldl (λ adj j, if near_idx obs i j then add_edge adj i j else adj)
                  adj (seq (S i) (length obs - S i))) adj rows) = length adj.
Proof.
  revert adj. induction rows as [|i rows IH]; intros adj; simpl; [done|].
  by rewrite IH, length_row.
Qed.

Lemma nbrs_rows obs rows adj u v :
  length adj = length obs →
  v ∈ nbrs (foldl (λ adj i,
            foldl (λ adj j, if near_idx obs i j then add_edge adj i j else adj)
                  adj (seq (S i) (length obs - S i))) adj rows) u ↔
  v ∈ nbrs adj u
  ∨ (u ∈ rows ∧ u < v ∧ near_idx obs u v = true)
  ∨ (v ∈ rows ∧ v < u ∧ near_idx obs v u = true).
Proof.
  revert adj. induction rows as [|i rows IH]; intros adj Hlen; simpl.
  - rewrite !elem_of_nil. naive_solver.
  - rewrite IH by (by rewrite length_row).
    rewrite nbrs_row by done. rewrite !elem_of_cons, !elem_of_seq.
    split.
    + intros [[H|[(-> & H1 & H2)|(-> & H1 & H2)]]|[(?&?&?)|(?&?&?)]].
      * by left.
      * right; left. split_and!; [by left|lia|done].
      * right; right. split_and!; [by left|lia|done].
      * right; left. split_and!; [by right|done|done].
      * right; right. split_and!; [by right|done|done].
    + intros [H|[([->|H0] & H1 & H2)|([->|H0] & H1 & H2)]].
      * by left; left.
      * apply near_idx_lt in H2 as Hlt. left; right; left.
        split_and!; [done|lia|lia|done].
      * right; left. done.
      * apply near_idx_lt in H2 as Hlt. left; right; right.
        split_and!; [done|lia|lia|done].
      * right; right. done.
Qed.

Lemma length_build_adj_list obs : length (build_adj_list obs) = length obs.
Proof. unfold build_adj_list. by rewrite length_rows, length_replicate. Qed.

Lemma nbrs_replicate_nil n u : nbrs (replicate n []) u = [].
Proof.
  unfold nbrs. destruct (replicate n [] !! u) eqn:H; [|done].
  by apply lookup_replicate in H as [-> _].
Qed.

(** [adj[u]] lists exactly the other obstacles whose centre rows nearer than
    [NEAR_RADIUS]. *)
Lemma nbrs_build_adj_list obs u v :
  v ∈ nbrs (build_adj_list obs) u ↔ u ≠ v ∧ near_idx obs u v = true.
Proof.
  unfold build_adj_list. rewrite nbrs_rows by (by rewrite length_replicate).
  rewrite nbrs_replicate_nil, elem_of_nil, !elem_of_seq. split.
  - intros [[]|[(? & ? & ?)|(? & ? & ?)]]; [split; [lia|done]|].
    split; [lia|]. by rewrite near_idx_sym.
  - intros [Hne Hn]. apply near_idx_lt in Hn as Hlt.
    destruct (decide (u < v)); [right; left; naive_solver lia|].
    right; right. rewrite near_idx_sym. naive_solver lia.
Qed.

End Adjacency.

(** *** Depth-first search *)

Lemma unvisited_le_length vis : unvisited vis ≤ length vis.
Proof. induction vis as [|[] vis IH]; simpl; lia. Qed.

Lemma unvisited_mark vis v :
  vis !! v = Some false → S (unvisited (<[v := true]> vis)) = unvisited vis.
Proof.
  revert v. induction vis as [|b vis IH]; intros [|v] Hv; simplify_eq/=; [done|].
  rewrite <- (IH v Hv). lia.
Qed.

Lemma visit_neighbours_cons v ns vis st :
  visit_neighbours (v :: ns) vis st =
  match vis !! v with
  | Some false => visit_neighbours ns (<[v := true]> vis) (v :: st)
  | _ => visit_neighbours ns vis st
  end.
Proof. unfold visit_neighbours. simpl. by destruct (vis !! v) as [[]|]. Qed.

Lemma visit_neighbours_measure ns vis st :
  length (snd (visit_neighbours ns vis st)) + unvisited (fst (visit_neighbours ns vis st))
  = length st + unvisited vis.
Proof.
  revert vis st. induction ns as [|v ns IH]; intros vis st; [done|].
  rewrite visit_neighbours_cons. destruct (vis !! v) as [[]|] eqn:Hv; auto.
  rewrite IH. simpl. rewrite <- (unvisited_mark vis v Hv). lia.
Qed.

Lemma visit_neighbours_length ns vis st :
  length (fst (visit_neighbours ns vis st)) = length vis.
Proof.
  revert vis st. induction ns as [|v ns IH]; intros vis st; [done|].
  rewrite visit_neighbours_cons. destruct (vis !! v) as [[]|] eqn:Hv; auto.
  by rewrite IH, length_insert.
Qed.

(** What one sweep over [adj[u]] does: the unvisited neighbours, each once,
    are marked and pushed. *)
Lemma visit_neighbours_spec ns vis st :
  ∃ new,
    snd (visit_neighbours ns vis st) = new ++ st
    ∧ NoDup new
    ∧ (∀ v, v ∈ new ↔ v ∈ ns ∧ vis !! v = Some false)
    ∧ (∀ v, fst (visit_neighbours ns vis st) !! v = Some true
            ↔ vis !! v = Some true ∨ v ∈ new).
Proof.
  revert vis st. induction ns as [|a ns IH]; intros vis st.
  - exists []. split_and!; [done|constructor|..]; intros v; rewrite elem_of_nil; naive_solver.
  - rewrite visit_neighbours_cons. destruct (vis !! a) as [[]|] eqn:Ha.
    + destruct (IH vis st) as (new & Hst & Hnd & Hin & Hvis).
      exists new. split_and!; [done..| |done].
      intros v. rewrite Hin, elem_of_cons. naive_solver.
    + destruct (IH (<[a := true]> vis) (a :: st)) as (new & Hst & Hnd & Hin & Hvis).
      assert (Ha' : a < length vis) by (by eapply lookup_lt_Some).
      exists (new ++ [a]). split_and!.
      * rewrite Hst. by rewrite <- app_assoc.
      * apply NoDup_app. split_and!; [done| |apply NoDup_singleton].
        intros v Hv ->%list_elem_of_singleton. apply Hin in Hv as [_ Hv].
        rewrite list_lookup_insert_eq in Hv by done. done.
      * intros v. rewrite elem_of_app, list_elem_of_singleton, Hin, elem_of_cons.
        destruct (decide (v = a)) as [->|Hne]; [naive_solver|].
        rewrite list_lookup_insert_ne by done. naive_solver.
      * intros v. rewrite Hvis, elem_of_app, list_elem_of_singleton.
        destruct (decide (v = a)) as [->|Hne].
        -- rewrite list_lookup_insert_eq by done. naive_solver.
        -- rewrite list_lookup_insert_ne by done. naive_solver.
    + destruct (IH vis st) as (new & Hst & Hnd & Hin & Hvis).
      exists new. split_and!; [done..| |done].
      intros v. rewrite Hin, elem_of_cons. naive_solver.
Qed.

(** The search stops: each pop pays one unit of "stack height plus
    unvisited vertices". *)
Lemma dfs_loop_total fuel adj vis stack comp :
  length stack + unvisited vis ≤ fuel →
  is_Some (dfs_loop fuel adj vis stack comp).
Proof.
  revert vis stack comp. induction fuel as [|fuel IH]; intros vis stack comp Hm.
  - destruct stack; simpl in *; [eauto|lia].
  - destruct stack as [|u stack]; simpl; [eauto|].
    apply IH. rewrite visit_neighbours_measure. simpl in Hm. lia.
Qed.

Lemma dfs_loop_length fuel adj vis stack comp vis' comp' :
  dfs_loop fuel adj vis stack comp = Some (vis', comp') → length vis' = length vis.
Proof.
  revert vis stack comp. induction fuel as [|fuel IH]; intros vis stack comp.
  - destruct stack; simpl; [|done]. by intros [= <- _].
  - destruct stack as [|u stack]; simpl; [by intros [= <- _]|].
    intros H. apply IH in H. by rewrite H, visit_neighbours_length.
Qed.

Lemma dfs_loop_mono fuel adj vis stack comp vis' comp' v :
  dfs_loop fuel adj vis stack comp = Some (vis', comp') →
  vis !! v = Some true → vis' !! v = Some true.
Proof.
  revert vis stack comp. induction fuel as [|fuel IH]; intros vis stack comp.
  - destruct stack; simpl; [|done]. by intros [= <- _].
  - destruct stack as [|u stack]; simpl; [by intros [= <- _]|].
    intros H Hv. eapply IH; [exact H|].
    destruct (visit_neighbours_spec (default [] (adj !! u)) vis stack)
      as (new & _ & _ & _ & Hvis).
    apply Hvis. by left.
Qed.

Lemma components_from_total adj indices vis comps :
  length vis = length adj →
  is_Some (components_from (length adj) adj indices vis comps).
Proof.
  revert vis comps. induction indices as [|i indices IH]; intros vis comps Hlen.
  - simpl. eauto.
  - simpl. destruct (vis !! i) as [[]|] eqn:Hi; auto.
    destruct (dfs_loop_total (length adj) adj (<[i := true]> vis) [i] []) as [[vis' comp] Hd].
    { simpl. pose proof (unvisited_mark vis i Hi). pose proof (unvisited_le_length vis). lia. }
    rewrite Hd. apply IH. apply dfs_loop_length in Hd. by rewrite Hd, length_insert.
Qed.

Lemma connected_components_total adj : is_Some (connected_components adj).
Proof.
  apply components_from_total. by rewrite length_replicate.
Qed.

Lemma elem_of_concat {A} (x : A) (ls : list (list A)) :
  x ∈ concat ls ↔ ∃ l, x ∈ l ∧ l ∈ ls.
Proof.
  induction ls as [|l ls IH]; simpl.
  - rewrite elem_of_nil. split; [done|]. intros (l & _ & Hl). by apply elem_of_nil in Hl.
  - rewrite elem_of_app, IH. split.
    + intros [H|(l' & H1 & H2)]; [exists l|exists l']; rewrite elem_of_cons; auto.
    + intros (l' & H1 & [->|H2]%elem_of_cons); eauto.
Qed.

Section Search.
Context (adj : list (list nat)).
Context (Hsym : ∀ u v, edge adj u v → edge adj v u).
Context (Hrange : ∀ u v, edge adj u v → v < length adj).

Lemma reach_sym u v : rtc (edge adj) u v → rtc (edge adj) v u.
Proof.
  induction 1 as [|u w v Huw _ IH]; [done|].
  eapply rtc_trans; [apply IH|]. apply rtc_once. by apply Hsym.
Qed.

Lemma dfs_inv_step root comps vis u stack comp :
  Forall (closed adj) comps →
  dfs_inv adj root comps vis (u :: stack) comp →
  dfs_inv adj root comps
    (fst (visit_neighbours (nbrs adj u) vis stack))
    (snd (visit_neighbours (nbrs adj u) vis stack)) (comp ++ [u]).
Proof.
  intros Hcl [Hlen Hvis Hnd Hclo Hreach].
  destruct (visit_neighbours_spec (nbrs adj u) vis stack) as (new & -> & Hnew & Hin & Hvis').
  assert (Hfresh : ∀ v, v ∈ new → v ∉ (u :: stack) ++ comp ++ concat comps).
  { intros v [_ Hv]%Hin Hold%Hvis. congruence. }
  split.
  - by rewrite visit_neighbours_length.
  - intros v. rewrite Hvis', Hvis. rewrite !elem_of_app, elem_of_cons, list_elem_of_singleton.
    naive_solver.
  - assert (Hp : (new ++ stack) ++ (comp ++ [u]) ++ concat comps
                 ≡ₚ new ++ (u :: stack) ++ comp ++ concat comps).
    { rewrite <- !app_assoc. apply Permutation_app_head.
      simpl. rewrite !app_assoc. symmetry. apply Permutation_middle. }
    rewrite Hp. apply NoDup_app. split_and!; [done| |done].
    intros v Hv. by apply Hfresh.
  - intros w v [Hw| ->%list_elem_of_singleton]%elem_of_app Hwv.
    + destruct (Hclo w v Hw Hwv) as [?|[->|?]%elem_of_cons]; rewrite !elem_of_app, list_elem_of_singleton; auto.
    + assert (Hv : v < length adj) by eauto.
      rewrite <- Hlen in Hv. apply lookup_lt_is_Some_2 in Hv as [[] Hv].
      * apply Hvis in Hv. rewrite !elem_of_app, elem_of_cons in Hv.
        rewrite !elem_of_app, list_elem_of_singleton.
        destruct Hv as [[->|?]|[?|Hd]]; auto.
        exfalso. apply elem_of_concat in Hd as (c & Hvc & Hc).
        rewrite Forall_forall in Hcl.
        assert (Huc : u ∈ c) by (eapply (Hcl c Hc v u); eauto).
        apply NoDup_cons in Hnd as [Hnd _]. apply Hnd.
        rewrite !elem_of_app. right. right. apply elem_of_concat. eauto.
      * right. rewrite elem_of_app. left. apply Hin. done.
  - intros v. rewrite !elem_of_app, list_elem_of_singleton.
    intros [[Hv|?]|[? | ->]].
    + apply Hin in Hv as [Hv _]. eapply rtc_r; [|exact Hv].
      apply Hreach. rewrite elem_of_app, elem_of_cons. auto.
    + apply Hreach. rewrite elem_of_app, elem_of_cons. auto.
    + apply Hreach. rewrite elem_of_app. auto.
    + apply Hreach. rewrite elem_of_app, elem_of_cons. auto.
Qed.

Lemma dfs_loop_inv fuel root comps vis stack comp vis' comp' :
  Forall (closed adj) comps →
  dfs_inv adj root comps vis stack comp →
  dfs_loop fuel adj vis stack comp = Some (vis', comp') →
  dfs_inv adj root comps vis' [] comp'.
Proof.
  intros Hcl. revert vis stack comp.
  induction fuel as [|fuel IH]; intros vis stack comp Hinv.
  - destruct stack; simpl; [|done]. by intros [= <- <-].
  - destruct stack as [|u stack]; simpl; [by intros [= <- <-]|].
    apply IH. by apply dfs_inv_step.
Qed.

Lemma comps_inv_start vis comps i :
  comps_inv adj vis comps → vis !! i = Some false →
  dfs_inv adj i comps (<[i := true]> vis) [i] [].
Proof.
  intros [Hlen Hvis Hnd Hcl Hlk] Hi.
  assert (Hi' : i < length vis) by (by eapply lookup_lt_Some).
  split.
  - by rewrite length_insert.
  - intros v. simpl. rewrite elem_of_cons, <- Hvis.
    destruct (decide (v = i)) as [->|Hne].
    + rewrite list_lookup_insert_eq by done. naive_solver.
    + rewrite list_lookup_insert_ne by done. naive_solver.
  - simpl. apply NoDup_cons. split; [|done]. rewrite <- Hvis. congruence.
  - intros u v Hu. by apply elem_of_nil in Hu.
  - intros v. simpl. rewrite list_elem_of_singleton. by intros ->.
Qed.

Lemma comps_inv_finish root vis comps comp :
  comps_inv adj (replicate (length adj) false) [] ∨ True →
  Forall (closed adj) comps → Forall (linked adj) comps →
  dfs_inv adj root comps vis [] comp →
  comps_inv adj vis (comps ++ [comp]).
Proof.
  intros _ Hcl Hlk [Hlen Hvis Hnd Hclo Hreach]. simpl in *.
  assert (Hp : concat (comps ++ [comp]) ≡ₚ comp ++ concat comps).
  { rewrite concat_app. simpl. rewrite app_nil_r. apply Permutation_app_comm. }
  split.
  - done.
  - intros v. by rewrite Hvis, Hp.
  - by rewrite Hp.
  - apply Forall_app. split; [done|]. apply Forall_singleton.
    intros u v Hu Huv. destruct (Hclo u v Hu Huv) as [?|Hn]; [done|].
    by apply elem_of_nil in Hn.
  - apply Forall_app. split; [done|]. apply Forall_singleton.
    intros u v Hu Hv. eapply rtc_trans; [apply reach_sym|]; eauto.
Qed.

Lemma components_from_inv fuel indices vis comps res :
  comps_inv adj vis comps →
  components_from fuel adj indices vis comps = Some res →
  ∃ vis', comps_inv adj vis' res
          ∧ (∀ v, vis !! v = Some true → vis' !! v = Some true)
          ∧ (∀ i, i ∈ indices → i < length adj → vis' !! i = Some true).
Proof.
  revert vis comps. induction indices as [|i indices IH]; intros vis comps Hinv.
  - simpl. intros [= <-]. exists vis. split_and!; [done..|].
    intros i Hi. by apply elem_of_nil in Hi.
  - simpl. destruct (vis !! i) as [[]|] eqn:Hi.
    + intros H. destruct (IH _ _ Hinv H) as (vis' & Hinv' & Hmono & Hcov).
      exists vis'. split_and!; [done..|].
      intros j [->|Hj]%elem_of_cons ?; auto.
    + destruct (dfs_loop fuel adj (<[i := true]> vis) [i] []) as [[vis1 comp]|] eqn:Hd; [|done].
      intros H.
      pose proof (comps_inv_start vis comps i Hinv Hi) as Hs.
      pose proof Hd as Hd0.
      eapply dfs_loop_inv in Hd; [|apply Hinv|done].
      pose proof (comps_inv_finish i vis1 comps comp (or_intror I)
                    (cinv_closed _ _ _ Hinv) (cinv_linked _ _ _ Hinv) Hd) as Hf.
      destruct (IH _ _ Hf H) as (vis' & Hinv' & Hmono & Hcov).
      assert (Hi' : i < length vis) by (by eapply lookup_lt_Some).
      assert (Hm1 : ∀ v, vis !! v = Some true → vis1 !! v = Some true).
      { intros v Hv. eapply dfs_loop_mono; [exact Hd0|].
        destruct (decide (v = i)) as [->|Hne]; [congruence|].
        by rewrite list_lookup_insert_ne. }
      assert (Hi1 : vis1 !! i = Some true).
      { eapply dfs_loop_mono; [exact Hd0|]. by apply list_lookup_insert_eq. }
      exists vis'. split_and!; [done|auto|].
      intros j [->|Hj]%elem_of_cons ?; auto.
    + intros H. destruct (IH _ _ Hinv H) as (vis' & Hinv' & Hmono & Hcov).
      exists vis'. split_and!; [done..|].
      intros j [->|Hj]%elem_of_cons Hlt; auto.
      rewrite <- (cinv_length _ _ _ Hinv) in Hlt.
      apply lookup_lt_is_Some_2 in Hlt as [? ?]. congruence.
Qed.

End Search.

(** [connected_components] returns the connected components of a symmetric
    graph: a partition of the vertices into closed, linked classes. *)
Lemma connected_components_spec adj comps :
  (∀ u v, edge adj u v → edge adj v u) →
  (∀ u v, edge adj u v → v < length adj) →
  connected_components adj = Some comps →
  NoDup (concat comps)
  ∧ (∀ v, v ∈ concat comps ↔ v < length adj)
  ∧ Forall (closed adj) comps
  ∧ Forall (linked adj) comps.
Proof.
  intros Hsym Hrange Hc. unfold connected_components, connected_components_fuel in Hc.
  assert (H0 : comps_inv adj (replicate (length adj) false) []).
  { split; simpl.
    - by rewrite length_replicate.
    - intros v. rewrite elem_of_nil. split; [|done].
      intros [? _]%lookup_replicate. done.
    - constructor.
    - constructor.
    - constructor. }
  destruct (components_from_inv adj Hsym Hrange _ _ _ _ _ H0 Hc)
    as (vis' & [Hlen Hvis Hnd Hcl Hlk] & _ & Hcov).
  split_and!; [done| |done|done].
  intros v. rewrite <- Hvis. split.
  - intros Hv. rewrite <- Hlen. by eapply lookup_lt_Some.
  - intros Hv. apply Hcov; [|done]. apply elem_of_seq. lia.
Qed.

Lemma closed_reach adj c u v :
  closed adj c → u ∈ c → rtc (edge adj) u v → v ∈ c.
Proof.
  intros Hcl Hu Huv. induction Huv as [|u w v Huw _ IH]; [done|].
  apply IH. by eapply Hcl.
Qed.

Lemma NoDup_concat_elem {A} (ls : list (list A)) l :
  NoDup (concat ls) → l ∈ ls → NoDup l.
Proof.
  induction ls as [|l' ls IH]; simpl; intros Hnd Hl.
  - by apply elem_of_nil in Hl.
  - apply NoDup_app in Hnd as (H1 & _ & H2).
    apply elem_of_cons in Hl as [->|Hl]; auto.
Qed.

(** *** The stable sort by degree *)

Section Sorting.
Context (key : nat → nat).

Lemma insert_desc_perm x l : insert_desc key x l ≡ₚ x :: l.
Proof.
  induction l as [|y l IH]; simpl; [done|].
  destruct (key x <? key y)%nat; [|done].
  rewrite IH. apply Permutation_swap.
Qed.

Lemma sorted_desc_perm l : sorted_desc key l ≡ₚ l.
Proof.
  induction l as [|x l IH]; simpl; [done|].
  unfold sorted_desc in *. simpl. by rewrite insert_desc_perm, IH.
Qed.

Lemma insert_desc_sorted x l :
  StronglySorted (by_key_desc key) l → StronglySorted (by_key_desc key) (insert_desc key x l).
Proof.
  induction 1 as [|y l Hs IH Hall]; simpl.
  - repeat constructor.
  - destruct (key x <? key y)%nat eqn:Hlt.
    + apply Nat.ltb_lt in Hlt. constructor; [done|].
      rewrite insert_desc_perm. constructor; [unfold by_key_desc; lia|done].
    + apply Nat.ltb_ge in Hlt. constructor; [by constructor|].
      constructor; [done|].
      eapply Forall_impl; [exact Hall|]. unfold by_key_desc. intros; simpl in *; lia.
Qed.

Lemma sorted_desc_sorted l : StronglySorted (by_key_desc key) (sorted_desc key l).
Proof.
  induction l as [|x l IH]; [constructor|].
  unfold sorted_desc in *. simpl. by apply insert_desc_sorted.
Qed.

(** Everything cut off the front of the sorted list has a key at least as
    large as anything left behind. *)
Lemma sorted_desc_take_drop l k x y :
  x ∈ take k (sorted_desc key l) → y ∈ drop k (sorted_desc key l) → key y ≤ key x.
Proof.
  intros Hx Hy. pose proof (sorted_desc_sorted l) as Hs.
  rewrite <- (take_drop k (sorted_desc key l)) in Hs.
  by eapply (StronglySorted_app_1_elem_of (by_key_desc key)).
Qed.

End Sorting.

(** *** Marking and removal *)

Lemma elem_of_foldl_add (l : list nat) (acc : gset nat) r :
  r ∈ foldl (λ acc r, acc ∪ {[r]}) acc l ↔ r ∈ acc ∨ r ∈ l.
Proof.
  revert acc. induction l as [|x l IH]; intros acc; simpl.
  - rewrite elem_of_nil. tauto.
  - rewrite IH, elem_of_union, elem_of_singleton, elem_of_cons. tauto.
Qed.

Lemma elem_of_marked_from adj comps (acc : gset nat) r :
  r ∈ foldl (λ acc comp, foldl (λ acc r, acc ∪ {[r]}) acc (marked_of adj comp)) acc comps
  ↔ r ∈ acc ∨ ∃ c, c ∈ comps ∧ r ∈ marked_of adj c.
Proof.
  revert acc. induction comps as [|c comps IH]; intros acc; simpl.
  - split; [auto|]. intros [?|(c & Hc & _)]; [done|]. by apply elem_of_nil in Hc.
  - rewrite IH, elem_of_foldl_add. split.
    + intros [[?|?]|(c' & Hc' & ?)]; auto.
      * right. exists c. split; [apply elem_of_cons; auto|done].
      * right. exists c'. split; [apply elem_of_cons; auto|done].
    + intros [?|(c' & [->|Hc']%elem_of_cons & ?)]; eauto.
Qed.

Lemma elem_of_to_remove_indices adj comps r :
  r ∈ to_remove_indices adj comps ↔ ∃ c, c ∈ comps ∧ r ∈ marked_of adj c.
Proof.
  unfold to_remove_indices. rewrite elem_of_marked_from.
  split; [intros [H|H]; [by apply elem_of_empty in H|done]|auto].
Qed.

Lemma elem_of_kept_indices marked idx obs i :
  i ∈ kept_indices marked idx obs ↔ idx ≤ i < idx + length obs ∧ i ∉ marked.
Proof.
  revert idx. induction obs as [|o obs IH]; intros idx; simpl.
  - rewrite elem_of_nil. lia.
  - destruct (decide (idx ∈ marked)) as [Hm|Hm].
    + rewrite IH. split; [intros [? ?]; split; [lia|done]|].
      intros [? ?]. split; [|done]. destruct (decide (i = idx)) as [->|]; [done|lia].
    + rewrite elem_of_cons, IH. split.
      * intros [->|[? ?]]; split; auto; lia.
      * intros [? ?]. destruct (decide (i = idx)); [auto|right; split; [lia|done]].
Qed.

Lemma NoDup_kept_indices marked idx obs : NoDup (kept_indices marked idx obs).
Proof.
  revert idx. induction obs as [|o obs IH]; intros idx; simpl; [constructor|].
  destruct (decide (idx ∈ marked)); [done|].
  apply NoDup_cons. split; [|done]. rewrite elem_of_kept_indices. lia.
Qed.

Lemma keep_unmarked_lookup marked idx obs k :
  keep_unmarked marked idx obs !! k
  = kept_indices marked idx obs !! k ≫= λ i, obs !! (i - idx).
Proof.
  revert idx k. induction obs as [|o obs IH]; intros idx k; simpl; [done|].
  destruct (decide (idx ∈ marked)) as [Hm|Hm].
  - rewrite IH. destruct (kept_indices marked (S idx) obs !! k) as [i|] eqn:Hi; [|done].
    simpl. assert (S idx ≤ i).
    { apply list_elem_of_lookup_2, elem_of_kept_indices in Hi. lia. }
    replace (i - idx) with (S (i - S idx)) by lia. done.
  - destruct k as [|k]; simpl.
    + by rewrite Nat.sub_diag.
    + rewrite IH. destruct (kept_indices marked (S idx) obs !! k) as [i|] eqn:Hi; [|done].
      simpl. assert (S idx ≤ i).
      { apply list_elem_of_lookup_2, elem_of_kept_indices in Hi. lia. }
      replace (i - idx) with (S (i - S idx)) by lia. done.
Qed.

Lemma length_keep_unmarked marked idx obs :
  length (keep_unmarked marked idx obs) = length (kept_indices marked idx obs).
Proof.
  revert idx. induction obs as [|o obs IH]; intros idx; simpl; [done|].
  destruct (decide (idx ∈ marked)); simpl; auto.
Qed.

Lemma keep_unmarked_empty idx obs : keep_unmarked ∅ idx obs = obs.
Proof.
  revert idx. induction obs as [|o obs IH]; intros idx; simpl; [done|].
  destruct (decide (idx ∈ (∅ : gset nat))) as [H|_]; [by apply elem_of_empty in H|].
  by rewrite IH.
Qed.

(** A result index and the index it had before the removal. *)
Lemma keep_unmarked_origin marked obs k o :
  keep_unmarked marked 0 obs !! k = Some o →
  ∃ i, kept_indices marked 0 obs !! k = Some i ∧ obs !! i = Some o ∧ i ∉ marked.
Proof.
  rewrite keep_unmarked_lookup.
  destruct (kept_indices marked 0 obs !! k) as [i|] eqn:Hi; [|done]. simpl.
  rewrite Nat.sub_0_r. intros Ho. exists i. split_and!; [done..|].
  by apply list_elem_of_lookup_2, elem_of_kept_indices in Hi as [_ ?].
Qed.

(** *** The pruned list *)

Lemma edge_build_adj_list obs u v :
  edge (build_adj_list obs) u v ↔ adjacent obs u v.
Proof. apply nbrs_build_adj_list. Qed.

Lemma edge_build_sym obs u v :
  edge (build_adj_list obs) u v → edge (build_adj_list obs) v u.
Proof.
  rewrite !edge_build_adj_list. intros [? ?]. split; [done|]. by rewrite near_idx_sym.
Qed.

Lemma edge_build_range obs u v :
  edge (build_adj_list obs) u v → v < length (build_adj_list obs).
Proof.
  rewrite edge_build_adj_list, length_build_adj_list.
  intros [_ H]. by apply near_idx_lt in H as [_ ?].
Qed.

(** What is left of one component after its marked members are gone. *)
Lemma unmarked_of_comp adj c x :
  NoDup c → x ∈ c → x ∉ marked_of adj c →
  x ∈ drop (length c - MAX_NEARBY_OBSTACLES) (sorted_desc (degree adj) c)
  ∨ (length c ≤ MAX_NEARBY_OBSTACLES).
Proof.
  intros Hnd Hx Hm. unfold marked_of in Hm.
  destruct (MAX_NEARBY_OBSTACLES <? length c)%nat eqn:Hlt.
  - left. rewrite <- (sorted_desc_perm (degree adj) c) in Hx.
    rewrite <- (take_drop (length c - MAX_NEARBY_OBSTACLES)) in Hx.
    apply elem_of_app in Hx as [?|?]; done.
  - right. by apply Nat.ltb_ge in Hlt.
Qed.

Lemma unmarked_bound adj c (l : list nat) :
  NoDup c → NoDup l →
  (∀ x, x ∈ l → x ∈ c ∧ x ∉ marked_of adj c) →
  length l ≤ MAX_NEARBY_OBSTACLES.
Proof.
  intros Hc Hl Hin.
  destruct (decide (length c ≤ MAX_NEARBY_OBSTACLES)) as [Hle|Hgt].
  - transitivity (length c); [|done].
    apply submseteq_length, NoDup_submseteq; [done|]. intros x Hx. by apply Hin.
  - transitivity (length (drop (length c - MAX_NEARBY_OBSTACLES)
                               (sorted_desc (degree adj) c))).
    + apply submseteq_length, NoDup_submseteq; [done|]. intros x Hx.
      destruct (Hin x Hx) as [H1 H2].
      destruct (unmarked_of_comp adj c x Hc H1 H2); [done|lia].
    + rewrite length_drop, (Permutation_length (sorted_desc_perm _ c)). lia.
Qed.

Section Pruned.
Context (obs : list Obstacle) (comps : list (list nat)).
Let adj := build_adj_list obs.
Let marked := to_remove_indices adj comps.
Let res := keep_unmarked marked 0 obs.
Let kept := kept_indices marked 0 obs.
Context (Hcomps : connected_components adj = Some comps).

Lemma res_adjacent k1 k2 i1 :
  adjacent res k1 k2 → kept !! k1 = Some i1 →
  ∃ i2, kept !! k2 = Some i2 ∧ edge adj i1 i2.
Proof.
  intros [Hne Hn] Hk1. unfold near_idx in Hn.
  destruct (res !! k1) as [a|] eqn:Ha; [|done].
  destruct (res !! k2) as [b|] eqn:Hb; [|done].
  apply keep_unmarked_origin in Ha as (j1 & Hj1 & Hoa & _).
  apply keep_unmarked_origin in Hb as (i2 & Hi2 & Hob & _).
  fold kept in Hj1, Hi2. assert (j1 = i1) as -> by congruence.
  exists i2. split; [done|]. apply edge_build_adj_list. split.
  - intros ->. apply Hne.
    eapply NoDup_lookup; [apply (NoDup_kept_indices marked 0 obs)|done..].
  - unfold near_idx. by rewrite Hoa, Hob.
Qed.

Lemma res_reach k1 k2 i1 :
  rtc (adjacent res) k1 k2 → kept !! k1 = Some i1 →
  ∃ i2, kept !! k2 = Some i2 ∧ rtc (edge adj) i1 i2.
Proof.
  intros H. revert i1. induction H as [k|k1 k2 k3 H12 _ IH]; intros i1 Hk1.
  - exists i1. split; [done|apply rtc_refl].
  - destruct (res_adjacent _ _ _ H12 Hk1) as (i2 & Hk2 & He).
    destruct (IH _ Hk2) as (i3 & Hk3 & Hr).
    exists i3. split; [done|]. by eapply rtc_l.
Qed.

Lemma pruned_clusters_bounded : clusters_bounded res.
Proof.
  destruct (connected_components_spec adj comps
              (edge_build_sym obs) (edge_build_range obs) Hcomps)
    as (Hnd & Hcov & Hcl & Hlk).
  intros cluster Hcnd Hrange Hconn.
  destruct cluster as [|k0 cluster']; [simpl; lia|].
  set (cluster := k0 :: cluster') in *.
  assert (Hlookup : ∀ k, k ∈ cluster → is_Some (kept !! k)).
  { intros k Hk. apply lookup_lt_is_Some. unfold kept.
    rewrite <- length_keep_unmarked. by apply Hrange. }
  destruct (Hlookup k0) as [i0 Hi0]; [apply elem_of_cons; auto|].
  assert (Hi0n : i0 < length adj).
  { apply list_elem_of_lookup_2, elem_of_kept_indices in Hi0.
    unfold adj. rewrite length_build_adj_list. lia. }
  apply Hcov, elem_of_concat in Hi0n as (c & Hi0c & Hc).
  rewrite Forall_forall in Hcl.
  set (f := λ k, default 0 (kept !! k)).
  assert (Hf : ∀ k, k ∈ cluster → kept !! k = Some (f k)).
  { intros k Hk. unfold f. by destruct (Hlookup k Hk) as [i ->]. }
  rewrite <- (length_fmap f cluster).
  apply (unmarked_bound adj c).
  - by eapply NoDup_concat_elem.
  - apply NoDup_fmap_2_strong; [|done].
    intros k1 k2 Hk1 Hk2 Heq.
    eapply NoDup_lookup; [apply (NoDup_kept_indices marked 0 obs)| |].
    + by apply Hf.
    + fold kept. rewrite Heq. by apply Hf.
  - intros i (k & -> & Hk)%list_elem_of_fmap.
    destruct (res_reach k0 k i0) as (i & Hi & Hr).
    { apply Hconn; [apply elem_of_cons; auto|done]. }
    { done. }
    rewrite (Hf k Hk) in Hi. injection Hi as <-.
    split.
    + eapply closed_reach; [by apply Hcl|exact Hi0c|done].
    + intros Hm. pose proof (Hf k Hk) as Hk'.
      apply list_elem_of_lookup_2, elem_of_kept_indices in Hk' as [_ Hk'].
      apply Hk'. apply elem_of_to_remove_indices. eauto.
Qed.

End Pruned.

Lemma prune_clusters_some obs :
  ∃ comps, connected_components (build_adj_list obs) = Some comps
           ∧ prune_clusters obs
             = Some (keep_unmarked (to_remove_indices (build_adj_list obs) comps) 0 obs).
Proof.
  destruct (connected_components_total (build_adj_list obs)) as [comps Hc].
  exists comps. split; [done|]. unfold prune_clusters. rewrite Hc.
  destruct (decide _) as [->|]; [|done]. by rewrite keep_unmarked_empty.
Qed.

Lemma prune_clusters_bounded obs :
  ∃ res, prune_clusters obs = Some res ∧ clusters_bounded res.
Proof.
  destruct (prune_clusters_some obs) as (comps & Hc & Hp).
  eexists. split; [exact Hp|]. by apply pruned_clusters_bounded.
Qed.

Lemma concat_class_unique {A} (ls : list (list A)) l1 l2 x :
  NoDup (concat ls) → l1 ∈ ls → l2 ∈ ls → x ∈ l1 → x ∈ l2 → l1 = l2.
Proof.
  induction ls as [|l ls IH]; simpl; intros Hnd H1 H2 Hx1 Hx2.
  - by apply elem_of_nil in H1.
  - apply NoDup_app in Hnd as (_ & Hdis & Hnd).
    apply elem_of_cons in H1 as [->|H1]; apply elem_of_cons in H2 as [->|H2]; auto.
    + exfalso. apply (Hdis x Hx1). apply elem_of_concat. eauto.
    + exfalso. apply (Hdis x Hx2). apply elem_of_concat. eauto.
Qed.

Lemma marked_of_subset adj c x : x ∈ marked_of adj c → x ∈ c.
Proof.
  unfold marked_of. destruct (_ <? _)%nat; [|by intros ?%elem_of_nil].
  intros Hx%subseteq_take. by rewrite sorted_desc_perm in Hx.
Qed.

Lemma to_remove_prunes_by_degree adj comps c :
  NoDup (concat comps) → c ∈ comps →
  prunes_by_degree adj (to_remove_indices adj comps) c.
Proof.
  intros Hnd Hc. set (marked := to_remove_indices adj comps).
  assert (Hcnd : NoDup c) by (by eapply NoDup_concat_elem).
  assert (Hm : ∀ x, x ∈ c → x ∈ marked ↔ x ∈ marked_of adj c).
  { intros x Hx. unfold marked. rewrite elem_of_to_remove_indices. split; [|eauto].
    intros (c' & Hc' & Hx'). pose proof (marked_of_subset _ _ _ Hx') as Hxc'.
    by rewrite (concat_class_unique comps c c' x). }
  pose proof (sorted_desc_perm (degree adj) c) as Hperm.
  assert (Hsnd : NoDup (sorted_desc (degree adj) c)) by (by rewrite Hperm).
  rewrite <- (take_drop (length c - MAX_NEARBY_OBSTACLES)) in Hsnd.
  apply NoDup_app in Hsnd as (_ & Hdis & Hdnd).
  split.
  - destruct (MAX_NEARBY_OBSTACLES <? length c)%nat eqn:Hlt.
    + apply Nat.ltb_lt in Hlt.
      transitivity (length (drop (length c - MAX_NEARBY_OBSTACLES)
                                 (sorted_desc (degree adj) c))).
      * apply Permutation_length, NoDup_Permutation; [by apply NoDup_filter|done|].
        intros x. rewrite list_elem_of_filter. split.
        -- intros [Hx Hxc]. rewrite Hm in Hx by done.
           destruct (unmarked_of_comp adj c x Hcnd Hxc Hx); [done|lia].
        -- intros Hx. assert (Hxc : x ∈ c).
           { rewrite <- Hperm. by eapply subseteq_drop. }
           split; [|done]. rewrite Hm by done. unfold marked_of.
           apply Nat.ltb_lt in Hlt. rewrite Hlt. intros Ht. by apply (Hdis x).
      * rewrite length_drop, (Permutation_length Hperm). lia.
    + apply Nat.ltb_ge in Hlt. rewrite Nat.min_l by done.
      apply Permutation_length, NoDup_Permutation; [by apply NoDup_filter|done|].
      intros x. rewrite list_elem_of_filter. split; [by intros [_ ?]|].
      intros Hx. split; [|done]. rewrite Hm by done. unfold marked_of.
      apply Nat.ltb_ge in Hlt. rewrite Hlt. by intros ?%elem_of_nil.
  - intros r k Hr Hk Hrm Hkm. rewrite Hm in Hrm, Hkm by done.
    destruct (unmarked_of_comp adj c k Hcnd Hk Hkm) as [Hkd|Hle].
    + unfold marked_of in Hrm. destruct (_ <? _)%nat; [|by apply elem_of_nil in Hrm].
      by eapply (sorted_desc_take_drop (degree adj)).
    + unfold marked_of in Hrm. apply Nat.ltb_ge in Hle. rewrite Hle in Hrm.
      by apply elem_of_nil in Hrm.
Qed.

(** [generate_obstacles] ends with the pruning pass. *)
Lemma generate_obstacles_prune count g :
  ∃ placed, fst (generate_obstacles count g) = prune_clusters placed.
Proof.
  unfold generate_obstacles, bind, ret.
  repeat match goal with
         | |- context [let '(_, _) := ?x in _] => destruct x
         end.
  eexists. reflexivity.
Qed.

Lemma reach_build_adj_list obs u v :
  rtc (edge (build_adj_list obs)) u v → rtc (adjacent obs) u v.
Proof.
  induction 1 as [|u w v Huw _ IH]; [apply rtc_refl|].
  eapply rtc_l; [|exact IH]. by apply edge_build_adj_list.
Qed.

Lemma generate_obstacles_place count g :
  generate_obstacles count g
  = (prune_clusters (fst (place_obstacles count g)), snd (place_obstacles count g)).
Proof.
  unfold generate_obstacles, place_obstacles, bind, ret.
  repeat match goal with
         | |- context [let '(_, _) := ?x in _] => destruct x
         end.
  reflexivity.
Qed.

(** C1: whatever the random choices, the list returned by
    [generate_obstacles] has no connected cluster (edges between obstacles
    whose centres are nearer than [NEAR_RADIUS]) of more than
    [MAX_NEARBY_OBSTACLES] members.  It is obtained from [placed], the
    list the two placement loops produce, as the post-process does it:
    the connected components of [placed] are computed, and from each
    oversized one the highest-degree members are removed until
    [MAX_NEARBY_OBSTACLES] are left; the smaller ones are kept whole. *)
Theorem generate_obstacles_clusters_bounded (count : Z) (g : Rng) :
  ∃ placed comps res,
    placed = fst (place_obstacles count g)
    ∧ generate_obstacles count g = (Some res, snd (place_obstacles count g))
    ∧ connected_components (build_adj_list placed) = Some comps
    ∧ NoDup (concat comps)
    ∧ (∀ v, v ∈ concat comps ↔ v < length placed)
    ∧ Forall (is_component placed) comps
    ∧ res = keep_unmarked (to_remove_indices (build_adj_list placed) comps) 0 placed
    ∧ Forall (prunes_by_degree (build_adj_list placed)
                (to_remove_indices (build_adj_list placed) comps)) comps
    ∧ clusters_bounded res.
Proof.
  pose proof (generate_obstacles_place count g) as Hg.
  set (placed := fst (place_obstacles count g)) in *.
  destruct (prune_clusters_some placed) as (comps & Hc & Hp).
  destruct (connected_components_spec _ comps
              (edge_build_sym placed) (edge_build_range placed) Hc)
    as (Hnd & Hcov & Hcl & Hlk).
  exists placed, comps. eexists. split_and!.
  - reflexivity.
  - rewrite Hg, Hp. reflexivity.
  - exact Hc.
  - exact Hnd.
  - intros v. rewrite Hcov. by rewrite length_build_adj_list.
  - rewrite Forall_forall in Hcl, Hlk. apply Forall_forall. intros c Hcin. split.
    + intros u v Hu Huv. eapply (Hcl c Hcin); [done|]. by apply edge_build_adj_list.
    + intros u v Hu Hv. apply reach_build_adj_list. by apply (Hlk c Hcin).
  - reflexivity.
  - apply Forall_forall. intros c Hcin. by apply to_remove_prunes_by_degree.
  - by apply pruned_clusters_bounded.
Qed.

(** A run in which the post-process has work to do: three obstacles are
    placed in one component, the middle one has degree 2 and the others
    degree 1, and the middle one is removed. *)
Lemma generate_obstacles_clusters_bounded_witness :
  ∃ placed comps res,
    placed = fst (place_obstacles 3 rng_chain)
    ∧ map rect placed = [mkRect 0 333 40 40; mkRect 0 433 40 40; mkRect 0 533 40 40]
    ∧ connected_components (build_adj_list placed) = Some comps
    ∧ comps = [[0; 1; 2]]
    ∧ map (degree (build_adj_list placed)) [0; 1; 2] = [1; 2; 1]
    ∧ fst (generate_obstacles 3 rng_chain) = Some res
    ∧ map rect res = [mkRect 0 333 40 40; mkRect 0 533 40 40]
    ∧ clusters_bounded res.
Proof.
  destruct (generate_obstacles_clusters_bounded 3 rng_chain)
    as (placed & comps & res & Hpl & Hg & Hc & _ & _ & _ & Hres & _ & Hb).
  exists placed, comps, res.
  assert (Hcomps : comps = [[0; 1; 2]]).
  { rewrite Hpl in Hc. vm_compute in Hc. by injection Hc as <-. }
  assert (Hfst : fst (generate_obstacles 3 rng_chain) = Some res) by (by rewrite Hg).
  assert (Hrect : map rect res = [mkRect 0 333 40 40; mkRect 0 533 40 40]).
  { vm_compute in Hfst. injection Hfst as <-. reflexivity. }
  split; [exact Hpl|]. split; [rewrite Hpl; vm_compute; reflexivity|].
  split; [exact Hc|]. split; [exact Hcomps|].
  split; [rewrite Hpl; vm_compute; reflexivity|].
  split; [exact Hfst|]. split; [exact Hrect|exact Hb].
Defined.

Section Spacing.
Local Open Scope Z_scope.

Lemma separated_sym a b : separated a b → separated b a.
Proof. unfold separated. tauto. Qed.

Lemma colliderect_inflate_separated a b :
  0 < rw a → 0 < rh a → 0 < rw b → 0 < rh b →
  colliderect (inflate a (OBSTACLE_SAFETY_MARGIN * 2) (OBSTACLE_SAFETY_MARGIN * 2)) b = false
  ↔ separated a b.
Proof.
  intros. unfold colliderect, inflate, separated, right, left, bottom, top,
    OBSTACLE_SAFETY_MARGIN. simpl.
  change (Z.quot (8 * 2) 2) with 8.
  destruct (rw a + 8 * 2 =? 0) eqn:E1; [lia|].
  destruct (rh a + 8 * 2 =? 0) eqn:E2; [lia|].
  destruct (rw b =? 0) eqn:E3; [lia|].
  destruct (rh b =? 0) eqn:E4; [lia|]. simpl.
  rewrite !andb_false_iff, !Z.ltb_ge. lia.
Qed.

Lemma pairwise_snoc {A} (R : A → A → Prop) l x :
  pairwise R (l ++ [x]) ↔ pairwise R l ∧ Forall (λ a, R a x) l.
Proof.
  induction l as [|a l IH]; simpl.
  - split; [intros; split; [done|constructor]|intros; split; [constructor|done]].
  - rewrite IH, Forall_app, Forall_singleton, Forall_cons. tauto.
Qed.

Lemma pairwise_sublist {A} (R : A → A → Prop) l k :
  l `sublist_of` k → pairwise R k → pairwise R l.
Proof.
  induction 1 as [|x l k Hs IH|x l k Hs IH]; simpl; [done| |].
  - intros [Hall Hp]. split; [|auto]. rewrite Forall_forall in *.
    intros y Hy. apply Hall. by eapply elem_of_sublist.
  - intros [_ Hp]. auto.
Qed.

Lemma pairwise_lookup {A} (R : A → A → Prop) l i j a b :
  (∀ x y, R x y → R y x) →
  pairwise R l → i ≠ j → l !! i = Some a → l !! j = Some b → R a b.
Proof.
  intros Hsym. revert i j. induction l as [|x l IH]; intros i j Hp Hne Hi Hj; [done|].
  destruct Hp as [Hall Hp]. rewrite Forall_forall in Hall.
  destruct i as [|i], j as [|j]; simplify_eq/=.
  - apply Hall. by eapply list_elem_of_lookup_2.
  - apply Hsym, Hall. by eapply list_elem_of_lookup_2.
  - eapply (IH i j); eauto.
Qed.

Lemma overlapped_false r obs :
  40 <= rw r → 40 <= rh r → Forall sized obs →
  overlapped r obs = false →
  Forall (λ a, separated (rect a) r) obs.
Proof.
  intros Hw Hh Hs Ho. unfold overlapped in Ho.
  induction Hs as [|o obs [Ho1 Ho2] Hs IH]; [constructor|].
  simpl in Ho. apply orb_false_iff in Ho as [Hc Ho]. constructor; [|auto].
  apply separated_sym. apply colliderect_inflate_separated; [lia..|done].
Qed.

Lemma well_spaced_snoc obs r k :
  40 <= rw r → 40 <= rh r → well_spaced obs → overlapped r obs = false →
  well_spaced (obs ++ [mkObstacle r k]).
Proof.
  intros Hw Hh [Hs Hp] Ho. split.
  - apply Forall_app. split; [done|]. apply Forall_singleton. by split.
  - apply pairwise_snoc. split; [done|]. by apply overlapped_false.
Qed.

Lemma randint_bounds a b g : a <= b → a <= fst (randint a b g) <= b.
Proof.
  intros Hab. unfold randint, randbelow, bind, ret, next_raw. simpl.
  pose proof (Z.mod_pos_bound (entropy g (cursor g)) (b - a + 1)). lia.
Qed.

End Spacing.

Section PlacementSpacing.
Local Open Scope Z_scope.

Ltac draw_sized H :=
  match goal with
  | |- context [bind (randint ?a ?b) _ ?g] =>
      unfold bind at 1;
      pose proof (randint_bounds a b g ltac:(lia)) as H;
      destruct (randint a b g) as [? ?]; simpl in H
  end.

Ltac draw :=
  match goal with
  | |- context [bind ?m _ ?g] => unfold bind at 1; destruct (m g) as [? ?]
  end.

Lemma place_candidates_spaced count max_tries candidates obs tries g :
  well_spaced obs →
  well_spaced (fst (place_candidates count max_tries candidates obs tries g)).
Proof.
  revert obs tries g.
  induction candidates as [|[cx cy] rest IH]; intros obs tries g Hobs; simpl; [done|].
  destruct (_ || _); [done|].
  draw_sized Hw. draw_sized Hh. draw. draw.
  destruct (colliderect _ center_area); [by apply IH|].
  destruct (overlapped _ obs) eqn:Hov; [by apply IH|].
  match goal with |- context [if ?c then _ else _] => destruct c end; [by apply IH|].
  draw. apply IH. apply well_spaced_snoc; simpl; [lia|lia|done|done].
Qed.

Lemma place_random_spaced budget count obs g :
  well_spaced obs → well_spaced (fst (place_random budget count obs g)).
Proof.
  revert obs g. induction budget as [|budget IH]; intros obs g Hobs; simpl; [done|].
  destruct (_ <=? _); [done|].
  draw_sized Hw. draw_sized Hh. draw. draw.
  destruct (colliderect _ center_area); [by apply IH|].
  destruct (overlapped _ obs) eqn:Hov; [by apply IH|].
  match goal with |- context [if ?c then _ else _] => destruct c end; [by apply IH|].
  draw. apply IH. apply well_spaced_snoc; simpl; [lia|lia|done|done].
Qed.

Lemma keep_unmarked_sublist marked idx obs :
  keep_unmarked marked idx obs `sublist_of` obs.
Proof.
  revert idx. induction obs as [|o obs IH]; intros idx; simpl; [constructor|].
  destruct (decide _); [by apply sublist_cons|by apply sublist_skip].
Qed.

Lemma prune_clusters_sublist obs res :
  prune_clusters obs = Some res → res `sublist_of` obs.
Proof.
  unfold prune_clusters. destruct (connected_components _); [|done].
  intros [= <-]. destruct (decide _); [done|apply keep_unmarked_sublist].
Qed.

Lemma well_spaced_sublist l k : l `sublist_of` k → well_spaced k → well_spaced l.
Proof.
  intros Hs [H1 H2]. split; [|by eapply pairwise_sublist].
  rewrite Forall_forall in *. intros x Hx. apply H1. by eapply elem_of_sublist.
Qed.

Lemma generate_obstacles_spaced count g res :
  fst (generate_obstacles count g) = Some res → well_spaced res.
Proof.
  unfold generate_obstacles. unfold bind at 1. destruct (grid_candidates g) as [c1 g1].
  unfold bind at 1. destruct (shuffle c1 g1) as [c2 g2].
  unfold bind at 1.
  pose proof (place_candidates_spaced count (Z.of_nat (length c2) * 6) c2 [] 0 g2) as H1.
  destruct (place_candidates _ _ c2 [] 0 g2) as [obs1 g3]. simpl in H1.
  unfold bind at 1.
  pose proof (place_random_spaced (Z.to_nat (count * 12)) count obs1 g3) as H2.
  destruct (place_random _ count obs1 g3) as [obs2 g4]. simpl in *.
  intros Hp%prune_clusters_sublist. eapply well_spaced_sublist; [done|].
  apply H2, H1. split; constructor.
Qed.

End PlacementSpacing.

(** C2 (as amended): any two distinct obstacles of the returned list are
    separated by a gap of at least [OBSTACLE_SAFETY_MARGIN] along the x or
    the y axis; equivalently, either one inflated by the margin on every
    side (the rectangle the placement test builds) does not collide with
    the other one as it is. *)
Theorem generate_obstacles_margin (count : Z) (g : Rng) (res : list Obstacle)
    (i j : nat) (a b : Obstacle) :
  fst (generate_obstacles count g) = Some res →
  i ≠ j → res !! i = Some a → res !! j = Some b →
  separated (rect a) (rect b)
  ∧ colliderect (inflate (rect a) (OBSTACLE_SAFETY_MARGIN * 2)
                   (OBSTACLE_SAFETY_MARGIN * 2)) (rect b) = false.
Proof.
  intros Hg Hne Ha Hb. destruct (generate_obstacles_spaced _ _ _ Hg) as [Hs Hp].
  assert (Hsep : separated (rect a) (rect b)).
  { eapply (pairwise_lookup (λ a b, separated (rect a) (rect b))); eauto.
    intros x y. apply separated_sym. }
  split; [done|]. rewrite Forall_forall in Hs.
  destruct (Hs a) as [? ?]; [by eapply list_elem_of_lookup_2|].
  destruct (Hs b) as [? ?]; [by eapply list_elem_of_lookup_2|].
  apply colliderect_inflate_separated; [lia..|done].
Qed.

Lemma generate_obstacles_margin_witness :
  separated (mkRect 0 233 40 90) (mkRect 0 333 40 40)
  ∧ colliderect (inflate (mkRect 0 233 40 90) (OBSTACLE_SAFETY_MARGIN * 2)
                   (OBSTACLE_SAFETY_MARGIN * 2)) (mkRect 0 333 40 40) = false.
Proof.
  apply (generate_obstacles_margin 2 rng_c2
           [mkObstacle (mkRect 0 233 40 90) tree; mkObstacle (mkRect 0 333 40 40) tree]
           0 1 (mkObstacle (mkRect 0 233 40 90) tree)
           (mkObstacle (mkRect 0 333 40 40) tree)).
  - vm_compute. reflexivity.
  - lia.
  - reflexivity.
  - reflexivity.
Defined.

(** C2 as stated fails: with both rectangles inflated by the margin, the
    first two obstacles of this run overlap (they are 10 apart). *)
Lemma generate_obstacles_margin_counterexample :
  ∃ res a b,
    fst (generate_obstacles OBSTACLE_COUNT rng_c2) = Some res
    ∧ res !! 0%nat = Some a ∧ res !! 1%nat = Some b
    ∧ rect a = mkRect 0 233 40 90 ∧ rect b = mkRect 0 333 40 40
    ∧ colliderect
        (inflate (rect a) (OBSTACLE_SAFETY_MARGIN * 2) (OBSTACLE_SAFETY_MARGIN * 2))
        (inflate (rect b) (OBSTACLE_SAFETY_MARGIN * 2) (OBSTACLE_SAFETY_MARGIN * 2))
      = true.
Proof.
  eexists _, _, _. split; [vm_compute; reflexivity|].
  split_and!; reflexivity.
Qed.

Section RealTests.
Local Open Scope R_scope.

Lemma Rleb_true a b : Rleb a b = true ↔ a <= b.
Proof. unfold Rleb. destruct (Rle_dec a b); split; auto; discriminate. Qed.

Lemma Rleb_false a b : Rleb a b = false ↔ b < a.
Proof. unfold Rleb. destruct (Rle_dec a b); split; try discriminate; try lra; auto. Qed.

Lemma Rltb_true a b : Rltb a b = true ↔ a < b.
Proof. unfold Rltb. destruct (Rlt_dec a b); split; auto; discriminate. Qed.

Lemma Rltb_false a b : Rltb a b = false ↔ b <= a.
Proof. unfold Rltb. destruct (Rlt_dec a b); split; try discriminate; try lra; auto. Qed.

Lemma clamp_below v a b : v <= a → a <= b → clamp v a b = a.
Proof.
  intros. unfold clamp, Rmax, Rmin.
  destruct (Rle_dec b v); destruct (Rle_dec a _); lra.
Qed.


End RealTests.

(** Evaluation of the integer and rational parts of a real expression. *)
Ltac eval_IZR :=
  repeat match goal with
  | |- context [IZR ?z] =>
      progress (let z' := eval vm_compute in z in change (IZR z) with (IZR z'))
  end.

Ltac eval_Q2R v :=
  repeat match goal with
  | |- context [Q2R ?q] =>
      progress (replace (Q2R q) with v
        by (symmetry; transitivity (Q2R (Qred q));
            [apply Qeq_eqR; symmetry; apply Qred_correct
            |vm_compute Qred; unfold Q2R; simpl; lra]))
  end.

Section SpawnerProofs.



Ltac draw :=
  match goal with
  | |- context [bind ?m _ ?g] => unfold bind at 1; destruct (m g) as [? ?]
  end.

Lemma fallback_position_some n g :
  ∃ x y g', fallback_position n g = (Some (mkSpawnPos x y true n), g').
Proof. unfold fallback_position. draw. draw. unfold ret. eauto. Qed.


(** The loop ends within [501 - tries] iterations. *)
Lemma spawn_position_total fuel px py obstacles tries iters g :
  (0 <= tries <= 500)%Z → Z.to_nat (501 - tries) ≤ fuel →
  ∃ pos, fst (spawn_position fuel px py obstacles tries iters g) = Some pos
         ∧ iters < sp_iterations pos ≤ iters + Z.to_nat (501 - tries).
Proof.
  revert tries iters g. induction fuel as [|fuel IH]; intros tries iters g Ht Hf; [lia|].
  simpl. draw.
  match goal with |- context [Rltb ?d 300] => destruct (Rltb d 300) end.
  - destruct (300 <? tries + 1)%Z eqn:Hlim.
    + destruct (fallback_position_some (S iters) r) as (x & y & g' & ->). simpl.
      eexists. split; [done|]. simpl. lia.
    + apply Z.ltb_ge in Hlim.
      destruct (IH (tries + 1)%Z (S iters) r) as (pos & Hp & Hi); [lia|lia|].
      exists pos. split; [done|]. lia.
  - match goal with |- context [inside_obstacles ?o ?x ?y] =>
      destruct (inside_obstacles o x y) end.
    + destruct (500 <? tries + 1)%Z eqn:Hlim.
      * destruct (fallback_position_some (S iters) r) as (x & y & g' & ->). simpl.
        eexists. split; [done|]. simpl. lia.
      * apply Z.ltb_ge in Hlim.
        destruct (IH (tries + 1)%Z (S iters) r) as (pos & Hp & Hi); [lia|lia|].
        exists pos. split; [done|]. lia.
    + simpl. eexists. split; [done|]. simpl. lia.
Qed.

(** More fuel than needed changes nothing. *)
Lemma spawn_position_fuel_mono fuel fuel' px py obstacles tries iters g pos :
  fuel ≤ fuel' →
  fst (spawn_position fuel px py obstacles tries iters g) = Some pos →
  spawn_position fuel' px py obstacles tries iters g
  = spawn_position fuel px py obstacles tries iters g.
Proof.
  revert fuel' tries iters g. induction fuel as [|fuel IH]; intros fuel' tries iters g Hle;
    simpl; [by intros ?|].
  destruct fuel' as [|fuel']; [lia|]. simpl.
  unfold bind.
  repeat match goal with
         | |- context [match ?x with (_, _) => _ end] => destruct x as [? ?]
         end.
  match goal with |- context [Rltb ?d 300] => destruct (Rltb d 300) end.
  - destruct (300 <? tries + 1)%Z; [done|]. apply IH. lia.
  - match goal with |- context [inside_obstacles ?o ?x ?y] =>
      destruct (inside_obstacles o x y) end; [|done].
    destruct (500 <? tries + 1)%Z; [done|]. apply IH. lia.
Qed.

Lemma make_mob_position minute x y g :
  mob_x (fst (make_mob minute x y g)) = x ∧ mob_y (fst (make_mob minute x y g)) = y.
Proof. unfold make_mob. do 5 draw. by unfold ret. Qed.

Lemma spawn_mob_fuel_unfold fuel minute px py obstacles g :
  fst (spawn_mob_fuel fuel minute px py obstacles g)
  = match spawn_position fuel px py obstacles 0 0 g with
    | (Some p, g') => Some (fst (make_mob minute (sp_x p) (sp_y p) g'))
    | (None, _) => None
    end.
Proof.
  unfold spawn_mob_fuel. unfold bind at 1.
  destruct (spawn_position fuel px py obstacles 0 0 g) as [[p|] g']; [|done].
  unfold bind. destruct (make_mob _ _ _ g'). done.
Qed.

End SpawnerProofs.

Lemma spawn_mob_fuel_total fuel minute px py obstacles g :
  501 ≤ fuel →
  ∃ mob pos,
    fst (spawn_mob_fuel fuel minute px py obstacles g) = Some mob
    ∧ fst (spawn_position fuel px py obstacles 0 0 g) = Some pos
    ∧ 1 ≤ sp_iterations pos ≤ 501.
Proof.
  intros Hfuel.
  destruct (spawn_position_total fuel px py obstacles 0 0 g) as (pos & Hp & Hi); [lia|lia|].
  rewrite spawn_mob_fuel_unfold.
  destruct (spawn_position fuel px py obstacles 0 0 g) as [[p|] g'] eqn:Hs;
    cbn [fst] in Hp; [|done].
  injection Hp as ->. eexists _, pos. split_and!; [done|done|lia|lia].
Qed.

(** C4: [spawn_mob] always returns a mob: its retry loop runs at most 501
    times (each rejection adds one to [tries], and a rejection with
    [tries > 500] takes the fallback), and a larger iteration bound gives
    the same mob. *)
Theorem spawn_mob_total (minute : Z) (player_x player_y : R)
    (obstacles : list Obstacle) (g : Rng) :
  ∃ mob pos,
    fst (spawn_mob minute player_x player_y obstacles g) = Some mob
    ∧ fst (spawn_position SPAWN_FUEL player_x player_y obstacles 0 0 g) = Some pos
    ∧ 1 ≤ sp_iterations pos ≤ 501
    ∧ ∀ fuel, SPAWN_FUEL ≤ fuel →
        spawn_mob_fuel fuel minute player_x player_y obstacles g
        = spawn_mob minute player_x player_y obstacles g.
Proof.
  unfold spawn_mob.
  assert (Hf : 501 ≤ SPAWN_FUEL) by (unfold SPAWN_FUEL; lia).
  generalize dependent SPAWN_FUEL. intros fuel0 Hf.
  destruct (spawn_mob_fuel_total fuel0 minute player_x player_y obstacles g Hf)
    as (mob & pos & Hm & Hp & Hi).
  exists mob, pos. split_and!; [done|done|lia|lia|].
  intros fuel Hfuel. unfold spawn_mob_fuel, bind.
  by rewrite (spawn_position_fuel_mono fuel0 fuel _ _ _ _ _ _ pos Hfuel Hp).
Qed.






(** ** The frame *)

Section FrameProofs.
Local Open Scope R_scope.

Lemma spawn_interval_min minute : 4 / 10 <= spawn_interval minute.
Proof. unfold spawn_interval. apply Rmax_l. Qed.

Lemma up_minus_one x : up (x - 1) = (up x - 1)%Z.
Proof.
  symmetry. apply tech_up; rewrite minus_IZR; destruct (archimed x); lra.
Qed.

Lemma up_ge_two x : 1 <= x → (2 <= up x)%Z.
Proof.
  intros H. destruct (archimed x) as [Hu _].
  assert (Hlt : IZR 1 < IZR (up x)) by lra.
  apply lt_IZR in Hlt. lia.
Qed.

Lemma spawn_mob_some minute px py obs g :
  ∃ mob, fst (spawn_mob minute px py obs g) = Some mob.
Proof.
  unfold spawn_mob.
  assert (Hf : 501 ≤ SPAWN_FUEL) by (unfold SPAWN_FUEL; lia).
  generalize dependent SPAWN_FUEL. intros fuel Hf.
  destruct (spawn_mob_fuel_total fuel minute px py obs g Hf) as (mob & _ & Hm & _).
  eauto.
Qed.

Lemma spawn_loop_below fuel minute p obs interval acc ms g :
  acc < interval →
  spawn_loop fuel minute p obs interval acc ms g = (Some (acc, ms), g).
Proof.
  intros H. apply Rleb_false in H. destruct fuel; simpl; by rewrite H.
Qed.

(** The spawn loop ends within its fuel, and keeps the mobs it found. *)
Lemma spawn_loop_total fuel minute p obs interval acc ms g :
  0 < interval → spawn_fuel interval acc ≤ fuel →
  ∃ acc' new g',
    spawn_loop fuel minute p obs interval acc ms g = (Some (acc', ms ++ new), g')
    ∧ acc' < interval.
Proof.
  intros Hi. revert acc ms g.
  induction fuel as [|fuel IH]; intros acc ms g Hf.
  - destruct (Rleb interval acc) eqn:Hc.
    + apply Rleb_true in Hc. exfalso.
      assert (1 <= acc / interval).
      { apply Rmult_le_reg_r with interval; [done|]. field_simplify; lra. }
      pose proof (up_ge_two _ H). unfold spawn_fuel in Hf. lia.
    + simpl. rewrite Hc. apply Rleb_false in Hc.
      exists acc, [], g. by rewrite app_nil_r.
  - cbn [spawn_loop]. destruct (Rleb interval acc) eqn:Hc.
    + apply Rleb_true in Hc.
      destruct (spawn_mob_some minute (p_x p) (p_y p) obs g) as (mob & Hm).
      unfold bind at 1.
      destruct (spawn_mob minute (p_x p) (p_y p) obs g) as [m g1].
      cbn [fst] in Hm. subst m.
      destruct (IH (acc - interval) (ms ++ [mob]) g1) as (acc' & new & g' & -> & Hlt).
      { unfold spawn_fuel in *.
        replace ((acc - interval) / interval) with (acc / interval - 1)
          by (field; lra).
        rewrite up_minus_one.
        assert (1 <= acc / interval).
        { apply Rmult_le_reg_r with interval; [done|]. field_simplify; lra. }
        pose proof (up_ge_two _ H). lia. }
      exists acc', (mob :: new), g'. by rewrite <- app_assoc.
    + apply Rleb_false in Hc. exists acc, [], g. by rewrite app_nil_r.
Qed.

Lemma spawn_loop_frame minute p obs acc ms g :
  ∃ acc' new g',
    spawn_loop (spawn_fuel (spawn_interval minute) acc) minute p obs
      (spawn_interval minute) acc ms g = (Some (acc', ms ++ new), g')
    ∧ acc' < spawn_interval minute.
Proof.
  apply spawn_loop_total; [|done]. pose proof (spawn_interval_min minute). lra.
Qed.

(** *** Events *)

Lemma handle_event_not_levelup run st p ev :
  is_levelup st = false →
  ∃ run', handle_event (run, st, p) ev = (run', st, p).
Proof.
  intros H. destruct ev as [|key|]; simpl; rewrite ?H; simpl; eauto.
Qed.

Lemma handle_events_not_levelup evs run st p :
  is_levelup st = false →
  ∃ run', fold_left handle_event evs (run, st, p) = (run', st, p).
Proof.
  intros H. revert run. induction evs as [|ev evs IH]; intros run; cbn [fold_left]; [eauto|].
  destruct (handle_event_not_levelup run st p ev H) as [run' ->]. apply IH.
Qed.

(** *** The playing block and the frame return a world *)

Lemma playing_block_total keys dt now minute w :
  ∃ w', playing_block keys dt now minute w = Some w'.
Proof.
  unfold playing_block.
  destruct (spawn_loop_frame minute (move_player keys dt (obstacles w) (player w))
              (obstacles w) (spawn_acc w + dt) (mobs w) (rng w))
    as (acc' & new & g' & -> & _).
  repeat case_match. eauto.
Qed.

Lemma frame_total inp w : ∃ w', frame inp w = Some w'.
Proof.
  unfold frame.
  destruct (fold_left handle_event (frame_events inp) (running w, state w, player w))
    as [[run st] pl].
  destruct (is_playing st); [|eauto].
  match goal with |- context [playing_block ?k ?d ?n ?m ?w0] =>
    destruct (playing_block_total k d n m w0) as [w' ->] end.
  eauto.
Qed.

Lemma playing_block_elapsed keys dt now minute w w' :
  playing_block keys dt now minute w = Some w' → elapsed w' = now.
Proof.
  unfold playing_block. intros H. repeat case_match; simplify_eq. done.
Qed.

Lemma draw_camera_elapsed w : elapsed (draw_camera w) = elapsed w.
Proof. unfold draw_camera. by destruct (state w). Qed.

Lemma frame_elapsed inp w w' :
  frame inp w = Some w' → elapsed w' = elapsed w + dt_of inp.
Proof.
  unfold frame. intros H.
  destruct (fold_left handle_event (frame_events inp) (running w, state w, player w))
    as [[run st] pl].
  destruct (is_playing st).
  - match type of H with context [playing_block ?k ?d ?n ?m ?w0] =>
      destruct (playing_block k d n m w0) as [w1|] eqn:Hp end; [|done].
    apply playing_block_elapsed in Hp. simplify_eq.
    by rewrite draw_camera_elapsed.
  - simplify_eq. by rewrite draw_camera_elapsed.
Qed.

End FrameProofs.

(** C10.  Every iteration of the main loop returns, and advances
    [elapsed] by the [dt] of that frame, whatever the state is:
    ['champ_select'] never occurs in the loop, and in ['playing'],
    ['levelup'], ['win'] and ['dead'] alike the new value is
    [elapsed + dt]. *)
Theorem frame_advances_elapsed (inp : FrameInput) (w : World) :
  ∃ w', frame inp w = Some w' ∧ elapsed w' = (elapsed w + dt_of inp)%R.
Proof.
  destruct (frame_total inp w) as [w' H]. exists w'. split; [done|].
  by apply frame_elapsed.
Qed.

(** ** What the playing block does to the player *)

Section PlayerFields.
Local Open Scope R_scope.

Lemma untouched_refl p : untouched p p.
Proof. by repeat split. Qed.

Lemma untouched_trans p q r : untouched p q → untouched q r → untouched p r.
Proof. unfold untouched. intros. destruct_and!. split_and!; congruence. Qed.

Lemma untouched_set_hp p hp : untouched p (set_hp p hp).
Proof. by repeat split. Qed.

Lemma untouched_set_xp p xp : untouched p (set_xp p xp).
Proof. by repeat split. Qed.

Lemma untouched_set_attack_timer p t : untouched p (set_attack_timer p t).
Proof. by repeat split. Qed.

Lemma update_melee_player dt obs m sc :
  sc_player (snd (update_melee dt obs m sc)) = sc_player sc
  ∨ sc_player (snd (update_melee dt obs m sc))
    = set_hp (sc_player sc) (p_hp (sc_player sc) - 12 * dt).
Proof. unfold update_melee. case_match; simpl; auto. Qed.

Lemma update_shooter_player dt minute obs m sc g :
  sc_player (snd (fst (update_shooter dt minute obs m sc g))) = sc_player sc.
Proof.
  unfold update_shooter. destruct (toward _ _ _ _) as [[vx vy] dist].
  case_match; [|done]. unfold bind, ret. by destruct (uniform _ _ g).
Qed.

Lemma update_lava_player dt obs m sc g :
  sc_player (snd (fst (update_lava dt obs m sc g))) = sc_player sc.
Proof.
  unfold update_lava, bind, ret. destruct (random g) as [u g1].
  case_match; [|done].
  destruct (uniform _ _ g1) as [jd g2]. by destruct (uniform _ _ g2).
Qed.

Lemma update_mob_untouched dt minute obs m sc g :
  untouched (sc_player sc) (sc_player (snd (fst (update_mob dt minute obs m sc g)))).
Proof.
  unfold update_mob. cbn [mob_type set_mob_cooldown]. destruct (mob_type m).
  - unfold ret. cbn [fst].
    destruct (update_melee_player dt obs
                (set_mob_cooldown m (Rmax 0 (mob_cooldown m - dt))) sc) as [-> | ->];
      [apply untouched_refl|apply untouched_set_hp].
  - rewrite update_shooter_player. apply untouched_refl.
  - rewrite update_lava_player. apply untouched_refl.
Qed.

Lemma update_mobs_untouched n i dt minute obs live sc g :
  untouched (sc_player sc)
    (sc_player (snd (fst (update_mobs n i dt minute obs live sc g)))).
Proof.
  revert i live sc g. induction n as [|n IH]; intros i live sc g;
    cbn [update_mobs]; [apply untouched_refl|].
  destruct (live !! i) as [m|]; [|apply untouched_refl].
  unfold bind at 1.
  pose proof (update_mob_untouched dt minute obs m sc g) as Hm.
  destruct (update_mob dt minute obs m sc g) as [[m' sc'] g']. cbn [fst snd] in *.
  destruct (Rleb (mob_hp m') 0).
  - eapply untouched_trans; [|apply IH]. cbn [sc_player].
    eapply untouched_trans; [exact Hm|apply untouched_set_xp].
  - eapply untouched_trans; [exact Hm|apply IH].
Qed.

Lemma update_projectiles_untouched n i dt obs live pl ms :
  untouched pl (snd (fst (update_projectiles n i dt obs live pl ms))).
Proof.
  revert i live pl ms. induction n as [|n IH]; intros i live pl ms;
    cbn [update_projectiles]; [apply untouched_refl|].
  destruct (live !! i) as [p|]; [|apply untouched_refl].
  repeat case_match; try apply IH.
  eapply untouched_trans; [|apply IH]. apply untouched_set_hp.
Qed.

Lemma update_pools_untouched n i dt live pl :
  untouched pl (snd (update_pools n i dt live pl)).
Proof.
  revert i live pl. induction n as [|n IH]; intros i live pl;
    cbn [update_pools]; [apply untouched_refl|].
  destruct (live !! i) as [l|]; [|apply untouched_refl].
  repeat case_match; try apply IH.
  eapply untouched_trans; [|apply IH]. apply untouched_set_hp.
Qed.

Lemma auto_attack_untouched dt pl projs ms :
  untouched pl (fst (fst (auto_attack dt pl projs ms))).
Proof.
  unfold auto_attack. repeat case_match; cbn [fst]; by repeat split.
Qed.

(** The attack leaves hit points and experience alone. *)
Lemma auto_attack_hp_xp dt pl projs ms :
  p_hp (fst (fst (auto_attack dt pl projs ms))) = p_hp pl
  ∧ p_xp (fst (fst (auto_attack dt pl projs ms))) = p_xp pl.
Proof. unfold auto_attack. repeat case_match; cbn [fst]; done. Qed.

(** *** The shape of the playing block *)

(** The block ends with the three checks, and before them the player
    kept everything but [hp], [xp] and [attack_timer]. *)
Lemma playing_block_checks keys dt now minute w w' :
  playing_block keys dt now minute w = Some w' →
  ∃ p0,
    untouched (move_player keys dt (obstacles w) (player w)) p0
    ∧ player w' = fst (level_up_check p0 playing)
    ∧ state w' = death_check p0 (win_check now (snd (level_up_check p0 playing)))
    ∧ elapsed w' = now ∧ obstacles w' = obstacles w ∧ running w' = running w.
Proof.
  unfold playing_block. intros H.
  destruct (spawn_loop _ _ _ _ _ _ _ _) as [[[acc ms]|] g]; [|done].
  match type of H with context [update_mobs ?n ?i ?d ?m ?o ?l ?s ?g] =>
    pose proof (update_mobs_untouched n i d m o l s g) as H1;
    destruct (update_mobs n i d m o l s g) as [[ms1 sc] g1] end.
  cbn [fst snd sc_player] in H1.
  match type of H with context [update_projectiles ?n ?i ?d ?o ?l ?p ?m] =>
    pose proof (update_projectiles_untouched n i d o l p m) as H2;
    destruct (update_projectiles n i d o l p m) as [[projs pl2] ms2] end.
  cbn [fst snd] in H2.
  match type of H with context [update_pools ?n ?i ?d ?l ?p] =>
    pose proof (update_pools_untouched n i d l p) as H3;
    destruct (update_pools n i d l p) as [pools pl3] end.
  cbn [fst snd] in H3.
  match type of H with context [auto_attack ?d ?p ?l ?m] =>
    pose proof (auto_attack_untouched d p l m) as H4;
    destruct (auto_attack d p l m) as [[pl4 projs4] ms4] end.
  cbn [fst snd] in H4.
  destruct (level_up_check pl4 playing) as [pl5 st] eqn:Hl.
  simplify_eq. exists pl4. rewrite Hl. cbn [fst snd player state elapsed obstacles running].
  split_and!; try done.
  - eauto using untouched_trans.
  - unfold death_check. unfold level_up_check in Hl.
    destruct (_ <=? _)%Z; by simplify_eq.
Qed.

Lemma move_player_no_keys dt obs p : move_player no_keys dt obs p = p.
Proof. reflexivity. Qed.


(** *** The frame around the block *)

Lemma draw_camera_fields w :
  player (draw_camera w) = player w ∧ state (draw_camera w) = state w
  ∧ mobs (draw_camera w) = mobs w
  ∧ projectile_list (draw_camera w) = projectile_list w
  ∧ lava_pools (draw_camera w) = lava_pools w
  ∧ elapsed (draw_camera w) = elapsed w ∧ spawn_acc (draw_camera w) = spawn_acc w
  ∧ obstacles (draw_camera w) = obstacles w ∧ running (draw_camera w) = running w
  ∧ rng (draw_camera w) = rng w.
Proof. unfold draw_camera. by destruct (state w) eqn:Hs. Qed.

(** A frame that starts in ['playing'] runs the playing block. *)
Lemma frame_playing inp w w' :
  state w = playing → frame inp w = Some w' →
  ∃ run w1,
    playing_block (frame_keys inp) (dt_of inp) (elapsed w + dt_of inp)
      (minute_of (elapsed w + dt_of inp)) (at_time w (elapsed w + dt_of inp) run)
    = Some w1
    ∧ w' = draw_camera w1.
Proof.
  unfold frame. intros Hs H.
  destruct (handle_events_not_levelup (frame_events inp) (running w) (state w)
              (player w)) as [run Hev]; [by rewrite Hs|].
  rewrite Hev, Hs in H. cbn [is_playing] in H. exists run.
  unfold at_time.
  destruct (playing_block _ _ _ _ _) as [w1|]; [|done].
  exists w1. by simplify_eq.
Qed.

(** A frame that starts in a state other than ['playing'] and
    ['levelup'] changes the clock, the camera and [running] only. *)
Lemma frame_suspended inp w :
  is_playing (state w) = false → is_levelup (state w) = false →
  ∃ w', frame inp w = Some w'
    ∧ state w' = state w ∧ player w' = player w ∧ mobs w' = mobs w
    ∧ projectile_list w' = projectile_list w ∧ lava_pools w' = lava_pools w
    ∧ obstacles w' = obstacles w ∧ spawn_acc w' = spawn_acc w ∧ rng w' = rng w
    ∧ elapsed w' = elapsed w + dt_of inp.
Proof.
  intros Hp Hl. unfold frame.
  destruct (handle_events_not_levelup (frame_events inp) (running w) (state w)
              (player w) Hl) as [run ->].
  rewrite Hp. eexists. split; [done|].
  match goal with |- context [draw_camera ?w0] =>
    pose proof (draw_camera_fields w0) as Hd end.
  destruct_and!. by split_and!.
Qed.

End PlayerFields.

(** ** Frames without mobs *)

Section CalmFrames.
Local Open Scope R_scope.

Lemma frame_calm inp w :
  state w = playing → frame_events inp = [] →
  mobs w = [] → projectile_list w = [] →
  spawn_acc w + dt_of inp < spawn_interval (minute_of (elapsed w + dt_of inp)) →
  frame inp w = Some (calm_frame inp w).
Proof.
  intros Hs He Hm Hp Hacc. unfold frame. rewrite He, Hs. cbn [fold_left is_playing].
  unfold playing_block. cbn [obstacles player spawn_acc mobs rng projectile_list
    lava_pools running].
  rewrite spawn_loop_below by done. rewrite Hm, Hp.
  cbn [length update_mobs ret update_projectiles sc_projectiles sc_player sc_pools].
  unfold calm_frame.
  destruct (update_pools _ _ _ _ _) as [pools pl]. cbn [fst snd].
  unfold auto_attack. cbn [nearest_mob p_attack_timer set_attack_timer].
  assert (Hd : ∀ (b : bool) (x : Player * list Projectile * list Mob),
             (if b then x else x) = x) by (by intros []).
  rewrite Hd.
  destruct (level_up_check _ playing) as [pl' st]. cbn [fst snd].
  unfold draw_camera. cbn [state player projectile_list lava_pools mobs obstacles
    elapsed spawn_acc running rng].
  unfold death_check, win_check.
  repeat case_match; done.
Qed.

End CalmFrames.

(** ** Win and death *)

Section WinDeath.
Local Open Scope R_scope.

Lemma hypot_zero : hypot 0 0 = 0.
Proof. unfold hypot. rewrite Rmult_0_l, Rplus_0_l. apply sqrt_0. Qed.

Lemma frame_terminal inp w :
  state w = win ∨ state w = dead →
  ∃ w', frame inp w = Some w'
    ∧ state w' = state w ∧ player w' = player w ∧ mobs w' = mobs w
    ∧ projectile_list w' = projectile_list w ∧ lava_pools w' = lava_pools w.
Proof.
  intros Hs.
  destruct (frame_suspended inp w) as (w' & Hf & H); [by destruct Hs as [-> | ->]..|].
  exists w'. destruct_and!. by split_and!.
Qed.

Lemma run_frames_terminal inputs w :
  state w = win ∨ state w = dead →
  ∃ w', run_frames inputs w = Some w'
    ∧ state w' = state w ∧ player w' = player w ∧ mobs w' = mobs w
    ∧ projectile_list w' = projectile_list w ∧ lava_pools w' = lava_pools w.
Proof.
  revert w. induction inputs as [|inp inputs IH]; intros w Hs; cbn [run_frames];
    [by eexists|].
  destruct (running w); [|by eexists].
  destruct (frame_terminal inp w Hs) as (w1 & -> & Hs1 & Hp & Hm & Hj & Hl).
  destruct (IH w1) as (w' & Hr & ?); [by rewrite Hs1|].
  exists w'. destruct_and!. split_and!; congruence.
Qed.

Lemma death_check_dead pl st : p_hp pl <= 0 → death_check pl st = dead.
Proof. intros H. unfold death_check. by rewrite (proj2 (Rleb_true _ _) H). Qed.

Lemma death_check_alive pl st : 0 < p_hp pl → death_check pl st = st.
Proof. intros H. unfold death_check. by rewrite (proj2 (Rleb_false _ _) H). Qed.

Lemma level_up_check_hp pl st : p_hp (fst (level_up_check pl st)) = p_hp pl.
Proof. unfold level_up_check. by case_match. Qed.

Lemma frame_playing_end inp w w' :
  state w = playing → frame inp w = Some w' →
  (p_hp (player w') <= 0 → state w' = dead)
  ∧ (IZR LEVEL_DURATION_SECONDS <= elapsed w' → 0 < p_hp (player w') →
     state w' = win).
Proof.
  intros Hs Hf.
  destruct (frame_playing inp w w' Hs Hf) as (run & w1 & Hb & ->).
  destruct (draw_camera_fields w1) as (-> & -> & _ & _ & _ & -> & _).
  destruct (playing_block_checks _ _ _ _ _ _ Hb) as (p0 & _ & -> & -> & -> & _).
  rewrite level_up_check_hp. split.
  - apply death_check_dead.
  - intros Ht Hhp. rewrite death_check_alive by done.
    unfold win_check. by rewrite (proj2 (Rleb_true _ _) Ht).
Qed.

End WinDeath.

(** C5, amended.  A frame that starts in ['playing'] ends in ['dead']
    when the player's hit points are at most 0 after it, and in ['win']
    when the elapsed time has reached [LEVEL_DURATION_SECONDS] and the
    hit points are still positive: the death check comes last and
    overrides the win.  ['win'] and ['dead'] are terminal: a frame, and
    any number of frames, that start there keep the state, the player,
    the mobs, the projectiles and the lava pools. *)
Theorem frame_win_dead_terminal (inp : FrameInput) (w : World) :
  ∃ w', frame inp w = Some w'
    ∧ (state w = playing →
         (p_hp (player w') <= 0 → state w' = dead)%R
         ∧ (IZR LEVEL_DURATION_SECONDS <= elapsed w' → 0 < p_hp (player w') →
            state w' = win)%R)
    ∧ (state w = win ∨ state w = dead →
         (state w' = state w ∧ player w' = player w ∧ mobs w' = mobs w
          ∧ projectile_list w' = projectile_list w ∧ lava_pools w' = lava_pools w)
         ∧ ∀ inputs, ∃ wn,
             run_frames inputs w = Some wn
             ∧ state wn = state w ∧ player wn = player w ∧ mobs wn = mobs w
             ∧ projectile_list wn = projectile_list w
             ∧ lava_pools wn = lava_pools w).
Proof.
  destruct (frame_total inp w) as [w' Hf]. exists w'. split; [done|]. split.
  - intros Hs. exact (frame_playing_end inp w w' Hs Hf).
  - intros Hs. split.
    + destruct (frame_terminal inp w Hs) as (w2 & Hf2 & H). by simplify_eq.
    + intros inputs. by apply run_frames_terminal.
Qed.

Lemma frame_last_moment :
  frame idle_frame world_last_moment = Some (calm_frame idle_frame world_last_moment).
Proof.
  apply frame_calm; try reflexivity.
  eapply Rlt_le_trans; [|apply spawn_interval_min].
  unfold dt_of. cbn [spawn_acc world_last_moment tick_ms idle_frame]. lra.
Qed.

(** The last frame of a level survived: ['win']. *)
Lemma frame_win_dead_terminal_witness :
  ∃ w', frame idle_frame world_last_moment = Some w' ∧ state w' = win.
Proof.
  destruct (frame_win_dead_terminal idle_frame world_last_moment)
    as (w' & Hf & Hplay & _).
  exists w'. split; [exact Hf|].
  rewrite frame_last_moment in Hf. injection Hf as <-.
  apply (Hplay eq_refl).
  - unfold LEVEL_DURATION_SECONDS. cbn [elapsed calm_frame world_last_moment].
    unfold dt_of, idle_frame. cbn [tick_ms]. eval_IZR. lra.
  - change (p_hp (player (calm_frame idle_frame world_last_moment))) with 100%R. lra.
Defined.

(** C5 as stated fails when both conditions hold: the elapsed time
    passes [LEVEL_DURATION_SECONDS] in the frame in which the lava takes
    the last hit points, and the state is ['dead'], not ['win']. *)
Lemma frame_win_dead_terminal_counterexample :
  ∃ w', frame idle_frame world_last_breath = Some w'
    ∧ state world_last_breath = playing
    ∧ (0 < p_hp (player world_last_breath))%R
    ∧ (IZR LEVEL_DURATION_SECONDS <= elapsed w')%R
    ∧ state w' = dead.
Proof.
  exists (calm_frame idle_frame world_last_breath). split_and!.
  - apply frame_calm; try reflexivity.
    eapply Rlt_le_trans; [|apply spawn_interval_min].
    unfold dt_of. cbn [spawn_acc world_last_breath tick_ms idle_frame]. lra.
  - reflexivity.
  - cbn. lra.
  - unfold LEVEL_DURATION_SECONDS. cbn [elapsed calm_frame world_last_breath].
    unfold dt_of, idle_frame. cbn [tick_ms]. eval_IZR. lra.
  - unfold calm_frame. cbn [state]. apply death_check_dead.
    rewrite level_up_check_hp. cbn [p_hp set_attack_timer].
    assert (Hdt : dt_of idle_frame = (17 / 1000)%R) by (unfold dt_of, idle_frame; cbn [tick_ms]; lra).
    rewrite Hdt.
    cbn -[Rleb distance IZR Rminus Rplus Rmult Rdiv Rinv Z.div].
    rewrite (proj2 (Rleb_false (5 - 17 / 1000) 0)%R) by lra.
    rewrite !move_player_no_keys.
    cbn [p_x p_y p_hp set_hp choose_champion new_player]. eval_IZR.
    assert (Hd : distance 1200 900 1200 900 = 0%R).
    { unfold distance. rewrite !Rminus_diag. apply hypot_zero. }
    rewrite Hd, (proj2 (Rleb_true 0 60)%R) by lra.
    cbn [snd p_hp set_hp]. lra.
Qed.

(** ** Level-up *)

Section LevelUp.
Local Open Scope R_scope.

Lemma move_player_fields keys dt obs p :
  p_level (move_player keys dt obs p) = p_level p
  ∧ p_hp (move_player keys dt obs p) = p_hp p
  ∧ p_xp (move_player keys dt obs p) = p_xp p
  ∧ p_speed (move_player keys dt obs p) = p_speed p
  ∧ p_attack_timer (move_player keys dt obs p) = p_attack_timer p.
Proof. unfold move_player. by repeat case_match. Qed.

Lemma level_up_check_xp pl st : p_xp (fst (level_up_check pl st)) = p_xp pl.
Proof. unfold level_up_check. by case_match. Qed.

(** What the level-up check of a frame in ['playing'] does. *)
Lemma frame_playing_level inp w w' :
  state w = playing → frame inp w = Some w' →
  if (p_level (player w) * 5 <=? p_xp (player w'))%Z
  then p_level (player w') = (p_level (player w) + 1)%Z
       ∧ (elapsed w' < IZR LEVEL_DURATION_SECONDS → 0 < p_hp (player w') →
          state w' = levelup)
  else p_level (player w') = p_level (player w) ∧ state w' ≠ levelup.
Proof.
  intros Hs Hf.
  destruct (frame_playing inp w w' Hs Hf) as (run & w1 & Hb & ->).
  destruct (draw_camera_fields w1) as (-> & -> & _ & _ & _ & -> & _).
  destruct (playing_block_checks _ _ _ _ _ _ Hb) as (p0 & Hu & -> & -> & -> & _).
  cbn [obstacles player at_time] in Hu.
  destruct Hu as (_ & _ & Hl & _).
  destruct (move_player_fields (frame_keys inp) (dt_of inp) (obstacles w) (player w))
    as (Hl' & _).
  rewrite Hl' in Hl. rewrite level_up_check_xp, level_up_check_hp, <- Hl.
  unfold level_up_check. destruct (p_level p0 * 5 <=? p_xp p0)%Z; cbn [fst snd].
  - split; [done|]. intros Ht Hhp. rewrite death_check_alive by done.
    unfold win_check. by rewrite (proj2 (Rleb_false _ _) Ht).
  - split; [done|]. unfold death_check, win_check. by repeat case_match.
Qed.

(** The handler of the level-up menu. *)
Lemma handle_event_bonus run p key :
  bonus_key key = true →
  handle_event (run, levelup, p) (KEYDOWN key) = (run, playing, apply_bonus key p).
Proof.
  intros Hk. cbn [handle_event is_levelup andb]. rewrite Hk.
  assert (Hl : ∀ q, set_level q (p_level q + 0) = q).
  { intros []. unfold set_level. cbn. by rewrite Z.add_0_r. }
  rewrite Hl. by destruct key.
Qed.

Lemma apply_bonus_fields key p :
  bonus_key key = true →
  p_level (apply_bonus key p) = p_level p
  ∧ p_xp (apply_bonus key p) = p_xp p
  ∧ p_x (apply_bonus key p) = p_x p ∧ p_y (apply_bonus key p) = p_y p
  ∧ p_attack_cooldown (apply_bonus key p) = p_attack_cooldown p
  ∧ p_attack_timer (apply_bonus key p) = p_attack_timer p
  ∧ p_champion (apply_bonus key p) = p_champion p
  ∧ p_proj_speed (apply_bonus key p) = p_proj_speed p
  ∧ p_attack_type (apply_bonus key p) = p_attack_type p
  ∧ p_proj_dmg (apply_bonus key p)
    = p_proj_dmg p + match key with K_1 => 8 + IZR (p_level p) * 2 | _ => 0 end
  ∧ p_attack_range (apply_bonus key p)
    = p_attack_range p + match key with K_1 => 10 | _ => 0 end
  ∧ p_speed (apply_bonus key p) = p_speed p + match key with K_2 => 40 | _ => 0 end
  ∧ p_hp (apply_bonus key p) = p_hp p + match key with K_3 => 40 | _ => 0 end.
Proof.
  destruct key; try discriminate; intros _; cbn; split_and!; try done; lra.
Qed.

End LevelUp.

(** C6, amended.  A frame that starts in ['playing'] and in which the
    experience at the level-up check is at least [level * 5] adds exactly
    one to the level; it ends in ['levelup'] unless the win or the death
    check of the same frame overrides that (elapsed time below
    [LEVEL_DURATION_SECONDS] and hit points above 0).  Below the threshold
    the level stays and the frame does not end in ['levelup'].  Choosing
    bonus 1, 2 or 3 in ['levelup'] sets the state to ['playing'], keeps the
    level, and adds the chosen increment only: [8 + level * 2] damage and
    10 range, or 40 speed, or 40 hit points. *)
Theorem level_up_once :
  (∀ (inp : FrameInput) (w : World),
     ∃ w', frame inp w = Some w'
       ∧ (state w = playing →
          if (p_level (player w) * 5 <=? p_xp (player w'))%Z
          then p_level (player w') = (p_level (player w) + 1)%Z
               ∧ ((elapsed w' < IZR LEVEL_DURATION_SECONDS)%R →
                  (0 < p_hp (player w'))%R → state w' = levelup)
          else p_level (player w') = p_level (player w) ∧ state w' ≠ levelup))
  ∧ (∀ (run : bool) (p : Player) (key : Key),
       bonus_key key = true →
       ∃ p', handle_event (run, levelup, p) (KEYDOWN key) = (run, playing, p')
         ∧ p_level p' = p_level p ∧ p_xp p' = p_xp p
         ∧ p_x p' = p_x p ∧ p_y p' = p_y p
         ∧ p_attack_cooldown p' = p_attack_cooldown p
         ∧ p_attack_timer p' = p_attack_timer p
         ∧ p_champion p' = p_champion p
         ∧ p_proj_speed p' = p_proj_speed p
         ∧ p_attack_type p' = p_attack_type p
         ∧ p_proj_dmg p'
           = (p_proj_dmg p + match key with K_1 => 8 + IZR (p_level p) * 2 | _ => 0 end)%R
         ∧ p_attack_range p'
           = (p_attack_range p + match key with K_1 => 10 | _ => 0 end)%R
         ∧ p_speed p' = (p_speed p + match key with K_2 => 40 | _ => 0 end)%R
         ∧ p_hp p' = (p_hp p + match key with K_3 => 40 | _ => 0 end)%R).
Proof.
  split.
  - intros inp w. destruct (frame_total inp w) as [w' Hf]. exists w'.
    split; [done|]. intros Hs. by apply (frame_playing_level inp).
  - intros run p key Hk. exists (apply_bonus key p).
    split; [by apply handle_event_bonus|by apply apply_bonus_fields].
Qed.

Lemma frame_five_kills :
  frame idle_frame world_five_kills = Some (calm_frame idle_frame world_five_kills).
Proof.
  apply frame_calm; try reflexivity.
  eapply Rlt_le_trans; [|apply spawn_interval_min].
  cbn [spawn_acc world_five_kills]. unfold dt_of, idle_frame. cbn [tick_ms]. lra.
Qed.

(** Five kills at level 1: the frame ends in ['levelup'] at level 2; and
    bonus 2 then adds 40 to the speed and leaves the level at 2. *)
Lemma level_up_once_witness :
  (∃ w', frame idle_frame world_five_kills = Some w'
         ∧ p_level (player w') = 2%Z ∧ state w' = levelup)
  ∧ (∃ p', handle_event (true, levelup, set_level new_player 2) (KEYDOWN K_2)
           = (true, playing, p')
           ∧ p_level p' = 2%Z ∧ p_speed p' = (250 + 40)%R).
Proof.
  split.
  - destruct (proj1 level_up_once idle_frame world_five_kills) as (w' & Hf & Hplay).
    exists w'. split; [exact Hf|].
    specialize (Hplay eq_refl).
    rewrite frame_five_kills in Hf. injection Hf as <-.
    change (p_level (player world_five_kills) * 5 <=?
            p_xp (player (calm_frame idle_frame world_five_kills)))%Z
      with true in Hplay.
    destruct Hplay as [Hl Hst]. split; [exact Hl|]. apply Hst.
    + unfold LEVEL_DURATION_SECONDS. cbn [elapsed calm_frame world_five_kills].
      unfold dt_of, idle_frame. cbn [tick_ms]. eval_IZR. lra.
    + change (p_hp (player (calm_frame idle_frame world_five_kills))) with 100%R. lra.
  - destruct (proj2 level_up_once true (set_level new_player 2) K_2 eq_refl)
      as (p' & He & Hl & _ & _ & _ & _ & _ & _ & _ & _ & _ & _ & Hs & _).
    exists p'. split; [exact He|]. split; [exact Hl|exact Hs].
Defined.

(** C6 as stated fails when the level ends in the same frame: the level
    goes up, but the frame ends in ['win'] and the menu is never shown. *)
Lemma level_up_once_counterexample :
  ∃ w', frame idle_frame world_five_kills_late = Some w'
    ∧ state world_five_kills_late = playing
    ∧ (p_level (player world_five_kills_late) * 5 <= p_xp (player w'))%Z
    ∧ p_level (player w') = (p_level (player world_five_kills_late) + 1)%Z
    ∧ state w' = win.
Proof.
  exists (calm_frame idle_frame world_five_kills_late). split_and!.
  - apply frame_calm; try reflexivity.
    eapply Rlt_le_trans; [|apply spawn_interval_min].
    cbn [spawn_acc world_five_kills_late]. unfold dt_of, idle_frame. cbn [tick_ms]. lra.
  - reflexivity.
  - cbv. discriminate.
  - reflexivity.
  - unfold calm_frame. cbn [state]. rewrite death_check_alive.
    + unfold win_check. rewrite (proj2 (Rleb_true _ _)); [reflexivity|].
      unfold LEVEL_DURATION_SECONDS.
      cbn [elapsed world_five_kills_late]. unfold dt_of, idle_frame. cbn [tick_ms].
      eval_IZR. lra.
    + change (0 < 100)%R. lra.
Qed.

Section CircleRect.
Local Open Scope R_scope.

Lemma hypot_nonneg x y : 0 <= hypot x y.
Proof. apply sqrt_pos. Qed.

Lemma hypot_mono x y x' y' :
  x * x <= x' * x' → y * y <= y' * y' → hypot x y <= hypot x' y'.
Proof. intros. unfold hypot. apply sqrt_le_1_alt. lra. Qed.

Lemma clamp_between v a b : a <= b → a <= clamp v a b <= b.
Proof.
  intros. unfold clamp, Rmax, Rmin.
  destruct (Rle_dec b v); destruct (Rle_dec a _); lra.
Qed.

(** The clamped coordinate is the nearest one in the interval. *)
Lemma clamp_nearest v a b p :
  a <= b → a <= p <= b → (v - clamp v a b) * (v - clamp v a b) <= (v - p) * (v - p).
Proof.
  intros Hab Hp. unfold clamp, Rmax, Rmin.
  destruct (Rle_dec b v); destruct (Rle_dec a _).
  - assert (0 <= (b - p) * (2 * v - b - p)) by (apply Rmult_le_pos; lra). lra.
  - lra.
  - assert (0 <= (v - p) * (v - p)) by (apply Rle_0_sqr). lra.
  - assert (0 <= (p - a) * (p + a - 2 * v)) by (apply Rmult_le_pos; lra). lra.
Qed.

Lemma closest_point_min cx cy (rect : Rect) :
  (0 <= rw rect)%Z → (0 <= rh rect)%Z →
  is_min_distance
    (distance cx cy (clamp cx (IZR (left rect)) (IZR (right rect)))
                    (clamp cy (IZR (top rect)) (IZR (bottom rect))))
    cx cy rect.
Proof.
  intros Hw Hh.
  assert (IZR (left rect) <= IZR (right rect)).
  { apply IZR_le. unfold left, right. lia. }
  assert (IZR (top rect) <= IZR (bottom rect)).
  { apply IZR_le. unfold top, bottom. lia. }
  split.
  - eexists _, _. split; [|reflexivity].
    split; by apply clamp_between.
  - intros px py [Hx Hy]. unfold distance.
    apply hypot_mono; by apply clamp_nearest.
Qed.

Lemma is_min_distance_unique d d' cx cy rect :
  is_min_distance d cx cy rect → is_min_distance d' cx cy rect → d = d'.
Proof.
  intros [(px & py & Hp & <-) Hmin] [(px' & py' & Hp' & <-) Hmin'].
  apply Rle_antisym; auto.
Qed.

End CircleRect.

(** C7: for a rectangle of non-negative width and height,
    [circle_rect_collision(x, y, r, rect)] is true exactly when the least
    distance from [(x, y)] to the solid rectangle is at most [r]; that
    least distance exists. *)
Theorem circle_rect_collision_min_distance (cx cy r : R) (rect : Rect) :
  (0 <= rw rect)%Z → (0 <= rh rect)%Z →
  (∃ d, is_min_distance d cx cy rect)
  ∧ ∀ d, is_min_distance d cx cy rect →
         (circle_rect_collision cx cy r rect = true ↔ (d <= r)%R).
Proof.
  intros Hw Hh. pose proof (closest_point_min cx cy rect Hw Hh) as Hc.
  split; [eauto|]. intros d Hd.
  rewrite (is_min_distance_unique _ _ _ _ _ Hd Hc).
  unfold circle_rect_collision. apply Rleb_true.
Qed.

Lemma circle_rect_collision_min_distance_witness :
  (∃ d, is_min_distance d 5 5 (mkRect 0 0 10 10))
  ∧ ∀ d, is_min_distance d 5 5 (mkRect 0 0 10 10) →
         (circle_rect_collision 5 5 1 (mkRect 0 0 10 10) = true ↔ (d <= 1)%R).
Proof.
  apply (circle_rect_collision_min_distance 5 5 1 (mkRect 0 0 10 10)); simpl; lia.
Defined.

(** ** Contact damage *)

Section Contact.
Local Open Scope R_scope.

Lemma melee_move_cooldown dt obs p m c :
  melee_move dt obs p (set_mob_cooldown m c)
  = set_mob_cooldown (melee_move dt obs p m) c.
Proof.
  unfold melee_move. cbn [set_mob_cooldown mob_x mob_y mob_speed].
  destruct (toward _ _ _ _) as [[vx vy] dist].
  change (try_move_with_vector obs (set_mob_cooldown m c))
    with (try_move_with_vector obs m) at 1.
  change (try_move_with_vector obs (mkMob (mob_x m) (mob_y m) (mob_hp m) (mob_speed m)
            (mob_type m) c (mob_id m))) with (try_move_with_vector obs m).
  destruct (try_angles _ _ _) as [[nx ny]|]; reflexivity.
Qed.

Lemma update_melee_scene dt obs m sc :
  sc_projectiles (snd (update_melee dt obs m sc)) = sc_projectiles sc
  ∧ sc_pools (snd (update_melee dt obs m sc)) = sc_pools sc.
Proof. unfold update_melee. by case_match. Qed.

(** The hit points after a frame with one melee mob and nothing else. *)
Lemma frame_one_melee inp w m :
  state w = playing → mobs w = [m] → mob_type m = melee →
  projectile_list w = [] → lava_pools w = [] →
  spawn_acc w + dt_of inp < spawn_interval (minute_of (elapsed w + dt_of inp)) →
  ∃ w', frame inp w = Some w'
    ∧ p_hp (player w')
      = p_hp (sc_player (snd (update_melee (dt_of inp) (obstacles w)
                                (set_mob_cooldown m (Rmax 0 (mob_cooldown m - dt_of inp)))
                                (mkScene (move_player (frame_keys inp) (dt_of inp)
                                            (obstacles w) (player w)) [] [])))).
Proof.
  intros Hs Hm Ht Hp Hl Hacc.
  destruct (frame_total inp w) as [w' Hf]. exists w'. split; [done|].
  destruct (frame_playing inp w w' Hs Hf) as (run & w1 & Hb & ->).
  destruct (draw_camera_fields w1) as (-> & _).
  unfold playing_block in Hb.
  cbn [obstacles player spawn_acc mobs rng projectile_list lava_pools running at_time]
    in Hb.
  rewrite spawn_loop_below in Hb by done. rewrite Hm, Hp, Hl in Hb.
  cbn [length update_mobs lookup list_lookup] in Hb.
  unfold update_mob in Hb. cbn [mob_type set_mob_cooldown] in Hb. rewrite Ht in Hb.
  unfold bind, ret in Hb.
  match type of Hb with context [update_melee ?d ?o ?m0 ?s] =>
    pose proof (update_melee_scene d o m0 s) as [Hp1 Hl1];
    destruct (update_melee d o m0 s) as [m1 sc1] end.
  cbn [fst snd sc_projectiles sc_pools] in *.
  destruct (Rleb (mob_hp m1) 0); cbn [sc_projectiles sc_pools sc_player] in Hb;
    rewrite Hp1, Hl1 in Hb;
    cbn [length update_projectiles update_pools] in Hb;
    match type of Hb with context [auto_attack ?d ?p ?l ?ms] =>
      pose proof (auto_attack_hp_xp d p l ms) as [Hhp _];
      destruct (auto_attack d p l ms) as [[pl4 projs4] ms4] end;
    cbn [fst] in Hhp;
    match type of Hb with context [level_up_check ?p ?s] =>
      pose proof (level_up_check_hp p s) as Hhp';
      destruct (level_up_check p s) as [pl5 st5] end;
    cbn [fst] in Hhp'; simplify_eq; cbn [player]; rewrite Hhp', Hhp; done.
Qed.

End Contact.

(** C8.  In a frame that starts in ['playing'] with one mob, of type
    melee, no projectile, no lava pool and no mob spawned, if the mob is
    within [MOB_RADIUS + PLAYER_RADIUS] of the player at its contact
    check (after the player and the mob have moved), the player's hit
    points go down by exactly [12 * dt]. *)
Theorem melee_contact_damage (inp : FrameInput) (w : World) (m : Mob) :
  state w = playing → mobs w = [m] → mob_type m = melee →
  projectile_list w = [] → lava_pools w = [] →
  (spawn_acc w + dt_of inp < spawn_interval (minute_of (elapsed w + dt_of inp)))%R →
  (let pl := move_player (frame_keys inp) (dt_of inp) (obstacles w) (player w) in
   let m1 := melee_move (dt_of inp) (obstacles w) pl m in
   distance (mob_x m1) (mob_y m1) (p_x pl) (p_y pl)
   <= IZR (MOB_RADIUS + PLAYER_RADIUS))%R →
  ∃ w', frame inp w = Some w'
    ∧ p_hp (player w') = (p_hp (player w) - 12 * dt_of inp)%R.
Proof.
  intros Hs Hm Ht Hp Hl Hacc Hc.
  destruct (frame_one_melee inp w m Hs Hm Ht Hp Hl Hacc) as (w' & Hf & Hhp).
  exists w'. split; [done|]. rewrite Hhp.
  unfold update_melee. cbn [sc_player]. rewrite melee_move_cooldown.
  cbn [set_mob_cooldown mob_x mob_y]. cbn zeta in Hc.
  rewrite (proj2 (Rleb_true _ _) Hc). cbn [snd sc_player p_hp set_hp].
  by destruct (move_player_fields (frame_keys inp) (dt_of inp) (obstacles w) (player w))
    as (_ & -> & _).
Qed.

Section ContactExample.
Local Open Scope R_scope.

Lemma hypot_axis x : hypot x 0 = Rabs x.
Proof.
  unfold hypot. rewrite Rmult_0_l, Rplus_0_r. apply sqrt_Rsqr_abs.
Qed.

Lemma clamp_inside v a b : a <= v <= b → clamp v a b = v.
Proof.
  intros. unfold clamp, Rmax, Rmin.
  destruct (Rle_dec b v); destruct (Rle_dec a _); lra.
Qed.

Lemma melee_move_adjacent :
  melee_move (17 / 1000) [] (choose_champion mage new_player) mob_adjacent
  = set_mob_position mob_adjacent (1220 - 55 * (17 / 1000)) 900.
Proof.
  unfold melee_move, toward, mob_adjacent.
  cbn [p_x p_y choose_champion new_player mob_x mob_y mob_speed]. eval_IZR.
  replace (900 - 900) with 0 by lra. rewrite hypot_axis.
  replace (Rabs (1200 - 1220)) with 20
    by (rewrite Rabs_left by lra; lra).
  destruct (Req_EM_T 20 0) as [?|_]; [lra|].
  cbn [melee_angles try_angles rotate_toward fst snd try_move_with_vector blocked
       existsb mob_x mob_y moved_to].
  rewrite cos_0, sin_0. unfold set_mob_position. cbn [mob_hp mob_speed mob_type
    mob_cooldown mob_id]. eval_IZR.
  f_equal.
  - rewrite clamp_inside by lra. field.
  - rewrite clamp_inside by lra. field.
Qed.

End ContactExample.

(** The mob 20 units away closes in during the frame and takes
    [12 * 0.017] hit points. *)
Lemma melee_contact_damage_witness :
  ∃ w', frame idle_frame world_adjacent = Some w'
    ∧ p_hp (player w') = (100 - 12 * (17 / 1000))%R.
Proof.
  assert (Hdt : dt_of idle_frame = (17 / 1000)%R)
    by (unfold dt_of, idle_frame; cbn [tick_ms]; lra).
  destruct (melee_contact_damage idle_frame world_adjacent mob_adjacent)
    as (w' & Hf & Hhp); try reflexivity.
  - eapply Rlt_le_trans; [|apply spawn_interval_min].
    rewrite Hdt. cbn [spawn_acc world_adjacent]. lra.
  - cbn zeta. rewrite Hdt.
    change (move_player (frame_keys idle_frame) (17 / 1000) (obstacles world_adjacent)
              (player world_adjacent)) with (choose_champion mage new_player).
    change (obstacles world_adjacent) with (@nil Obstacle).
    rewrite melee_move_adjacent.
    cbn [mob_x mob_y set_mob_position p_x p_y choose_champion new_player]. eval_IZR.
    unfold distance. replace (900 - 900)%R with 0%R by lra. rewrite hypot_axis.
    rewrite Rabs_right by lra. lra.
  - exists w'. split; [exact Hf|]. rewrite Hhp, Hdt. reflexivity.
Defined.

(** ** Frames without input *)

Section Idle.
Local Open Scope R_scope.

Lemma up_mono x y : x <= y → (up x <= up y)%Z.
Proof.
  intros H. destruct (archimed x) as [_ Hx]. destruct (archimed y) as [Hy _].
  assert (Hlt : IZR (up x) < IZR (up y + 1)) by (rewrite plus_IZR; lra).
  apply lt_IZR in Hlt. lia.
Qed.

Lemma minute_of_mono x y : x <= y → (minute_of x <= minute_of y)%Z.
Proof.
  intros H. unfold minute_of, Int_part.
  assert (x / 60 <= y / 60) by lra. pose proof (up_mono _ _ H0). lia.
Qed.

Lemma minute_of_first e : 0 <= e < 60 → minute_of e = 0%Z.
Proof.
  intros H. unfold minute_of. symmetry. apply Int_part_spec. lra.
Qed.

Lemma spawn_interval_anti m m' :
  (m <= m')%Z → spawn_interval m' <= spawn_interval m.
Proof.
  intros H. apply IZR_le in H. unfold spawn_interval, BASE_SPAWN.
  apply Rmax_lub; [apply Rmax_l|].
  eapply Rle_trans; [|apply Rmax_r]. lra.
Qed.

(** In ['playing'], without a direction key the player stays in place. *)
Lemma frame_no_keys_position inp w w' :
  state w = playing → frame_keys inp = no_keys → frame inp w = Some w' →
  p_x (player w') = p_x (player w) ∧ p_y (player w') = p_y (player w).
Proof.
  intros Hs Hk Hf.
  destruct (frame_playing inp w w' Hs Hf) as (run & w1 & Hb & ->).
  destruct (draw_camera_fields w1) as (-> & _).
  destruct (playing_block_checks _ _ _ _ _ _ Hb) as (p0 & Hu & -> & _).
  rewrite Hk in Hu. cbn [obstacles player at_time] in Hu.
  rewrite move_player_no_keys in Hu. destruct Hu as (Hx & Hy & _).
  unfold level_up_check. by case_match.
Qed.

Lemma total_ms_nonneg inputs : Forall quiet inputs → (0 <= total_ms inputs)%Z.
Proof.
  induction 1 as [|inp inputs (_ & _ & Ht) _ IH]; cbn [total_ms foldr]; [done|].
  fold (total_ms inputs). lia.
Qed.

(** Any run of frames without input, from a state without mobs,
    projectiles and lava pools, during which no mob is spawned and
    neither the end of the level nor the experience threshold is
    reached. *)
Lemma run_frames_idle inputs w :
  Forall quiet inputs →
  state w = playing → running w = true →
  mobs w = [] → projectile_list w = [] → lava_pools w = [] →
  elapsed w + IZR (total_ms inputs) / 1000 < IZR LEVEL_DURATION_SECONDS →
  spawn_acc w + IZR (total_ms inputs) / 1000
    < spawn_interval (minute_of (elapsed w + IZR (total_ms inputs) / 1000)) →
  (p_xp (player w) < p_level (player w) * 5)%Z →
  0 < p_hp (player w) →
  ∃ w', run_frames inputs w = Some w'
    ∧ state w' = playing ∧ running w' = true
    ∧ mobs w' = [] ∧ projectile_list w' = [] ∧ lava_pools w' = []
    ∧ elapsed w' = elapsed w + IZR (total_ms inputs) / 1000
    ∧ spawn_acc w' = spawn_acc w + IZR (total_ms inputs) / 1000
    ∧ p_hp (player w') = p_hp (player w)
    ∧ p_x (player w') = p_x (player w) ∧ p_y (player w') = p_y (player w)
    ∧ p_level (player w') = p_level (player w) ∧ p_xp (player w') = p_xp (player w).
Proof.
  intros Hq. revert w.
  induction Hq as [|inp inputs (He & Hk & Ht) Hq IH]; intros w Hs Hr Hm Hp Hl Hend Hacc Hxp Hhp.
  - exists w. cbn [run_frames total_ms foldr]. split_and!; try done; lra.
  - cbn [total_ms foldr] in *. fold (total_ms inputs) in *.
    pose proof (total_ms_nonneg _ Hq) as Hn.
    rewrite plus_IZR in Hend, Hacc.
    apply IZR_le in Hn, Ht.
    set (T := IZR (total_ms inputs)) in *.
    assert (Hdt : dt_of inp = IZR (tick_ms inp) / 1000) by done.
    cbn [run_frames]. rewrite Hr.
    rewrite frame_calm; [|done..|].
    2:{ rewrite Hdt. eapply Rlt_le_trans; [|apply spawn_interval_anti].
        - eapply Rle_lt_trans; [|exact Hacc]. lra.
        - apply minute_of_mono. lra. }
    assert (Hc : calm_frame inp w
                 = mkWorld (set_attack_timer (player w)
                              (p_attack_timer (player w) - dt_of inp))
                     [] [] [] (obstacles w) (elapsed w + dt_of inp)
                     (spawn_acc w + dt_of inp) playing
                     (camera_x (player w)) (camera_y (player w)) (running w) (rng w)).
    { unfold calm_frame. rewrite Hk, Hl, move_player_no_keys.
      cbn [length update_pools fst snd]. unfold level_up_check.
      cbn [set_attack_timer p_level p_xp].
      apply Z.leb_gt in Hxp. rewrite Hxp. cbn [fst snd].
      rewrite death_check_alive by done.
      unfold win_check. rewrite (proj2 (Rleb_false _ _)); [done|].
      rewrite Hdt. lra. }
    rewrite Hc.
    match goal with |- context [run_frames inputs ?w0] =>
      destruct (IH w0) as (w' & Hrun & H) end;
      cbn [state running mobs projectile_list lava_pools elapsed spawn_acc player
           set_attack_timer p_xp p_level p_hp]; try done.
    + rewrite Hdt. fold T. lra.
    + rewrite Hdt. fold T.
      replace (elapsed w + IZR (tick_ms inp) / 1000 + T / 1000)
        with (elapsed w + (IZR (tick_ms inp) + T) / 1000) by lra.
      lra.
    + exists w'. split; [done|].
      cbn [state running mobs projectile_list lava_pools elapsed spawn_acc player
           set_attack_timer p_xp p_level p_hp p_x p_y] in H.
      rewrite Hdt in H. fold T in H. destruct_and!.
      split_and!; try done; try congruence; rewrite plus_IZR; fold T; lra.
Qed.

End Idle.

(** C9, amended.  In ['playing'] a frame with no direction key held
    leaves the player's position unchanged.  And from a state in
    ['playing'] with the player at the world centre with 100 hit points,
    no mobs, no projectiles and no lava pools, frames without input that
    add up to one second leave the hit points and the position
    unchanged, add 1.0 to the elapsed time and end in ['playing'],
    provided the end of the level and the experience threshold are not
    reached and the spawn accumulator stays below the spawn interval
    during that second (as it does at the start of a game). *)
Theorem idle_second :
  (∀ (inp : FrameInput) (w w' : World),
     state w = playing → frame_keys inp = no_keys → frame inp w = Some w' →
     p_x (player w') = p_x (player w) ∧ p_y (player w') = p_y (player w))
  ∧ (∀ (inputs : list FrameInput) (w : World),
       Forall quiet inputs → total_ms inputs = 1000%Z →
       state w = playing → running w = true →
       p_x (player w) = IZR (WORLD_W / 2) → p_y (player w) = IZR (WORLD_H / 2) →
       p_hp (player w) = 100%R →
       mobs w = [] → projectile_list w = [] → lava_pools w = [] →
       (elapsed w + 1 < IZR LEVEL_DURATION_SECONDS)%R →
       (p_xp (player w) < p_level (player w) * 5)%Z →
       (spawn_acc w + 1 < spawn_interval (minute_of (elapsed w + 1)))%R →
       ∃ w', run_frames inputs w = Some w'
         ∧ p_hp (player w') = 100%R
         ∧ p_x (player w') = IZR (WORLD_W / 2) ∧ p_y (player w') = IZR (WORLD_H / 2)
         ∧ elapsed w' = (elapsed w + 1)%R
         ∧ state w' = playing
         ∧ mobs w' = [] ∧ projectile_list w' = [] ∧ lava_pools w' = []).
Proof.
  split; [exact frame_no_keys_position|].
  intros inputs w Hq Ht Hs Hr Hx Hy Hhp Hm Hp Hl Hend Hxp Hacc.
  assert (H1 : (IZR (total_ms inputs) / 1000 = 1)%R) by (rewrite Ht; lra).
  destruct (run_frames_idle inputs w) as (w' & Hrun & H); try done.
  - by rewrite H1.
  - by rewrite H1.
  - rewrite Hhp. lra.
  - exists w'. rewrite H1 in H. destruct_and!. split_and!; congruence.
Qed.

(** The first second of a game. *)
Lemma idle_second_witness :
  ∃ w', run_frames one_second (start_world mage [] rng_zero) = Some w'
    ∧ p_hp (player w') = 100%R ∧ elapsed w' = (0 + 1)%R ∧ state w' = playing.
Proof.
  destruct (proj2 idle_second one_second (start_world mage [] rng_zero))
    as (w' & Hrun & Hhp & _ & _ & He & Hs & _); try reflexivity.
  - unfold one_second. apply Forall_app. split.
    + apply Forall_replicate. repeat split. discriminate.
    + repeat constructor. discriminate.
  - cbn [elapsed start_world]. unfold LEVEL_DURATION_SECONDS. eval_IZR. lra.
  - cbn [elapsed spawn_acc start_world].
    rewrite minute_of_first by lra.
    unfold spawn_interval, BASE_SPAWN.
    eapply Rlt_le_trans; [|apply Rmax_r]. lra.
  - exists w'. split; [exact Hrun|]. split; [exact Hhp|]. split; [exact He|exact Hs].
Defined.

Section Overdue.
Local Open Scope R_scope.

Lemma spawn_position_accept_rng fuel px py obstacles tries iters g :
  Rltb (distance (fst (fst (sample_candidate g))) (snd (fst (sample_candidate g))) px py)
       300 = false →
  inside_obstacles obstacles (fst (fst (sample_candidate g)))
    (snd (fst (sample_candidate g))) = false →
  spawn_position (S fuel) px py obstacles tries iters g
  = (Some (mkSpawnPos (fst (fst (sample_candidate g))) (snd (fst (sample_candidate g)))
             false (S iters)), snd (sample_candidate g)).
Proof.
  intros H1 H2. cbn -[sample_candidate bind]. unfold bind at 1.
  destruct (sample_candidate g) as [c g']. cbn [fst snd] in *.
  rewrite H1, H2. reflexivity.
Qed.

Lemma sample_candidate_shooter :
  sample_candidate rng_shooter = ((725, 900), mkRng (entropy rng_shooter) 4).
Proof.
  unfold sample_candidate, bind, ret.
  cbn -[Q2R clamp IZR Z.mul Qplus Qmult Qopp Qminus half_bias Z.pow].
  f_equal. eval_Q2R (-75). eval_Q2R (-100). eval_IZR.
  f_equal; rewrite clamp_inside; lra.
Qed.

Lemma make_mob_shooter x y :
  make_mob 0 x y (mkRng (entropy rng_shooter) 4)
  = (mkMob x y 18 47 shooter (8 / 10) 0, mkRng (entropy rng_shooter) 9).
Proof.
  unfold make_mob, bind, ret.
  cbn -[Q2R IZR Qplus Qmult Qopp Qminus Z.pow Rplus Rmult].
  f_equal. eval_Q2R (-4). eval_Q2R (-8). eval_Q2R (8 / 10).
  f_equal; lra.
Qed.

Lemma spawn_mob_shooter :
  spawn_mob 0 1200 900 [] rng_shooter
  = (Some (mkMob 725 900 18 47 shooter (8 / 10) 0), mkRng (entropy rng_shooter) 9).
Proof.
  unfold spawn_mob, spawn_mob_fuel. unfold bind at 1.
  pose proof (spawn_position_accept_rng 500 1200 900 [] 0 0 rng_shooter) as H.
  rewrite sample_candidate_shooter in H. cbn [fst snd] in H.
  change SPAWN_FUEL with (S 500). rewrite H; [|apply Rltb_false|reflexivity].
  - cbn [sp_x sp_y]. unfold bind.
    rewrite make_mob_shooter. reflexivity.
  - unfold distance. replace (900 - 900) with 0 by lra. rewrite hypot_axis.
    rewrite Rabs_left by lra. lra.
Qed.

Lemma spawn_loop_step fuel minute p obs interval acc ms g m g' :
  interval <= acc →
  spawn_mob minute (p_x p) (p_y p) obs g = (Some m, g') →
  spawn_loop (S fuel) minute p obs interval acc ms g
  = spawn_loop fuel minute p obs interval (acc - interval) (ms ++ [m]) g'.
Proof.
  intros Hi Hm. cbn [spawn_loop]. rewrite (proj2 (Rleb_true _ _) Hi).
  unfold bind at 1. by rewrite Hm.
Qed.

Lemma update_mobs_shooter pl g :
  p_x pl = 1200 → p_y pl = 900 →
  ∃ ms g',
    update_mobs 1 0 1 0 [] [mkMob 725 900 18 47 shooter (8 / 10) 0]
      (mkScene pl [] []) g
    = (ms, mkScene pl [mkProjectile 772 900 420 0 420 18 owner_mob 6] [], g').
Proof.
  intros Hx Hy. cbn [update_mobs lookup list_lookup]. unfold update_mob.
  cbn [mob_type set_mob_cooldown mob_cooldown mob_x mob_y mob_hp mob_speed mob_id].
  replace (Rmax 0 (8 / 10 - 1)) with 0 by (rewrite Rmax_left; lra).
  unfold update_shooter, toward.
  cbn [sc_player mob_type set_mob_cooldown mob_cooldown mob_x mob_y mob_hp mob_speed
       mob_id].
  rewrite Hx, Hy.
  replace (900 - 900) with 0 by lra. rewrite hypot_axis.
  replace (Rabs (1200 - 725)) with 475 by (rewrite Rabs_right by lra; lra).
  destruct (Req_EM_T 475 0) as [?|_]; [lra|].
  rewrite (proj2 (Rltb_true 380 475)) by lra.
  cbn [approach_angles try_angles rotate_toward fst snd attempt_translate blocked
       existsb mob_x mob_y mob_speed moved_to set_mob_position mob_cooldown].
  rewrite cos_0, sin_0.
  cbn [mob_type set_mob_cooldown set_mob_position mob_cooldown mob_x mob_y mob_hp
       mob_speed mob_id].
  rewrite (proj2 (Rleb_true 0 0)), (proj2 (Rleb_true 475 700)) by lra.
  cbn [andb]. unfold bind, ret.
  match goal with |- context [uniform ?a ?b g] =>
    destruct (uniform a b g) as [cd g1] end.
  cbn [fst snd mob_hp set_mob_cooldown set_mob_position mob_x mob_y sc_projectiles
       sc_pools sc_player app].
  rewrite (proj2 (Rleb_false 18 0)) by lra.
  cbn [update_mobs ret]. eexists _, _. f_equal. f_equal. f_equal. f_equal.
  eval_IZR. f_equal; try (rewrite clamp_inside by lra); lra.
Qed.

Lemma update_projectiles_hit pl ms :
  p_x pl = 1200 → p_y pl = 900 →
  update_projectiles 1 0 1 [] [mkProjectile 772 900 420 0 420 18 owner_mob 6] pl ms
  = ([], set_hp pl (p_hp pl - 18), ms).
Proof.
  intros Hx Hy. cbn [update_projectiles lookup list_lookup advance pr_x pr_y pr_vx pr_vy
    pr_speed pr_dmg pr_owner pr_ttl list_insert insert].
  rewrite (proj2 (Rleb_false (6 - 1) 0)) by lra.
  unfold in_world. eval_IZR.
  rewrite !(proj2 (Rleb_true _ _)) by lra.
  cbn [andb negb orb blocked existsb is_owner_mob]. rewrite Hx, Hy.
  assert (Hd : distance (772 + 420 * 1) (900 + 0 * 1) 1200 900 = 8).
  { unfold distance. replace (900 + 0 * 1 - 900) with 0 by lra. rewrite hypot_axis.
    rewrite Rabs_left by lra. lra. }
  rewrite Hd, (proj2 (Rleb_true 8 22)) by lra.
  unfold remove_or_keep. cbn [list_remove].
  destruct (projectile_eq_dec _ _); [reflexivity|done].
Qed.


Lemma spawn_interval_first : spawn_interval 0 = 17 / 10.
Proof. unfold spawn_interval, BASE_SPAWN. rewrite Rmax_right; lra. Qed.

Lemma frame_overdue w' :
  frame long_frame world_overdue = Some w' → p_hp (player w') = 100 - 18.
Proof.
  intros Hf.
  destruct (frame_playing long_frame world_overdue w' eq_refl Hf)
    as (run & w1 & Hb & ->).
  destruct (draw_camera_fields w1) as (-> & _).
  assert (Hdt : dt_of long_frame = 1)
    by (unfold dt_of, long_frame; cbn [tick_ms]; lra).
  rewrite Hdt in Hb. unfold playing_block in Hb.
  cbn [obstacles player spawn_acc mobs rng projectile_list lava_pools running at_time
       world_overdue elapsed frame_keys long_frame] in Hb.
  rewrite move_player_no_keys, minute_of_first, spawn_interval_first in Hb by lra.
  assert (Hfuel : spawn_fuel (17 / 10) (1 + 1) = 2%nat).
  { unfold spawn_fuel. replace (up ((1 + 1) / (17 / 10))) with 2%Z; [done|].
    apply tech_up; lra. }
  rewrite Hfuel in Hb.
  assert (Hi : 17 / 10 <= 1 + 1) by lra.
  rewrite (spawn_loop_step 1 0 (choose_champion mage new_player) [] (17 / 10) (1 + 1)
             [] rng_shooter _ _ Hi spawn_mob_shooter) in Hb.
  rewrite spawn_loop_below in Hb by lra.
  cbn [app length] in Hb.
  destruct (update_mobs_shooter (choose_champion mage new_player)
              (mkRng (entropy rng_shooter) 9)) as (ms & g' & Hu);
    [cbn; eval_IZR; reflexivity..|].
  rewrite Hu in Hb. cbn [sc_projectiles sc_player sc_pools length] in Hb.
  rewrite update_projectiles_hit in Hb by (cbn; eval_IZR; reflexivity).
  cbn [update_pools] in Hb.
  match type of Hb with context [auto_attack ?d ?p ?l ?ms] =>
    pose proof (auto_attack_hp_xp d p l ms) as [Hhp _];
    destruct (auto_attack d p l ms) as [[pl4 projs4] ms4] end.
  cbn [fst] in Hhp.
  match type of Hb with context [level_up_check ?p ?s] =>
    pose proof (level_up_check_hp p s) as Hhp';
    destruct (level_up_check p s) as [pl5 st5] end.
  cbn [fst] in Hhp'. simplify_eq. cbn [player]. rewrite Hhp', Hhp. reflexivity.
Qed.

End Overdue.

(** C9 as stated fails: nothing in it keeps a mob from being spawned
    during the second.  Here one frame of a full second spawns a shooter
    475 units away; with its cooldown run out it closes in and fires, and
    the projectile reaches the player in the same frame: 18 hit points
    are lost. *)
Lemma idle_second_counterexample :
  ∃ w', run_frames [long_frame] world_overdue = Some w'
    ∧ Forall quiet [long_frame] ∧ total_ms [long_frame] = 1000%Z
    ∧ state world_overdue = playing ∧ running world_overdue = true
    ∧ p_x (player world_overdue) = IZR (WORLD_W / 2)
    ∧ p_y (player world_overdue) = IZR (WORLD_H / 2)
    ∧ p_hp (player world_overdue) = 100%R
    ∧ mobs world_overdue = [] ∧ projectile_list world_overdue = []
    ∧ lava_pools world_overdue = []
    ∧ (elapsed world_overdue + 1 < IZR LEVEL_DURATION_SECONDS)%R
    ∧ (p_xp (player world_overdue) < p_level (player world_overdue) * 5)%Z
    ∧ p_hp (player w') = (100 - 18)%R.
Proof.
  destruct (frame_total long_frame world_overdue) as [w' Hf]. exists w'.
  split_and!; try reflexivity.
  - cbn [run_frames]. change (running world_overdue) with true. cbn iota.
    by rewrite Hf.
  - repeat constructor. discriminate.
  - cbn [elapsed world_overdue]. unfold LEVEL_DURATION_SECONDS. eval_IZR. lra.
  - by apply frame_overdue.
Qed.

(** ** More on the obstacle generator *)

Section GeneratorExtras.
Local Open Scope Z_scope.

Ltac draw_in H :=
  match goal with
  | |- context [bind (randint ?a ?b) _ ?g] =>
      unfold bind at 1;
      pose proof (randint_bounds a b g ltac:(unfold WORLD_W, WORLD_H, GRID_BIAS in *; lia))
        as H;
      destruct (randint a b g) as [? ?]; simpl in H
  end.

Ltac draw_any :=
  match goal with
  | |- context [bind ?m _ ?g] => unfold bind at 1; destruct (m g) as [? ?]
  end.

Lemma place_candidates_placed count max_tries candidates obs tries g :
  Forall placed obs →
  Forall placed (fst (place_candidates count max_tries candidates obs tries g)).
Proof.
  revert obs tries g.
  induction candidates as [|[cx cy] rest IH]; intros obs tries g Hobs; simpl; [done|].
  destruct (_ || _); [done|].
  draw_in Hw. draw_in Hh. draw_any. draw_any.
  destruct (colliderect _ center_area) eqn:Hc; [by apply IH|].
  destruct (overlapped _ obs); [by apply IH|].
  match goal with |- context [if ?c then _ else _] => destruct c end; [by apply IH|].
  draw_any. apply IH. apply Forall_app. split; [done|]. apply Forall_singleton.
  split; [|exact Hc].
  unfold in_world_rect, left, right, top, bottom, clampZ, WORLD_W, WORLD_H in *.
  simpl. lia.
Qed.

Lemma place_random_placed budget count obs g :
  Forall placed obs → Forall placed (fst (place_random budget count obs g)).
Proof.
  revert obs g. induction budget as [|budget IH]; intros obs g Hobs; simpl; [done|].
  destruct (_ <=? _); [done|].
  draw_in Hw. draw_in Hh. draw_in Hx. draw_in Hy.
  destruct (colliderect _ center_area) eqn:Hc; [by apply IH|].
  destruct (overlapped _ obs); [by apply IH|].
  match goal with |- context [if ?c then _ else _] => destruct c end; [by apply IH|].
  draw_any. apply IH. apply Forall_app. split; [done|]. apply Forall_singleton.
  split; [|exact Hc].
  unfold in_world_rect, left, right, top, bottom, WORLD_W, WORLD_H in *. simpl. lia.
Qed.

Lemma place_candidates_length count max_tries candidates obs tries g :
  (length (fst (place_candidates count max_tries candidates obs tries g))
   ≤ length obs `max` Z.to_nat count)%nat.
Proof.
  revert obs tries g.
  induction candidates as [|[cx cy] rest IH]; intros obs tries g; simpl; [lia|].
  destruct (count <=? Z.of_nat (length obs)) eqn:Hc; simpl; [lia|].
  destruct (max_tries <=? tries); simpl; [lia|].
  repeat draw_any.
  repeat (match goal with |- context [if ?c then _ else _] => destruct c end;
          [by apply IH|]).
  draw_any. etrans; [apply IH|]. rewrite length_app. simpl.
  apply Z.leb_gt in Hc. lia.
Qed.

Lemma place_random_length budget count obs g :
  (length (fst (place_random budget count obs g))
   ≤ length obs `max` Z.to_nat count)%nat.
Proof.
  revert obs g. induction budget as [|budget IH]; intros obs g; simpl; [lia|].
  destruct (count <=? Z.of_nat (length obs)) eqn:Hc; simpl; [lia|].
  repeat draw_any.
  repeat (match goal with |- context [if ?c then _ else _] => destruct c end;
          [by apply IH|]).
  draw_any. etrans; [apply IH|]. rewrite length_app. simpl.
  apply Z.leb_gt in Hc. lia.
Qed.

(** What the two placement loops hand to the post-process. *)
Lemma generate_obstacles_placed count g :
  ∃ placed_obs res,
    fst (generate_obstacles count g) = Some res
    ∧ prune_clusters placed_obs = Some res
    ∧ Forall placed placed_obs
    ∧ (length placed_obs ≤ Z.to_nat count)%nat.
Proof.
  unfold generate_obstacles. unfold bind at 1. destruct (grid_candidates g) as [c1 g1].
  unfold bind at 1. destruct (shuffle c1 g1) as [c2 g2].
  unfold bind at 1.
  pose proof (place_candidates_placed count (Z.of_nat (length c2) * 6) c2 [] 0 g2) as H1.
  pose proof (place_candidates_length count (Z.of_nat (length c2) * 6) c2 [] 0 g2) as L1.
  destruct (place_candidates _ _ c2 [] 0 g2) as [obs1 g3]. simpl in H1, L1.
  unfold bind at 1.
  pose proof (place_random_placed (Z.to_nat (count * 12)) count obs1 g3) as H2.
  pose proof (place_random_length (Z.to_nat (count * 12)) count obs1 g3) as L2.
  destruct (place_random _ count obs1 g3) as [obs2 g4]. simpl in *.
  destruct (prune_clusters_some obs2) as (comps & _ & Hp).
  exists obs2. eexists. split_and!; [exact Hp|exact Hp| |lia].
  apply H2, H1. constructor.
Qed.

Lemma Forall_sublist {A} (P : A → Prop) (l k : list A) :
  l `sublist_of` k → Forall P k → Forall P l.
Proof.
  intros Hs. rewrite !Forall_forall. intros H x Hx. apply H. by eapply elem_of_sublist.
Qed.

Lemma generate_obstacles_all_placed count g :
  ∃ res, fst (generate_obstacles count g) = Some res
         ∧ Forall placed res ∧ (length res ≤ Z.to_nat count)%nat.
Proof.
  destruct (generate_obstacles_placed count g) as (obs & res & Hg & Hp & Hf & Hl).
  exists res. split; [exact Hg|].
  pose proof (prune_clusters_sublist _ _ Hp) as Hs. split.
  - by eapply Forall_sublist.
  - apply sublist_length in Hs. lia.
Qed.

End GeneratorExtras.

(** X1.  Whatever the random choices, every obstacle returned by
    [generate_obstacles] is between 40 and 160 wide and between 40 and
    140 high and lies inside the world rectangle. *)
Theorem generate_obstacles_in_world (count : Z) (g : Rng) :
  ∃ res, fst (generate_obstacles count g) = Some res ∧ Forall in_world_rect res.
Proof.
  destruct (generate_obstacles_all_placed count g) as (res & Hg & Hf & _).
  exists res. split; [exact Hg|]. eapply Forall_impl; [exact Hf|]. by intros o [? _].
Qed.

(** X3.  [generate_obstacles] never returns more than [count] obstacles
    (none for a [count] that is not positive). *)
Theorem generate_obstacles_at_most_count (count : Z) (g : Rng) :
  ∃ res, fst (generate_obstacles count g) = Some res
         ∧ length res ≤ Z.to_nat count.
Proof.
  destruct (generate_obstacles_all_placed count g) as (res & Hg & _ & Hl).
  exists res. split; [exact Hg|exact Hl].
Qed.

Section StartFree.
Local Open Scope R_scope.

Lemma hypot_ge_l x y : Rabs x <= hypot x y.
Proof.
  unfold hypot. rewrite <- sqrt_Rsqr_abs. apply sqrt_le_1_alt.
  unfold Rsqr. pose proof (Rle_0_sqr y) as H. unfold Rsqr in H. lra.
Qed.

Lemma hypot_ge_r x y : Rabs y <= hypot x y.
Proof.
  unfold hypot. rewrite <- sqrt_Rsqr_abs. apply sqrt_le_1_alt.
  unfold Rsqr. pose proof (Rle_0_sqr x) as H. unfold Rsqr in H. lra.
Qed.

(** A rectangle of positive size that misses the central area is at
    least 300 away from the centre of the world. *)
Lemma clear_of_center_far o (r : R) :
  placed o → r < 300 → circle_rect_collision 1200 900 r (rect o) = false.
Proof.
  intros [Hin Hc] Hr. unfold circle_rect_collision. apply Rleb_false.
  unfold clear_of_center in Hc.
  change center_area with (mkRect 800 600 800 600) in Hc. unfold colliderect in Hc.
  unfold in_world_rect, left, right, top, bottom in *. simpl in Hc.
  destruct (rw (rect o) =? 0)%Z eqn:E1; [apply Z.eqb_eq in E1; lia|].
  destruct (rh (rect o) =? 0)%Z eqn:E2; [apply Z.eqb_eq in E2; lia|].
  simpl in Hc. rewrite !andb_false_iff, !Z.ltb_ge in Hc.
  set (x0 := rx (rect o)) in *. set (y0 := ry (rect o)) in *.
  set (w := rw (rect o)) in *. set (h := rh (rect o)) in *.
  assert (Hx0 : IZR x0 <= IZR (x0 + w)) by (apply IZR_le; lia).
  assert (Hy0 : IZR y0 <= IZR (y0 + h)) by (apply IZR_le; lia).
  unfold distance.
  destruct Hc as [[[Hc|Hc]|Hc]|Hc].
  - (* the rectangle starts right of the area *)
    assert (H1 : (1600 <= x0)%Z) by lia. apply IZR_le in H1.
    eapply Rlt_le_trans; [|apply hypot_ge_l].
    rewrite clamp_below by lra. rewrite Rabs_left by lra. lra.
  - assert (H1 : (1200 <= y0)%Z) by lia. apply IZR_le in H1.
    eapply Rlt_le_trans; [|apply hypot_ge_r].
    rewrite clamp_below by lra. rewrite Rabs_left by lra. lra.
  - assert (H1 : (x0 + w <= 800)%Z) by lia. apply IZR_le in H1.
    eapply Rlt_le_trans; [|apply hypot_ge_l].
    unfold clamp. rewrite Rmin_left by lra. rewrite Rmax_right by lra.
    rewrite Rabs_right by lra. lra.
  - assert (H1 : (y0 + h <= 600)%Z) by lia. apply IZR_le in H1.
    eapply Rlt_le_trans; [|apply hypot_ge_r].
    unfold clamp. rewrite Rmin_left by lra. rewrite Rmax_right by lra.
    rewrite Rabs_right by lra. lra.
Qed.

End StartFree.

(** X2.  No obstacle returned by [generate_obstacles] touches the
    central spawn area, so the player's start position is free: there
    the collision test of the movement code finds no obstacle, whatever
    the random choices. *)
Theorem generate_obstacles_start_free (count : Z) (g : Rng) :
  ∃ res, fst (generate_obstacles count g) = Some res
         ∧ Forall clear_of_center res
         ∧ blocked res (p_x new_player) (p_y new_player) (IZR PLAYER_RADIUS) = false.
Proof.
  destruct (generate_obstacles_all_placed count g) as (res & Hg & Hf & _).
  exists res. split; [exact Hg|]. split.
  - eapply Forall_impl; [exact Hf|]. by intros o [_ ?].
  - unfold blocked. apply not_true_is_false. intros (o & Ho & Hc)%existsb_exists.
    rewrite Forall_forall in Hf. apply list_elem_of_In in Ho.
    change (p_x new_player) with (IZR (WORLD_W / 2)) in Hc.
    change (p_y new_player) with (IZR (WORLD_H / 2)) in Hc.
    change (IZR (WORLD_W / 2)) with 1200%R in Hc.
    change (IZR (WORLD_H / 2)) with 900%R in Hc.
    rewrite (clear_of_center_far o (IZR PLAYER_RADIUS)) in Hc; [done|by apply Hf|].
    unfold PLAYER_RADIUS. lra.
Qed.

(** X4.  The adjacency lists built by [build_adj_list] describe a
    symmetric, irreflexive relation on the indices of the list: [v] is in
    [adj[u]] exactly when [u] is in [adj[v]], that is when [u] and [v]
    differ and the two centres are nearer than [NEAR_RADIUS]; and there
    is one list per obstacle. *)
Theorem build_adj_list_symmetric (ob_list : list Obstacle) (u v : nat) :
  length (build_adj_list ob_list) = length ob_list
  ∧ (edge (build_adj_list ob_list) u v ↔ edge (build_adj_list ob_list) v u)
  ∧ (edge (build_adj_list ob_list) u v ↔ u ≠ v ∧ near_idx ob_list u v = true)
  ∧ ¬ edge (build_adj_list ob_list) u u.
Proof.
  split; [apply length_build_adj_list|]. unfold edge.
  rewrite !nbrs_build_adj_list. split_and!.
  - rewrite (near_idx_sym ob_list v u). split; intros [? ?]; split; auto.
  - done.
  - by intros [? _].
Qed.

Section Idempotent.

Lemma prune_clusters_fixed obs :
  clusters_bounded obs → prune_clusters obs = Some obs.
Proof.
  intros Hb. destruct (prune_clusters_some obs) as (comps & Hc & Hp).
  rewrite Hp. f_equal.
  destruct (connected_components_spec _ comps
              (edge_build_sym obs) (edge_build_range obs) Hc)
    as (Hnd & Hcov & _ & Hlk).
  assert (He : to_remove_indices (build_adj_list obs) comps = ∅).
  { apply set_eq. intros r. rewrite elem_of_to_remove_indices. split.
    - intros (c & Hcin & Hr). exfalso.
      assert (Hlen : length c ≤ MAX_NEARBY_OBSTACLES).
      { apply Hb.
        - by eapply NoDup_concat_elem.
        - intros i Hi. rewrite <- (length_build_adj_list obs). apply Hcov.
          apply elem_of_concat. eauto.
        - intros i j Hi Hj. apply reach_build_adj_list.
          rewrite Forall_forall in Hlk. by apply (Hlk c Hcin). }
      unfold marked_of in Hr.
      destruct (MAX_NEARBY_OBSTACLES <? length c)%nat eqn:E.
      + apply Nat.ltb_lt in E. lia.
      + by apply elem_of_nil in Hr.
    - intros Hr. by apply elem_of_empty in Hr. }
  rewrite He. apply keep_unmarked_empty.
Qed.

End Idempotent.

(** X5.  The post-process of [generate_obstacles] is idempotent: run
    again on the returned list, the component search and the pruning
    remove nothing. *)
Theorem generate_obstacles_pruned_once (count : Z) (g : Rng) :
  ∃ res, fst (generate_obstacles count g) = Some res
         ∧ prune_clusters res = Some res.
Proof.
  destruct (generate_obstacles_prune count g) as [placed_obs Hg].
  destruct (prune_clusters_bounded placed_obs) as (res & Hp & Hb).
  exists res. split; [by rewrite Hg|]. by apply prune_clusters_fixed.
Qed.

(** ** The geometry helpers and the spawner, further properties *)

Section HelperExtras.
Local Open Scope R_scope.

Lemma clamp_inverted v a b : b < a → clamp v a b = a.
Proof.
  intros. unfold clamp, Rmax, Rmin.
  destruct (Rle_dec b v); destruct (Rle_dec a _); lra.
Qed.

Lemma hypot_eq_0 x y : hypot x y = 0 ↔ x = 0 ∧ y = 0.
Proof.
  split.
  - intros H. pose proof (hypot_ge_l x y) as Hx. pose proof (hypot_ge_r x y) as Hy.
    rewrite H in Hx, Hy. unfold Rabs in Hx, Hy.
    destruct (Rcase_abs x), (Rcase_abs y); split; lra.
  - intros [-> ->]. apply hypot_zero.
Qed.

Lemma hypot_opp x y : hypot (- x) (- y) = hypot x y.
Proof. unfold hypot. f_equal. ring. Qed.

(** The unit interval of [random()], as real numbers. *)
Lemma random_unit g : 0 <= Q2R (fst (random g)) < 1.
Proof.
  unfold random, bind, ret, next_raw. cbn [fst]. unfold Q2R. cbn [Qnum Qden].
  pose proof (Z.mod_pos_bound (entropy g (cursor g)) (2 ^ 53) eq_refl) as [H0 H1].
  apply IZR_le in H0. apply IZR_lt in H1.
  change (Z.pos (2 ^ 53)) with (2 ^ 53)%Z.
  assert (Hp : 0 < IZR (2 ^ 53)) by (apply IZR_lt; reflexivity).
  split.
  - apply Rmult_le_pos; [done|]. left. by apply Rinv_0_lt_compat.
  - apply Rmult_lt_reg_r with (IZR (2 ^ 53)); [done|]. field_simplify; lra.
Qed.

Lemma uniform_real a b g :
  Q2R (fst (uniform a b g)) = Q2R a + (Q2R b - Q2R a) * Q2R (fst (random g))
  ∧ snd (uniform a b g) = snd (random g).
Proof.
  unfold uniform, bind, ret. destruct (random g) as [u g']. cbn [fst snd].
  split; [|done]. rewrite Q2R_plus, Q2R_mult, Q2R_minus. done.
Qed.

Lemma uniform_range a b g :
  (a < b)%Q → Q2R a <= Q2R (fst (uniform a b g)) <= Q2R b.
Proof.
  intros Hab%Qlt_Rlt. destruct (uniform_real a b g) as [-> _].
  pose proof (random_unit g). nra.
Qed.

End HelperExtras.

(** X6.  [clamp(v, a, b)] lies between the bounds when they are in
    order, returns [v] itself when [v] is between them, is idempotent,
    and returns the lower bound [a] when the bounds are inverted. *)
Theorem clamp_range (v a b : R) :
  ((a <= b → a <= clamp v a b <= b)
   ∧ (a <= v <= b → clamp v a b = v)
   ∧ (b < a → clamp v a b = a)
   ∧ clamp (clamp v a b) a b = clamp v a b)%R.
Proof.
  split_and!.
  - apply clamp_between.
  - apply clamp_inside.
  - apply clamp_inverted.
  - destruct (Rle_lt_dec a b) as [Hab|Hab].
    + apply clamp_inside. by apply clamp_between.
    + by rewrite !clamp_inverted.
Qed.

(** X7.  [distance] is symmetric, never negative, and zero exactly
    between a point and itself. *)
Theorem distance_metric (ax ay bx by_ : R) :
  (distance ax ay bx by_ = distance bx by_ ax ay
   ∧ 0 <= distance ax ay bx by_
   ∧ (distance ax ay bx by_ = 0 ↔ ax = bx ∧ ay = by_))%R.
Proof.
  unfold distance. split_and!.
  - rewrite <- (hypot_opp (bx - ax)). f_equal; lra.
  - apply hypot_nonneg.
  - rewrite hypot_eq_0. split; intros [? ?]; split; lra.
Qed.

(** X8.  [circle_rect_collision] grows with the radius, and a circle
    whose centre is inside the rectangle (edges included) collides
    whatever its radius, down to 0. *)
Theorem circle_rect_collision_monotone (cx cy r r' : R) (rc : Rect) :
  ((r <= r' → circle_rect_collision cx cy r rc = true →
    circle_rect_collision cx cy r' rc = true)
   ∧ (IZR (left rc) <= cx <= IZR (right rc) → IZR (top rc) <= cy <= IZR (bottom rc) →
      0 <= r → circle_rect_collision cx cy r rc = true))%R.
Proof.
  unfold circle_rect_collision. split.
  - intros Hr H%Rleb_true. apply Rleb_true. lra.
  - intros Hx Hy Hr. apply Rleb_true. rewrite !clamp_inside by done.
    unfold distance. rewrite !Rminus_diag, hypot_zero. done.
Qed.

Section SpawnerExtras.
Local Open Scope R_scope.

Lemma sample_candidate_in_world g :
  0 <= fst (fst (sample_candidate g)) <= IZR WORLD_W
  ∧ 0 <= snd (fst (sample_candidate g)) <= IZR WORLD_H.
Proof.
  unfold sample_candidate, bind, ret.
  repeat match goal with |- context [let '(_, _) := ?x in _] => destruct x end.
  cbn [fst snd]. split; apply clamp_between; apply IZR_le; done.
Qed.

Lemma fallback_position_in_world n g pos :
  fst (fallback_position n g) = Some pos →
  0 <= sp_x pos <= IZR WORLD_W ∧ 0 <= sp_y pos <= IZR WORLD_H.
Proof.
  unfold fallback_position. unfold bind at 1.
  pose proof (uniform_range 0 (inject_Z WORLD_W) g eq_refl) as Hx.
  destruct (uniform 0 (inject_Z WORLD_W) g) as [x g1]. unfold bind at 1.
  pose proof (uniform_range 0 (inject_Z WORLD_H) g1 eq_refl) as Hy.
  destruct (uniform 0 (inject_Z WORLD_H) g1) as [y g2]. unfold ret. cbn [fst] in *.
  intros [= <-]. cbn [sp_x sp_y].
  revert Hx Hy. eval_Q2R 0. eval_Q2R 2400. eval_Q2R 1800. eval_IZR.
  intros Hx Hy.
  lra.
Qed.

Lemma spawn_position_in_world fuel px py obstacles tries iters g pos :
  fst (spawn_position fuel px py obstacles tries iters g) = Some pos →
  0 <= sp_x pos <= IZR WORLD_W ∧ 0 <= sp_y pos <= IZR WORLD_H.
Proof.
  revert tries iters g. induction fuel as [|fuel IH]; intros tries iters g;
    cbn [spawn_position]; [done|].
  unfold bind at 1. pose proof (sample_candidate_in_world g) as Hc.
  destruct (sample_candidate g) as [c g1]. cbn [fst snd] in *.
  destruct (Rltb _ 300).
  - destruct (300 <? tries + 1)%Z; [apply fallback_position_in_world|apply IH].
  - destruct (inside_obstacles _ _ _).
    + destruct (500 <? tries + 1)%Z; [apply fallback_position_in_world|apply IH].
    + unfold ret. cbn [fst]. intros [= <-]. done.
Qed.

(** The drawn fields of a new mob. *)
Lemma make_mob_fields minute x y g m g' :
  make_mob minute x y g = (m, g') →
  mob_x m = x ∧ mob_y m = y
  ∧ 18 + IZR minute * 15 <= mob_hp m <= 28 + IZR minute * 15
  ∧ 47 + IZR minute * 8 <= mob_speed m <= 63 + IZR minute * 8
  ∧ 8 / 10 <= mob_cooldown m <= 22 / 10
  ∧ (0 <= mob_id m <= 999999)%Z.
Proof.
  unfold make_mob. unfold bind at 1. destruct (choose_enemy_type g) as [t g1].
  unfold bind at 1. pose proof (uniform_range (- (4)) 6 g1 eq_refl) as Hhp.
  destruct (uniform (- (4)) 6 g1) as [jhp g2].
  unfold bind at 1. pose proof (uniform_range (- (8)) 8 g2 eq_refl) as Hs.
  destruct (uniform (- (8)) 8 g2) as [js g3].
  unfold bind at 1. pose proof (uniform_range (8 # 10) (22 # 10) g3 eq_refl) as Hc.
  destruct (uniform (8 # 10) (22 # 10) g3) as [jc g4].
  unfold bind at 1. pose proof (randint_bounds 0 999999 g4 ltac:(lia)) as Hid.
  destruct (randint 0 999999 g4) as [id g5]. unfold ret. intros [= <- <-].
  cbn [fst mob_x mob_y mob_hp mob_speed mob_cooldown mob_id] in *.
  revert Hhp Hs Hc.
  eval_Q2R (-4). eval_Q2R 6. eval_Q2R (-8). eval_Q2R 8. eval_Q2R (8 / 10).
  eval_Q2R (22 / 10). intros Hhp Hs Hc.
  split_and!; try done; try lra; lia.
Qed.

Lemma spawn_mob_fields minute px py obstacles g :
  ∃ mob pos,
    fst (spawn_mob minute px py obstacles g) = Some mob
    ∧ mob_x mob = sp_x pos ∧ mob_y mob = sp_y pos
    ∧ (0 <= sp_x pos <= IZR WORLD_W ∧ 0 <= sp_y pos <= IZR WORLD_H)
    ∧ 18 + IZR minute * 15 <= mob_hp mob <= 28 + IZR minute * 15
    ∧ 47 + IZR minute * 8 <= mob_speed mob <= 63 + IZR minute * 8
    ∧ 8 / 10 <= mob_cooldown mob <= 22 / 10
    ∧ (0 <= mob_id mob <= 999999)%Z.
Proof.
  unfold spawn_mob.
  assert (Hf : 501 ≤ SPAWN_FUEL) by (unfold SPAWN_FUEL; lia).
  generalize dependent SPAWN_FUEL. intros fuel Hf.
  destruct (spawn_mob_fuel_total fuel minute px py obstacles g Hf)
    as (mob & pos & Hm & Hp & _).
  exists mob, pos. split; [exact Hm|].
  pose proof (spawn_position_in_world _ _ _ _ _ _ _ _ Hp) as Hw.
  rewrite spawn_mob_fuel_unfold in Hm.
  destruct (spawn_position fuel px py obstacles 0 0 g) as [[p|] g'];
    cbn [fst] in Hp; [|done].
  injection Hp as ->.
  destruct (make_mob minute (sp_x pos) (sp_y pos) g') as [m g''] eqn:Hmk.
  cbn [fst] in Hm. assert (m = mob) as -> by congruence.
  apply make_mob_fields in Hmk as (Hx & Hy & Hhp & Hs & Hc & Hid).
  split; [exact Hx|]. split; [exact Hy|]. split; [exact Hw|].
  split; [exact Hhp|]. split; [exact Hs|]. split; [exact Hc|exact Hid].
Qed.

End SpawnerExtras.

(** X9.  Whatever path the retry loop of [spawn_mob] takes, the accepted
    candidate or one of the two fallbacks, the mob is placed inside the
    world rectangle. *)
Theorem spawn_mob_in_world (minute : Z) (player_x player_y : R)
    (obstacles : list Obstacle) (g : Rng) :
  ∃ mob, fst (spawn_mob minute player_x player_y obstacles g) = Some mob
    ∧ (0 <= mob_x mob <= IZR WORLD_W)%R ∧ (0 <= mob_y mob <= IZR WORLD_H)%R.
Proof.
  destruct (spawn_mob_fields minute player_x player_y obstacles g)
    as (mob & pos & Hm & Hx & Hy & [Hwx Hwy] & _).
  exists mob. rewrite Hx, Hy. split; [exact Hm|]. split; [exact Hwx|exact Hwy].
Qed.

(** X10.  The statistics of a spawned mob grow with the minute and stay
    in fixed bands around their base values, ends included: hit points
    in [18 + 15m, 28 + 15m], speed in [47 + 8m, 63 + 8m], first cooldown
    in [0.8, 2.2], and the identifier in [0, 999999]. *)
Theorem spawn_mob_stats (minute : Z) (player_x player_y : R)
    (obstacles : list Obstacle) (g : Rng) :
  ∃ mob, fst (spawn_mob minute player_x player_y obstacles g) = Some mob
    ∧ (18 + IZR minute * 15 <= mob_hp mob <= 28 + IZR minute * 15)%R
    ∧ (47 + IZR minute * 8 <= mob_speed mob <= 63 + IZR minute * 8)%R
    ∧ (8 / 10 <= mob_cooldown mob <= 22 / 10)%R
    ∧ (0 <= mob_id mob <= 999999)%Z.
Proof.
  destruct (spawn_mob_fields minute player_x player_y obstacles g)
    as (mob & pos & Hm & _ & _ & _ & Hhp & Hs & Hc & Hid).
  exists mob. split; [exact Hm|]. split; [exact Hhp|]. split; [exact Hs|].
  split; [exact Hc|exact Hid].
Qed.

(** ** The loop: events, movement, camera, spawning *)

Section LoopExtras.
Local Open Scope R_scope.

(** X11.  Whatever the state, after the events of a frame [running] is
    true exactly when it was true before and no event was [QUIT] or the
    Escape key: the handler can stop the loop and never restarts it. *)
Theorem events_stop_the_loop (evs : list Event) (run : bool) (st : State)
    (p : Player) :
  fst (fst (fold_left handle_event evs (run, st, p)))
  = run && forallb (fun ev => negb (stops ev)) evs.
Proof.
  revert run st p. induction evs as [|ev evs IH]; intros run st p; cbn [fold_left forallb].
  - by rewrite andb_true_r.
  - destruct (handle_event (run, st, p) ev) as [[run' st'] p'] eqn:He.
    rewrite IH. rewrite andb_assoc. f_equal.
    destruct ev as [|key|]; cbn [handle_event stops negb] in *.
    + simplify_eq. by rewrite andb_false_r.
    + destruct (is_levelup st && bonus_key key); simplify_eq;
        destruct key; cbn; by rewrite ?andb_false_r, ?andb_true_r.
    + simplify_eq. by rewrite andb_true_r.
Qed.

Lemma handle_events_menu_open evs run p :
  forallb (fun ev => negb (picks_bonus ev)) evs = true →
  ∃ run', fold_left handle_event evs (run, levelup, p) = (run', levelup, p).
Proof.
  revert run. induction evs as [|ev evs IH]; intros run; cbn [fold_left forallb];
    [eauto|].
  intros [Hev Hevs]%andb_true_iff. apply negb_true_iff in Hev.
  destruct ev as [|key|]; cbn [handle_event picks_bonus is_levelup andb] in *.
  - by apply IH.
  - rewrite Hev. by apply IH.
  - by apply IH.
Qed.

(** X12.  While the level-up menu is open and no bonus key (1, 2, 3) is
    among the events, a frame changes nothing of the simulation: the
    state stays ['levelup'] and the player, the mobs, the projectiles,
    the lava pools, the spawn accumulator and the random generator are
    the same. *)
Theorem levelup_menu_suspends (inp : FrameInput) (w : World) :
  state w = levelup →
  forallb (fun ev => negb (picks_bonus ev)) (frame_events inp) = true →
  ∃ w', frame inp w = Some w'
    ∧ state w' = levelup ∧ player w' = player w ∧ mobs w' = mobs w
    ∧ projectile_list w' = projectile_list w ∧ lava_pools w' = lava_pools w
    ∧ spawn_acc w' = spawn_acc w ∧ rng w' = rng w.
Proof.
  intros Hs Hev. unfold frame. rewrite Hs.
  destruct (handle_events_menu_open (frame_events inp) (running w) (player w) Hev)
    as [run ->].
  cbn [is_playing]. eexists. split; [done|].
  match goal with |- context [draw_camera ?w0] =>
    pose proof (draw_camera_fields w0) as Hd end.
  destruct_and!. by split_and!.
Qed.

(** *** Movement *)

Lemma axis_range a b : (-1 <= axis a b <= 1)%Z.
Proof. unfold axis. destruct a, b; simpl; lia. Qed.

Lemma move_player_cases keys dt obs p :
  move_player keys dt obs p = p
  ∨ ∃ dx dy : Z,
      (dx ≠ 0 ∨ dy ≠ 0)%Z ∧ (-1 <= dx <= 1)%Z ∧ (-1 <= dy <= 1)%Z
      ∧ move_player keys dt obs p
        = set_position p
            (clamp (p_x p + IZR dx / hypot (IZR dx) (IZR dy) * p_speed p * dt)
               0 (IZR WORLD_W))
            (clamp (p_y p + IZR dy / hypot (IZR dx) (IZR dy) * p_speed p * dt)
               0 (IZR WORLD_H)).
Proof.
  unfold move_player.
  set (dx := axis _ _). set (dy := axis _ _).
  destruct (negb (dx =? 0)%Z || negb (dy =? 0)%Z) eqn:Hd; [|by left].
  destruct (blocked _ _ _ _); [by left|]. right. exists dx, dy.
  split; [|split; [apply axis_range|split; [apply axis_range|done]]].
  apply orb_true_iff in Hd as [H|H]; apply negb_true_iff, Z.eqb_neq in H; auto.
Qed.

Lemma hypot_scale a b k : hypot (a * k) (b * k) = hypot a b * Rabs k.
Proof.
  unfold hypot. rewrite <- sqrt_Rsqr_abs, <- sqrt_mult_alt.
  - f_equal. unfold Rsqr. ring.
  - pose proof (Rle_0_sqr a) as Ha. pose proof (Rle_0_sqr b) as Hb.
    unfold Rsqr in *. lra.
Qed.

Lemma hypot_pos x y : x ≠ 0 ∨ y ≠ 0 → 0 < hypot x y.
Proof.
  intros H. destruct (hypot_nonneg x y) as [Hp|Hz]; [done|].
  symmetry in Hz. apply hypot_eq_0 in Hz. tauto.
Qed.

(** A vector divided by its length has length 1. *)
Lemma hypot_unit x y :
  x ≠ 0 ∨ y ≠ 0 → hypot (x / hypot x y) (y / hypot x y) = 1.
Proof.
  intros H. pose proof (hypot_pos x y H) as Hp.
  unfold Rdiv. rewrite hypot_scale. rewrite Rabs_right.
  - field. lra.
  - left. by apply Rinv_0_lt_compat.
Qed.

Lemma clamp_strict v a b : a < clamp v a b < b → clamp v a b = v.
Proof.
  unfold clamp, Rmax, Rmin.
  destruct (Rle_dec b v); destruct (Rle_dec a _); lra.
Qed.

(** X14.  The direction is normalised: when the player moves and ends
    strictly inside the world, the step has length [speed * dt] (in
    absolute value), along an axis and diagonally alike. *)
Theorem move_player_step_length (keys : Keys) (dt : R) (obs : list Obstacle)
    (p : Player) :
  move_player keys dt obs p ≠ p →
  (0 < p_x (move_player keys dt obs p) < IZR WORLD_W)%R →
  (0 < p_y (move_player keys dt obs p) < IZR WORLD_H)%R →
  distance (p_x (move_player keys dt obs p)) (p_y (move_player keys dt obs p))
    (p_x p) (p_y p)
  = Rabs (p_speed p * dt).
Proof.
  intros Hne Hx Hy.
  destruct (move_player_cases keys dt obs p) as [?|(dx & dy & Hd & _ & _ & Hm)];
    [done|].
  rewrite Hm in *. cbn [p_x p_y set_position] in *.
  rewrite clamp_strict by done. rewrite (clamp_strict _ 0 (IZR WORLD_H)) by done.
  unfold distance.
  assert (Hr : IZR dx ≠ 0 ∨ IZR dy ≠ 0).
  { destruct Hd as [H|H]; [left|right]; by apply not_0_IZR. }
  set (h := hypot (IZR dx) (IZR dy)).
  replace (p_x p + IZR dx / h * p_speed p * dt - p_x p)
    with (IZR dx / h * (p_speed p * dt)) by lra.
  replace (p_y p + IZR dy / h * p_speed p * dt - p_y p)
    with (IZR dy / h * (p_speed p * dt)) by lra.
  rewrite hypot_scale. unfold h. rewrite hypot_unit by done. lra.
Qed.

Lemma move_player_in_world keys dt obs p :
  in_world_point (p_x p) (p_y p) →
  in_world_point (p_x (move_player keys dt obs p)) (p_y (move_player keys dt obs p)).
Proof.
  intros Hin.
  destruct (move_player_cases keys dt obs p) as [->|(dx & dy & _ & _ & _ & ->)];
    [done|].
  cbn [p_x p_y set_position]. split; apply clamp_between; apply IZR_le; done.
Qed.

(** *** Camera *)

Lemma camera_x_view p :
  0 <= camera_x p <= IZR (WORLD_W - SCREEN_W)
  ∧ (0 <= p_x p <= IZR WORLD_W → camera_x p <= p_x p <= camera_x p + IZR SCREEN_W).
Proof.
  unfold camera_x. eval_IZR. split; [apply clamp_between; lra|].
  intros H. unfold clamp, Rmax, Rmin.
  destruct (Rle_dec 1600 _); destruct (Rle_dec 0 _); lra.
Qed.

Lemma camera_y_view p :
  0 <= camera_y p <= IZR (WORLD_H - SCREEN_H)
  ∧ (0 <= p_y p <= IZR WORLD_H → camera_y p <= p_y p <= camera_y p + IZR SCREEN_H).
Proof.
  unfold camera_y. eval_IZR. split; [apply clamp_between; lra|].
  intros H. unfold clamp, Rmax, Rmin.
  destruct (Rle_dec 1200 _); destruct (Rle_dec 0 _); lra.
Qed.

(** *** Spawning *)

Lemma spawn_interval_late m : (11 <= m)%Z → spawn_interval m = 4 / 10.
Proof.
  intros H%IZR_le. unfold spawn_interval, BASE_SPAWN. apply Rmax_left. lra.
Qed.

Lemma spawn_interval_max m : (0 <= m)%Z → spawn_interval m <= 17 / 10.
Proof.
  intros H%IZR_le. unfold spawn_interval, BASE_SPAWN. apply Rmax_lub; lra.
Qed.

Lemma spawn_loop_account fuel minute p obs interval acc ms g :
  0 < interval → spawn_fuel interval acc ≤ fuel →
  ∃ acc' new g',
    spawn_loop fuel minute p obs interval acc ms g = (Some (acc', ms ++ new), g')
    ∧ acc' < interval
    ∧ acc = acc' + INR (length new) * interval
    ∧ (new = [] ∨ 0 <= acc').
Proof.
  intros Hi. revert acc ms g.
  induction fuel as [|fuel IH]; intros acc ms g Hf.
  - destruct (Rleb interval acc) eqn:Hc.
    + apply Rleb_true in Hc. exfalso.
      assert (1 <= acc / interval).
      { apply Rmult_le_reg_r with interval; [done|]. field_simplify; lra. }
      pose proof (up_ge_two _ H). unfold spawn_fuel in Hf. lia.
    + simpl. rewrite Hc. apply Rleb_false in Hc.
      exists acc, [], g. rewrite app_nil_r. split_and!; auto. simpl. lra.
  - cbn [spawn_loop]. destruct (Rleb interval acc) eqn:Hc.
    + apply Rleb_true in Hc.
      destruct (spawn_mob_some minute (p_x p) (p_y p) obs g) as (mob & Hm).
      unfold bind at 1.
      destruct (spawn_mob minute (p_x p) (p_y p) obs g) as [m g1].
      cbn [fst] in Hm. subst m.
      destruct (IH (acc - interval) (ms ++ [mob]) g1)
        as (acc' & new & g' & -> & Hlt & Hacc & Hnew).
      { unfold spawn_fuel in *.
        replace ((acc - interval) / interval) with (acc / interval - 1)
          by (field; lra).
        rewrite up_minus_one.
        assert (1 <= acc / interval).
        { apply Rmult_le_reg_r with interval; [done|]. field_simplify; lra. }
        pose proof (up_ge_two _ H). lia. }
      exists acc', (mob :: new), g'. rewrite <- app_assoc. split_and!; try done.
      * cbn [length]. rewrite S_INR. lra.
      * right. destruct Hnew as [->|?]; [|done]. simpl in Hacc. lra.
    + apply Rleb_false in Hc. exists acc, [], g. rewrite app_nil_r.
      split_and!; auto. simpl. lra.
Qed.

End LoopExtras.


Lemma levelup_menu_suspends_witness :
  ∃ w', frame (mkFrameInput 16 [KEYDOWN K_other; OTHER_EVENT] keys_right)
          world_menu_open = Some w'
    ∧ state w' = levelup ∧ player w' = player world_menu_open.
Proof.
  destruct (levelup_menu_suspends
              (mkFrameInput 16 [KEYDOWN K_other; OTHER_EVENT] keys_right)
              world_menu_open eq_refl eq_refl) as (w' & Hf & Hs & Hp & _).
  exists w'. split; [exact Hf|]. split; [exact Hs|exact Hp].
Defined.

(** X13.  The movement code never takes the player out of the world:
    from a position inside the world rectangle the new position is
    inside it again, and the step changes no other field than [x] and
    [y]. *)
Theorem move_player_stays_in_world (keys : Keys) (dt : R) (obs : list Obstacle)
    (p : Player) :
  in_world_point (p_x p) (p_y p) →
  in_world_point (p_x (move_player keys dt obs p)) (p_y (move_player keys dt obs p))
  ∧ set_position (move_player keys dt obs p) (p_x p) (p_y p) = p.
Proof.
  intros Hin. split; [by apply move_player_in_world|].
  destruct (move_player_cases keys dt obs p) as [->|(dx & dy & _ & _ & _ & ->)];
    by destruct p.
Qed.

Lemma move_player_stays_in_world_witness :
  in_world_point (p_x (move_player keys_right (17 / 1000) [] new_player))
    (p_y (move_player keys_right (17 / 1000) [] new_player)).
Proof.
  apply (move_player_stays_in_world keys_right (17 / 1000) [] new_player).
  unfold in_world_point. cbn [p_x p_y new_player]. eval_IZR. lra.
Defined.


(** X15.  The camera stays inside the world and keeps the player on
    screen: [cam_x] lies in [0, WORLD_W - SCREEN_W], and for a player
    inside the world [cam_x <= x <= cam_x + SCREEN_W]; likewise for
    [cam_y]. *)
Theorem camera_keeps_player_in_view (p : Player) :
  ((0 <= camera_x p <= IZR (WORLD_W - SCREEN_W))
   ∧ (0 <= camera_y p <= IZR (WORLD_H - SCREEN_H))
   ∧ (0 <= p_x p <= IZR WORLD_W → camera_x p <= p_x p <= camera_x p + IZR SCREEN_W)
   ∧ (0 <= p_y p <= IZR WORLD_H → camera_y p <= p_y p <= camera_y p + IZR SCREEN_H))%R.
Proof.
  destruct (camera_x_view p) as [H1 H2]. destruct (camera_y_view p) as [H3 H4].
  done.
Qed.

(** X16.  The spawn loop of a frame ends, leaves the accumulator below
    the spawn interval, appends the new mobs after the old ones, and
    takes exactly one interval from the accumulator per mob spawned. *)
Theorem spawn_loop_accounting (minute : Z) (p : Player) (obs : list Obstacle)
    (acc : R) (ms : list Mob) (g : Rng) :
  ∃ acc' new g',
    spawn_loop (spawn_fuel (spawn_interval minute) acc) minute p obs
      (spawn_interval minute) acc ms g = (Some (acc', ms ++ new), g')
    ∧ (acc' < spawn_interval minute)%R
    ∧ (acc = acc' + INR (length new) * spawn_interval minute)%R
    ∧ (new = [] ∨ (0 <= acc')%R).
Proof.
  apply spawn_loop_account; [|done]. pose proof (spawn_interval_min minute). lra.
Qed.

(** X17.  The spawn interval never grows with the minute, stays between
    0.4 and 1.7 seconds from minute 0 on, and is 0.4 from minute 11. *)
Theorem spawn_interval_ramp (m m' : Z) :
  ((4 / 10 <= spawn_interval m)
   ∧ ((0 <= m)%Z → spawn_interval m <= 17 / 10)
   ∧ ((m <= m')%Z → spawn_interval m' <= spawn_interval m)
   ∧ ((11 <= m)%Z → spawn_interval m = 4 / 10))%R.
Proof.
  split_and!.
  - apply spawn_interval_min.
  - apply spawn_interval_max.
  - apply spawn_interval_anti.
  - apply spawn_interval_late.
Qed.

Lemma move_player_right :
  move_player keys_right (17 / 1000) [] new_player
  = set_position new_player (1200 + 250 * (17 / 1000))%R 900.
Proof.
  unfold move_player. cbn [keys_right key_right key_d key_left key_a key_down key_s
    key_up key_w orb axis Z.b2z Z.sub Z.eqb negb blocked existsb].
  change (axis true false) with 1%Z. change (axis false false) with 0%Z.
  cbn [Z.eqb negb orb]. rewrite hypot_axis, Rabs_R1.
  cbn [p_x p_y p_speed new_player]. eval_IZR.
  f_equal; rewrite clamp_inside; lra.
Qed.

Lemma move_player_step_length_witness :
  distance (p_x (move_player keys_right (17 / 1000) [] new_player))
    (p_y (move_player keys_right (17 / 1000) [] new_player))
    (p_x new_player) (p_y new_player)
  = Rabs (p_speed new_player * (17 / 1000)).
Proof.
  apply (move_player_step_length keys_right (17 / 1000) [] new_player).
  - rewrite move_player_right. intros H. apply (f_equal p_x) in H.
    cbn [p_x set_position new_player] in H. revert H. eval_IZR. lra.
  - rewrite move_player_right. cbn [p_x set_position]. eval_IZR. lra.
  - rewrite move_player_right. cbn [p_y set_position]. eval_IZR. lra.
Defined.

(** ** The loop: mobs, lava pools, projectiles, the attack *)

Section ListRemove.
Context {A : Type} (eq_dec : ∀ a b : A, {a = b} + {a ≠ b}).

Lemma list_remove_delete (x : A) l i :
  l !! i = Some x → (∀ j y, j < i → l !! j = Some y → y ≠ x) →
  list_remove eq_dec x l = Some (delete i l).
Proof.
  revert i. induction l as [|y l IH]; intros i Hi Hbefore; [done|].
  cbn [list_remove]. destruct i as [|i].
  - simpl in Hi. injection Hi as ->. by destruct (eq_dec x x).
  - destruct (eq_dec y x) as [->|Hne].
    + exfalso. apply (Hbefore 0 x); [lia|done|done].
    + rewrite (IH i); [done|done|].
      intros j z Hj Hz. apply (Hbefore (S j) z); [lia|done].
Qed.

Lemma list_remove_present (x : A) l :
  x ∈ l → ∃ l', list_remove eq_dec x l = Some l' ∧ S (length l') = length l.
Proof.
  induction l as [|y l IH]; intros Hx; [by apply elem_of_nil in Hx|].
  cbn [list_remove]. destruct (eq_dec y x) as [->|Hne]; [by eexists|].
  apply elem_of_cons in Hx as [->|Hx]; [done|].
  destruct (IH Hx) as (l' & -> & Hl). eexists. split; [done|]. simpl. lia.
Qed.

Lemma list_remove_sublist (x : A) l l' :
  list_remove eq_dec x l = Some l' → l' `sublist_of` l.
Proof.
  revert l'. induction l as [|y l IH]; intros l'; cbn [list_remove]; [done|].
  destruct (eq_dec y x); [intros [= <-]; by apply sublist_cons|].
  destruct (list_remove eq_dec x l) as [l0|]; [|done].
  intros [= <-]. apply sublist_skip. by apply IH.
Qed.

Lemma take_delete_same (l : list A) i : take i (delete i l) = take i l.
Proof.
  revert l. induction i as [|i IH]; intros [|y l]; simpl; try done.
  by rewrite IH.
Qed.

Lemma remove_or_keep_sublist (x : A) l : remove_or_keep eq_dec x l `sublist_of` l.
Proof.
  unfold remove_or_keep. destruct (list_remove eq_dec x l) eqn:H; [|done].
  by eapply list_remove_sublist.
Qed.

End ListRemove.

Section MobLoop.
Local Open Scope R_scope.

Lemma update_mob_xp dt minute obs m sc g :
  p_xp (sc_player (snd (fst (update_mob dt minute obs m sc g)))) = p_xp (sc_player sc).
Proof.
  unfold update_mob. cbn [mob_type set_mob_cooldown]. destruct (mob_type m).
  - unfold ret. cbn [fst].
    by destruct (update_melee_player dt obs
                   (set_mob_cooldown m (Rmax 0 (mob_cooldown m - dt))) sc) as [-> | ->].
  - by rewrite update_shooter_player.
  - by rewrite update_lava_player.
Qed.

Lemma update_mobs_kills (n i : nat) dt minute obs live sc g :
  (i + n = length live)%nat →
  (Z.of_nat (length (fst (fst (update_mobs n i dt minute obs live sc g))))
   + (p_xp (sc_player (snd (fst (update_mobs n i dt minute obs live sc g))))
      - p_xp (sc_player sc))
   = Z.of_nat (length live))%Z
  ∧ (p_xp (sc_player sc)
     <= p_xp (sc_player (snd (fst (update_mobs n i dt minute obs live sc g)))))%Z.
Proof.
  revert i live sc g. induction n as [|n IH]; intros i live sc g Hlen;
    cbn [update_mobs].
  - unfold ret. cbn [fst snd]. lia.
  - destruct (lookup_lt_is_Some_2 live i) as [m Hm]; [lia|]. rewrite Hm.
    unfold bind at 1. unfold bind at 1. unfold bind at 1.
    pose proof (update_mob_xp dt minute obs m sc g) as Hxp.
    destruct (update_mob dt minute obs m sc g) as [[m' sc'] g']. cbn [fst snd] in *.
    destruct (Rleb (mob_hp m') 0).
    + destruct (list_remove_present mob_eq_dec m' (<[i:=m']> live)) as (l' & Hr & Hl).
      { eapply list_elem_of_lookup_2. apply list_lookup_insert_eq. lia. }
      unfold remove_or_keep. rewrite Hr. rewrite length_insert in Hl.
      match goal with |- context [update_mobs n i dt minute obs l' ?s g'] =>
        destruct (IH i l' s g') as [H1 H2]; [lia|] end.
      cbn [sc_player set_xp p_xp] in H1, H2. lia.
    + destruct (IH (S i) (<[i:=m']> live) sc' g') as [H1 H2];
        [rewrite length_insert; lia|].
      rewrite length_insert in H1. lia.
Qed.

Lemma moved_to_fields m target :
  mob_hp (moved_to m target) = mob_hp m ∧ mob_speed (moved_to m target) = mob_speed m
  ∧ mob_type (moved_to m target) = mob_type m ∧ mob_id (moved_to m target) = mob_id m
  ∧ mob_cooldown (moved_to m target) = mob_cooldown m
  ∧ (in_world_point (mob_x m) (mob_y m) →
     in_world_point (mob_x (moved_to m target)) (mob_y (moved_to m target))).
Proof.
  destruct target as [[nx ny]|]; cbn; split_and!; try done.
  intros _. split; apply clamp_between; apply IZR_le; done.
Qed.

Lemma kept_moved_to m target : kept m (moved_to m target).
Proof.
  destruct (moved_to_fields m target) as (H1 & H2 & H3 & H4 & H5 & H6).
  unfold kept. rewrite H5. by split_and!.
Qed.

Lemma kept_refl m : kept m m.
Proof. unfold kept. by split_and!. Qed.

Lemma update_melee_kept dt obs m sc : kept m (fst (update_melee dt obs m sc)).
Proof.
  unfold update_melee, melee_move. destruct (toward _ _ _ _) as [[vx vy] dist].
  case_match; cbn [fst]; apply kept_moved_to.
Qed.

Lemma update_shooter_kept dt minute obs m sc g :
  kept m (fst (fst (update_shooter dt minute obs m sc g))).
Proof.
  unfold update_shooter. destruct (toward _ _ _ _) as [[vx vy] dist].
  set (m1 := if Rltb 380 dist then _ else _).
  assert (H1 : kept m m1).
  { unfold m1. repeat case_match; try apply kept_moved_to. apply kept_refl. }
  destruct H1 as (H1 & H2 & H3 & H4 & H5 & H6).
  case_match.
  - unfold bind, ret.
    pose proof (uniform_range (12 # 10) 2 g eq_refl) as [Hc _].
    destruct (uniform (12 # 10) 2 g) as [cd g1].
    cbn [fst set_mob_cooldown] in *. unfold kept. cbn. split_and!; try done.
    intros _. revert Hc. eval_Q2R (12 / 10). lra.
  - unfold ret. cbn [fst]. by split_and!.
Qed.

Lemma update_lava_kept dt obs m sc g :
  kept m (fst (fst (update_lava dt obs m sc g))).
Proof.
  unfold update_lava, bind. destruct (random g) as [u g1].
  set (m1 := if blocked _ _ _ _ then _ else _).
  assert (H1 : kept m m1).
  { unfold m1. case_match; [apply kept_refl|]. unfold kept. cbn. split_and!; try done.
    intros _. split; apply clamp_between; apply IZR_le; done. }
  destruct H1 as (H1 & H2 & H3 & H4 & H5 & H6).
  case_match.
  - destruct (uniform (- (1)) 2 g1) as [jd g2].
    pose proof (uniform_range 0 3 g2 eq_refl) as [Hc _].
    destruct (uniform 0 3 g2) as [jc g3]. unfold ret.
    cbn [fst set_mob_cooldown] in *. unfold kept. cbn. split_and!; try done.
    intros _. revert Hc. eval_Q2R 0. lra.
  - unfold ret. cbn [fst]. by split_and!.
Qed.

Lemma update_mob_fields dt minute obs m sc g :
  let m' := fst (fst (update_mob dt minute obs m sc g)) in
  mob_hp m' = mob_hp m ∧ mob_speed m' = mob_speed m
  ∧ mob_type m' = mob_type m ∧ mob_id m' = mob_id m
  ∧ 0 <= mob_cooldown m'
  ∧ (in_world_point (mob_x m) (mob_y m) → in_world_point (mob_x m') (mob_y m')).
Proof.
  cbv zeta. unfold update_mob. cbv zeta.
  set (m0 := set_mob_cooldown m (Rmax 0 (mob_cooldown m - dt))).
  assert (H0 : 0 <= mob_cooldown m0) by (cbn; apply Rmax_l).
  assert (Hk : kept m0 (fst (fst (match mob_type m0 with
                 | melee => ret (update_melee dt obs m0 sc)
                 | shooter => update_shooter dt minute obs m0 sc
                 | lava => update_lava dt obs m0 sc
                 end g)))).
  { destruct (mob_type m0).
    - apply update_melee_kept.
    - apply update_shooter_kept.
    - apply update_lava_kept. }
  destruct Hk as (H1 & H2 & H3 & H4 & H5 & H6).
  split_and!; try done. by apply H5.
Qed.

End MobLoop.

(** X18.  Every kill is counted once: after the loop over the mobs, the
    number of mobs left plus the experience gained equals the number of
    mobs before, and the experience never goes down. *)
Theorem update_mobs_counts_kills (dt : R) (minute : Z) (obs : list Obstacle)
    (ms : list Mob) (sc : Scene) (g : Rng) :
  (Z.of_nat (length (fst (fst (update_mobs (length ms) 0 dt minute obs ms sc g))))
   + (p_xp (sc_player (snd (fst (update_mobs (length ms) 0 dt minute obs ms sc g))))
      - p_xp (sc_player sc))
   = Z.of_nat (length ms))%Z
  ∧ (p_xp (sc_player sc)
     <= p_xp (sc_player (snd (fst (update_mobs (length ms) 0 dt minute obs ms sc g)))))%Z.
Proof. by apply update_mobs_kills. Qed.

(** X19.  Updating a mob changes its position and its cooldown only:
    hit points, speed, type and id stay; the cooldown is never negative
    afterwards; and a mob inside the world stays inside it. *)
Theorem update_mob_moves_only (dt : R) (minute : Z) (obs : list Obstacle)
    (m : Mob) (sc : Scene) (g : Rng) :
  mob_hp (fst (fst (update_mob dt minute obs m sc g))) = mob_hp m
  ∧ mob_speed (fst (fst (update_mob dt minute obs m sc g))) = mob_speed m
  ∧ mob_type (fst (fst (update_mob dt minute obs m sc g))) = mob_type m
  ∧ mob_id (fst (fst (update_mob dt minute obs m sc g))) = mob_id m
  ∧ (0 <= mob_cooldown (fst (fst (update_mob dt minute obs m sc g))))%R
  ∧ (in_world_point (mob_x m) (mob_y m) →
     in_world_point (mob_x (fst (fst (update_mob dt minute obs m sc g))))
       (mob_y (fst (fst (update_mob dt minute obs m sc g))))).
Proof. apply update_mob_fields. Qed.

Section PoolLoop.
Local Open Scope R_scope.

Lemma update_pools_expire (n i : nat) dt live pl :
  (i + n = length live)%nat →
  Forall (fun l => 0 < lp_duration l) (take i live) →
  Forall (fun l => 0 < lp_duration l) (fst (update_pools n i dt live pl)).
Proof.
  revert i live pl. induction n as [|n IH]; intros i live pl Hlen Hpre;
    cbn [update_pools].
  - cbn [fst]. rewrite firstn_all2 in Hpre by lia. done.
  - destruct (lookup_lt_is_Some_2 live i) as [l Hl]; [lia|]. rewrite Hl.
    set (l' := mkLavaPool _ _ _ _ _).
    assert (Hpre' : take i (<[i:=l']> live) = take i live)
      by (apply take_insert_ge; lia).
    destruct (Rleb (lp_duration l') 0) eqn:Hd.
    + apply Rleb_true in Hd.
      unfold remove_or_keep.
      rewrite (list_remove_delete lava_eq_dec l' (<[i:=l']> live) i).
      * apply IH.
        -- rewrite length_delete by (rewrite list_lookup_insert_eq by lia; eauto).
           rewrite length_insert. lia.
        -- rewrite take_delete_same. by rewrite Hpre'.
      * apply list_lookup_insert_eq. lia.
      * intros j y Hj Hy Heq. subst y.
        rewrite Forall_forall in Hpre.
        assert (Hin : l' ∈ take i live).
        { rewrite <- Hpre'. eapply list_elem_of_lookup_2.
          rewrite lookup_take_lt by done. exact Hy. }
        apply Hpre in Hin. lra.
    + apply Rleb_false in Hd.
      assert (Hnext : Forall (fun l => 0 < lp_duration l) (take (S i) (<[i:=l']> live))).
      { rewrite (take_S_r _ _ l') by (apply list_lookup_insert_eq; lia).
        rewrite Hpre'. apply Forall_app. split; [done|]. by apply Forall_singleton. }
      case_match; apply IH; try done; rewrite length_insert; lia.
Qed.

Lemma update_pools_hp (n i : nat) dt live pl :
  0 <= dt → p_hp (snd (update_pools n i dt live pl)) <= p_hp pl.
Proof.
  intros Hdt. revert i live pl. induction n as [|n IH]; intros i live pl;
    cbn [update_pools]; [cbn; lra|].
  destruct (live !! i); [|cbn; lra].
  repeat case_match; try apply IH.
  etrans; [apply IH|]. cbn. lra.
Qed.

Lemma update_pools_length (n i : nat) dt live pl :
  (length (fst (update_pools n i dt live pl)) ≤ length live)%nat.
Proof.
  revert i live pl. induction n as [|n IH]; intros i live pl;
    cbn [update_pools]; [done|].
  destruct (live !! i); [|done].
  repeat case_match; (etrans; [apply IH|]); rewrite ?length_insert; try done.
  etrans; [apply sublist_length, remove_or_keep_sublist|]. by rewrite length_insert.
Qed.

End PoolLoop.

(** X20.  After the loop over the lava pools every pool that is left
    has a positive duration (the expired ones are removed, and only
    they can be), the list has not grown, and for [dt >= 0] the
    player's hit points have not gone up. *)
Theorem update_pools_removes_expired (dt : R) (pools : list LavaPool) (pl : Player) :
  Forall (fun l => 0 < lp_duration l)%R
    (fst (update_pools (length pools) 0 dt pools pl))
  ∧ length (fst (update_pools (length pools) 0 dt pools pl)) ≤ length pools
  ∧ ((0 <= dt)%R →
     (p_hp (snd (update_pools (length pools) 0 dt pools pl)) <= p_hp pl)%R).
Proof.
  split_and!.
  - apply update_pools_expire; [done|]. constructor.
  - apply update_pools_length.
  - apply update_pools_hp.
Qed.

Section Attack.
Local Open Scope R_scope.

Lemma nearest_fold pl rest best :
  let pick := fold_left
                (fun best c =>
                   if Rltb (distance (p_x pl) (p_y pl) (mob_x c) (mob_y c))
                           (distance (p_x pl) (p_y pl) (mob_x best) (mob_y best))
                   then c else best) rest best in
  pick ∈ best :: rest
  ∧ ∀ m, m ∈ best :: rest → player_distance pl pick <= player_distance pl m.
Proof.
  cbn zeta. revert best. induction rest as [|c rest IH]; intros best; cbn [fold_left].
  - split; [set_solver|].
    intros m Hm. assert (m = best) as -> by set_solver. lra.
  - destruct (Rltb _ _) eqn:Hc.
    + apply Rltb_true in Hc. destruct (IH c) as [Hin Hmin]. split.
      * apply elem_of_cons in Hin as [->|Hin]; set_solver.
      * intros m [->|Hm]%elem_of_cons; [|by apply Hmin].
        etrans; [apply (Hmin c); set_solver|]. unfold player_distance. lra.
    + apply Rltb_false in Hc. destruct (IH best) as [Hin Hmin]. split.
      * apply elem_of_cons in Hin as [->|Hin]; set_solver.
      * intros m [->|[->|Hm]%elem_of_cons]%elem_of_cons.
        -- apply Hmin. set_solver.
        -- etrans; [apply (Hmin best); set_solver|]. unfold player_distance. lra.
        -- apply Hmin. set_solver.
Qed.

(** X21.  [min(mobs, key=distance to the player)]: the mob the attack
    aims at is one of the mobs and no mob is nearer to the player; there
    is none exactly when the list is empty. *)
Theorem nearest_mob_is_nearest (pl : Player) (ms : list Mob) :
  match nearest_mob pl ms with
  | None => ms = []
  | Some m =>
      m ∈ ms
      ∧ ∀ m', m' ∈ ms → (player_distance pl m <= player_distance pl m')%R
  end.
Proof.
  destruct ms as [|m rest]; [done|]. cbn [nearest_mob]. apply nearest_fold.
Qed.

End Attack.


Section AttackShot.
Local Open Scope R_scope.

Lemma shot_speed pl target :
  let dist := distance (p_x pl) (p_y pl) (mob_x target) (mob_y target) in
  let d := if Req_EM_T dist 0 then 1 else dist in
  let vx := (mob_x target - p_x pl) / d * p_proj_speed pl in
  let vy := (mob_y target - p_y pl) / d * p_proj_speed pl in
  (hypot vx vy = Rabs (p_proj_speed pl) ∧ 0 < dist)
  ∨ (vx = 0 ∧ vy = 0 ∧ dist = 0).
Proof.
  cbv zeta. unfold distance.
  set (x := mob_x target - p_x pl). set (y := mob_y target - p_y pl).
  replace (p_x pl - mob_x target) with (- x) by (unfold x; lra).
  replace (p_y pl - mob_y target) with (- y) by (unfold y; lra).
  rewrite hypot_opp. destruct (Req_EM_T (hypot x y) 0) as [Hz|Hnz].
  - right. apply hypot_eq_0 in Hz as Hxy. destruct Hxy as [-> ->].
    split_and!; [lra|lra|done].
  - left. assert (Hxy : x ≠ 0 ∨ y ≠ 0).
    { destruct (Req_EM_T x 0) as [->|]; [|by left].
      destruct (Req_EM_T y 0) as [->|]; [|by right].
      exfalso. apply Hnz, hypot_zero. }
    split; [|by apply hypot_pos].
    rewrite hypot_scale, hypot_unit by done. lra.
Qed.

(** X22.  The attack of the mage and the rogue adds at most one
    projectile per frame: it starts at the player, belongs to the
    player, carries the champion's damage and speed, and flies toward
    the nearest mob, which is within range, with velocity of magnitude
    [proj_speed]; if that mob stands exactly on the player the velocity
    is zero.  The mobs are untouched and the timer is reset to the
    cooldown. *)
Theorem auto_attack_fires_one (dt : R) (pl : Player) (projs : list Projectile)
    (ms : list Mob) :
  (snd (fst (auto_attack dt pl projs ms)) = projs)
  ∨ ∃ target shot,
      nearest_mob pl ms = Some target
      ∧ (player_distance pl target <= p_attack_range pl)%R
      ∧ snd (fst (auto_attack dt pl projs ms)) = projs ++ [shot]
      ∧ snd (auto_attack dt pl projs ms) = ms
      ∧ p_attack_timer (fst (fst (auto_attack dt pl projs ms))) = p_attack_cooldown pl
      ∧ is_shot_at pl target shot.
Proof.
  unfold auto_attack.
  change (nearest_mob (set_attack_timer pl (p_attack_timer pl - dt)) ms)
    with (nearest_mob pl ms).
  cbn [p_x p_y p_attack_timer p_attack_range p_attack_type p_proj_speed p_proj_dmg
       p_attack_cooldown set_attack_timer].
  destruct (Rleb (p_attack_timer pl - dt) 0); [|by left].
  destruct (nearest_mob pl ms) as [target|]; [|by left].
  destruct (Rleb _ (p_attack_range pl)) eqn:Hr; [|by left].
  apply Rleb_true in Hr.
  destruct (p_attack_type pl); [|by left].
  right. eexists target, _. split; [done|]. split; [exact Hr|].
  cbn [fst snd p_attack_timer]. split_and!; try done.
  unfold is_shot_at. cbn [pr_x pr_y pr_vx pr_vy pr_speed pr_dmg pr_owner pr_ttl].
  split_and!; try done. apply shot_speed.
Qed.

End AttackShot.


Section ProjectileLoop.
Local Open Scope R_scope.

Lemma Forall_owner_step (o : Owner) (live : list Projectile) (i : nat) p dt :
  Forall (fun q => pr_owner q = o) live → live !! i = Some p →
  Forall (fun q => pr_owner q = o) (<[i:=advance p dt]> live)
  ∧ pr_owner (advance p dt) = o.
Proof.
  intros Hall Hp.
  assert (Ho : pr_owner p = o).
  { rewrite Forall_forall in Hall. apply Hall. by eapply list_elem_of_lookup_2. }
  split; [|done]. apply Forall_insert; done.
Qed.

Lemma update_projectiles_own (n i : nat) dt obs live pl ms :
  Forall (fun q => pr_owner q = owner_player) live →
  snd (fst (update_projectiles n i dt obs live pl ms)) = pl.
Proof.
  revert i live pl ms. induction n as [|n IH]; intros i live pl ms Hall;
    cbn [update_projectiles]; [done|].
  destruct (live !! i) as [p|] eqn:Hp; [|done].
  destruct (Forall_owner_step _ _ _ _ dt Hall Hp) as [Hall' Ho].
  assert (Hrem : Forall (fun q => pr_owner q = owner_player)
                   (remove_or_keep projectile_eq_dec (advance p dt)
                      (<[i:=advance p dt]> live))).
  { eapply Forall_sublist; [apply remove_or_keep_sublist|done]. }
  rewrite Ho. cbn [is_owner_mob andb negb].
  repeat case_match; by apply IH.
Qed.

Lemma hit_mob_none_for_mobs (n i : nat) dt obs live pl ms :
  Forall (fun q => pr_owner q = owner_mob) live →
  snd (update_projectiles n i dt obs live pl ms) = ms.
Proof.
  revert i live pl ms. induction n as [|n IH]; intros i live pl ms Hall;
    cbn [update_projectiles]; [done|].
  destruct (live !! i) as [p|] eqn:Hp; [|done].
  destruct (Forall_owner_step _ _ _ _ dt Hall Hp) as [Hall' Ho].
  assert (Hrem : Forall (fun q => pr_owner q = owner_mob)
                   (remove_or_keep projectile_eq_dec (advance p dt)
                      (<[i:=advance p dt]> live))).
  { eapply Forall_sublist; [apply remove_or_keep_sublist|done]. }
  rewrite Ho. cbn [is_owner_mob andb negb].
  repeat case_match; by apply IH.
Qed.

Lemma update_projectiles_length (n i : nat) dt obs live pl ms :
  (length (fst (fst (update_projectiles n i dt obs live pl ms))) ≤ length live)%nat
  ∧ length (snd (update_projectiles n i dt obs live pl ms)) = length ms.
Proof.
  revert i live pl ms. induction n as [|n IH]; intros i live pl ms;
    cbn [update_projectiles]; [done|].
  destruct (live !! i) as [p|] eqn:Hp; [|done].
  assert (Hrem : (length (remove_or_keep projectile_eq_dec (advance p dt)
                            (<[i:=advance p dt]> live)) ≤ length live)%nat).
  { etrans; [apply sublist_length, remove_or_keep_sublist|]. by rewrite length_insert. }
  assert (Hhit : ∀ q l l', hit_mob q l = Some l' → length l' = length l).
  { intros q l. induction l as [|m l IHl]; intros l'; cbn [hit_mob]; [done|].
    destruct (Rleb _ _); [by intros [= <-]|].
    destruct (hit_mob q l) as [l0|]; [|done]. intros [= <-]. simpl.
    f_equal. by apply IHl. }
  repeat case_match;
    match goal with |- context [update_projectiles n ?j dt obs ?l ?q ?k] =>
      destruct (IH j l q k) as [HL1 HL2] end;
    (split; [etrans; [exact HL1|]; rewrite ?length_insert; done|]);
    rewrite HL2; try done.
  by eapply Hhit.
Qed.

End ProjectileLoop.

(** X23.  Projectiles only hurt the other side: if every projectile
    belongs to the player the loop leaves the player as it is, and if
    every projectile belongs to a mob it leaves the mobs as they are.
    The loop never adds a projectile and never adds or removes a mob. *)
Theorem projectiles_hurt_the_other_side (dt : R) (obs : list Obstacle)
    (live : list Projectile) (pl : Player) (ms : list Mob) :
  (Forall (fun q => pr_owner q = owner_player) live →
   snd (fst (update_projectiles (length live) 0 dt obs live pl ms)) = pl)
  ∧ (Forall (fun q => pr_owner q = owner_mob) live →
     snd (update_projectiles (length live) 0 dt obs live pl ms) = ms)
  ∧ length (fst (fst (update_projectiles (length live) 0 dt obs live pl ms)))
    ≤ length live
  ∧ length (snd (update_projectiles (length live) 0 dt obs live pl ms)) = length ms.
Proof.
  split; [apply update_projectiles_own|]. split; [apply hit_mob_none_for_mobs|].
  apply update_projectiles_length.
Qed.

Section FrameBuild.
Local Open Scope R_scope.

Lemma move_player_build keys dt obs p :
  p_speed (move_player keys dt obs p) = p_speed p
  ∧ p_champion (move_player keys dt obs p) = p_champion p
  ∧ p_attack_cooldown (move_player keys dt obs p) = p_attack_cooldown p
  ∧ p_proj_speed (move_player keys dt obs p) = p_proj_speed p
  ∧ p_proj_dmg (move_player keys dt obs p) = p_proj_dmg p
  ∧ p_attack_range (move_player keys dt obs p) = p_attack_range p
  ∧ p_attack_type (move_player keys dt obs p) = p_attack_type p
  ∧ p_level (move_player keys dt obs p) = p_level p.
Proof.
  destruct (move_player_cases keys dt obs p) as [->|(dx & dy & _ & _ & _ & ->)]; done.
Qed.

Lemma frame_playing_keeps inp w w' :
  state w = playing → frame inp w = Some w' →
  p_speed (player w') = p_speed (player w)
  ∧ p_champion (player w') = p_champion (player w)
  ∧ p_attack_cooldown (player w') = p_attack_cooldown (player w)
  ∧ p_proj_speed (player w') = p_proj_speed (player w)
  ∧ p_proj_dmg (player w') = p_proj_dmg (player w)
  ∧ p_attack_range (player w') = p_attack_range (player w)
  ∧ p_attack_type (player w') = p_attack_type (player w)
  ∧ (in_world_point (p_x (player w)) (p_y (player w)) →
     in_world_point (p_x (player w')) (p_y (player w')))
  ∧ obstacles w' = obstacles w.
Proof.
  intros Hs Hf.
  destruct (frame_playing inp w w' Hs Hf) as (run & w1 & Hb & ->).
  destruct (draw_camera_fields w1) as (-> & _ & _ & _ & _ & _ & _ & -> & _).
  destruct (playing_block_checks _ _ _ _ _ _ Hb) as (p0 & Hu & -> & _ & _ & -> & _).
  cbn [obstacles player at_time] in *.
  destruct Hu as (Hx & Hy & Hl & Hsp & Hcd & Hch & Hps & Hpd & Har & Hat).
  destruct (move_player_build (frame_keys inp) (dt_of inp) (obstacles w) (player w))
    as (M1 & M2 & M3 & M4 & M5 & M6 & M7 & M8).
  unfold level_up_check. destruct (_ <=? _)%Z; cbn [fst set_level p_speed p_champion
    p_attack_cooldown p_proj_speed p_proj_dmg p_attack_range p_attack_type p_x p_y];
    (split_and!; try congruence; try done;
     intros Hin; rewrite Hx, Hy; by apply move_player_in_world).
Qed.

End FrameBuild.

(** X24.  A frame that starts in ['playing'] never touches the build of
    the player: speed, champion, attack cooldown, projectile speed and
    damage, range and attack type are the same afterwards; a player
    inside the world is inside it afterwards; and the obstacles are the
    same. *)
Theorem playing_frame_keeps_build (inp : FrameInput) (w : World) :
  ∃ w', frame inp w = Some w'
    ∧ (state w = playing →
       p_speed (player w') = p_speed (player w)
       ∧ p_champion (player w') = p_champion (player w)
       ∧ p_attack_cooldown (player w') = p_attack_cooldown (player w)
       ∧ p_proj_speed (player w') = p_proj_speed (player w)
       ∧ p_proj_dmg (player w') = p_proj_dmg (player w)
       ∧ p_attack_range (player w') = p_attack_range (player w)
       ∧ p_attack_type (player w') = p_attack_type (player w)
       ∧ (in_world_point (p_x (player w)) (p_y (player w)) →
          in_world_point (p_x (player w')) (p_y (player w')))
       ∧ obstacles w' = obstacles w).
Proof.
  destruct (frame_total inp w) as [w' Hf]. exists w'. split; [exact Hf|].
  intros Hs. exact (frame_playing_keeps inp w w' Hs Hf).
Qed.

Section RunElapsed.
Local Open Scope R_scope.

(** X25.  The main loop runs the frames in order until [running] turns
    false: it always returns, the elapsed time has grown by the ticks of
    the frames that ran, and if some input was left unread then
    [running] is false. *)
Theorem run_frames_accrues_ticks (inputs : list FrameInput) (w : World) :
  ∃ w' (k : nat),
    run_frames inputs w = Some w' ∧ (k ≤ length inputs)%nat
    ∧ elapsed w' = (elapsed w + IZR (total_ms (take k inputs)) / 1000)%R
    ∧ ((k < length inputs)%nat → running w' = false).
Proof.
  revert w. induction inputs as [|inp inputs IH]; intros w; cbn [run_frames].
  - exists w, 0%nat. split_and!; [done|done|cbn; lra|cbn; lia].
  - destruct (running w) eqn:Hr.
    + destruct (frame_total inp w) as [w1 Hf]. rewrite Hf.
      apply frame_elapsed in Hf.
      destruct (IH w1) as (w' & k & -> & Hk & He & Hstop).
      exists w', (S k). split_and!; [done|cbn; lia| |cbn; intros; apply Hstop; lia].
      rewrite He, Hf. cbn [take total_ms foldr]. fold (total_ms (take k inputs)).
      rewrite plus_IZR. unfold dt_of. lra.
    + exists w, 0%nat. split_and!; [done|cbn; lia|cbn; lra|done].
Qed.

End RunElapsed.


(** ** The champion menu *)

Section Menu.
Local Open Scope Z_scope.

Lemma champion_of_click_cases mx :
  (mx <= 266 ∧ champion_of_click mx = mage)
  ∨ (267 <= mx <= 533 ∧ champion_of_click mx = rogue)
  ∨ (534 <= mx ∧ champion_of_click mx = knight).
Proof.
  unfold champion_of_click, SCREEN_W.
  destruct (Qlt_le_dec _ _) as [H|H].
  - left. split; [|done]. unfold Qlt in H. simpl in H. lia.
  - unfold Qle in H. simpl in H.
    destruct (Qlt_le_dec _ _) as [H'|H'].
    + right; left. split; [|done]. unfold Qlt in H'. simpl in H'. lia.
    + right; right. split; [|done]. unfold Qle in H'. simpl in H'. lia.
Qed.

Lemma menu_events_first before ev after :
  Forall (fun e => menu_event e = Undecided) before →
  menu_event ev ≠ Undecided →
  menu_events (before ++ ev :: after) = menu_event ev.
Proof.
  intros Hb Hev. induction Hb as [|e before He _ IH]; cbn [app menu_events].
  - by destruct (menu_event ev).
  - by rewrite He.
Qed.

Lemma menu_events_undecided evs :
  menu_events evs = Undecided ↔ Forall (fun e => menu_event e = Undecided) evs.
Proof.
  induction evs as [|e evs IH]; cbn [menu_events]; [by split; [constructor|]|].
  rewrite Forall_cons, <- IH. destruct (menu_event e); naive_solver.
Qed.

Lemma champion_menu_first before evs after :
  Forall (fun es => menu_events es = Undecided) before →
  menu_events evs ≠ Undecided →
  champion_menu (before ++ evs :: after) = menu_events evs.
Proof.
  intros Hb Hev. induction Hb as [|e before He _ IH]; cbn [app champion_menu].
  - by destruct (menu_events evs).
  - by rewrite He.
Qed.

End Menu.

(** X26.  A click in the menu always selects a champion, by thirds of
    the screen width and whatever its height: the mage up to x = 266,
    the rogue from 267 to 533, the knight from 534; the centre of the
    i-th card selects the i-th champion, as key i + 1 does. *)
Theorem menu_click_regions (mx my : Z) :
  menu_event (MOUSEBUTTONDOWN mx my) = Chosen (champion_of_click mx)
  ∧ (champion_of_click mx = mage ↔ mx <= 266)%Z
  ∧ (champion_of_click mx = rogue ↔ 267 <= mx <= 533)%Z
  ∧ (champion_of_click mx = knight ↔ 534 <= mx)%Z
  ∧ map champion_of_click (map card_center [0; 1; 2]%Z) = champion_keys
  ∧ map champion_of_key [K_1; K_2; K_3] = map Some champion_keys.
Proof.
  split; [done|].
  destruct (champion_of_click_cases mx) as [[H ->]|[[H ->]|[H ->]]];
    (split_and!; [split; intros; try done; try lia..|done|done]).
Qed.

(** X27.  The menu is left by the first deciding event, a key 1, 2, 3,
    a click or [QUIT]; the events before it, Escape among them, are
    ignored, and those after it are not read.  The same holds across
    the passes of the menu loop. *)
Theorem menu_first_decision (before after : list MenuEvent) (ev : MenuEvent)
    (earlier later : list (list MenuEvent)) :
  Forall (fun e => menu_event e = Undecided) before →
  Forall (fun es => menu_events es = Undecided) earlier →
  menu_event ev ≠ Undecided →
  menu_event (MENU_KEYDOWN K_ESCAPE) = Undecided
  ∧ menu_events (before ++ ev :: after) = menu_event ev
  ∧ champion_menu (earlier ++ (before ++ ev :: after) :: later) = menu_event ev.
Proof.
  intros Hb He Hev. split; [done|].
  pose proof (menu_events_first before ev after Hb Hev) as H1.
  split; [exact H1|]. rewrite champion_menu_first; [done|done|by rewrite H1].
Qed.

Lemma menu_first_decision_witness :
  champion_menu [[MENU_OTHER]; [MENU_KEYDOWN K_ESCAPE; MOUSEBUTTONDOWN 400 10; MENU_QUIT];
                 [MENU_KEYDOWN K_1]]
  = Chosen rogue.
Proof.
  apply (menu_first_decision [MENU_KEYDOWN K_ESCAPE] [MENU_QUIT]
           (MOUSEBUTTONDOWN 400 10) [[MENU_OTHER]] [[MENU_KEYDOWN K_1]]).
  - repeat constructor.
  - repeat constructor.
  - discriminate.
Defined.

(** ** Mobs stay in the world *)

Section MobsInWorld.
Local Open Scope R_scope.

Lemma spawn_loop_in_world fuel minute p obs interval acc ms g acc' ms' g' :
  Forall mob_in_world ms →
  spawn_loop fuel minute p obs interval acc ms g = (Some (acc', ms'), g') →
  Forall mob_in_world ms'.
Proof.
  revert acc ms g. induction fuel as [|fuel IH]; intros acc ms g Hall;
    cbn [spawn_loop]; destruct (Rleb interval acc); try (intros [= <- <- <-]; done);
    try done.
  unfold bind at 1.
  destruct (spawn_mob_fields minute (p_x p) (p_y p) obs g)
    as (mob & pos & Hm & Hx & Hy & [Hwx Hwy] & _).
  destruct (spawn_mob minute (p_x p) (p_y p) obs g) as [m g1]. cbn [fst] in Hm.
  subst m. apply IH. apply Forall_app. split; [done|]. apply Forall_singleton.
  unfold mob_in_world, in_world_point. by rewrite Hx, Hy.
Qed.

Lemma update_mobs_in_world (n i : nat) dt minute obs live sc g :
  Forall mob_in_world live →
  Forall mob_in_world (fst (fst (update_mobs n i dt minute obs live sc g))).
Proof.
  revert i live sc g. induction n as [|n IH]; intros i live sc g Hall;
    cbn [update_mobs]; [done|].
  destruct (live !! i) as [m|] eqn:Hm; [|done].
  unfold bind at 1.
  pose proof (update_mob_fields dt minute obs m sc g) as Hf. cbv zeta in Hf.
  destruct Hf as (_ & _ & _ & _ & _ & Hw).
  destruct (update_mob dt minute obs m sc g) as [[m' sc'] g']. cbn [fst snd] in *.
  assert (Hm' : mob_in_world m').
  { apply Hw. rewrite Forall_forall in Hall. apply (Hall m).
    by eapply list_elem_of_lookup_2. }
  assert (Hins : Forall mob_in_world (<[i:=m']> live)) by (by apply Forall_insert).
  destruct (Rleb (mob_hp m') 0); apply IH; [|done].
  eapply Forall_sublist; [apply remove_or_keep_sublist|done].
Qed.

Lemma hit_mob_in_world q ms ms' :
  Forall mob_in_world ms → hit_mob q ms = Some ms' → Forall mob_in_world ms'.
Proof.
  revert ms'. induction ms as [|m ms IH]; intros ms' Hall; cbn [hit_mob]; [done|].
  apply Forall_cons in Hall as [Hm Hall].
  destruct (Rleb _ _); [intros [= <-]; by constructor|].
  destruct (hit_mob q ms) as [l|]; [|done]. intros [= <-].
  constructor; [done|]. by apply IH.
Qed.

Lemma update_projectiles_in_world (n i : nat) dt obs live pl ms :
  Forall mob_in_world ms →
  Forall mob_in_world (snd (update_projectiles n i dt obs live pl ms)).
Proof.
  revert i live pl ms. induction n as [|n IH]; intros i live pl ms Hall;
    cbn [update_projectiles]; [done|].
  destruct (live !! i) as [p|]; [|done].
  repeat case_match; apply IH; try done.
  by eapply hit_mob_in_world.
Qed.

Lemma melee_strike_in_world pl x :
  mob_in_world x → mob_in_world (melee_strike pl x).
Proof. intros Hx. unfold melee_strike. by destruct (Rleb _ _). Qed.

Lemma auto_attack_in_world dt pl projs ms :
  Forall mob_in_world ms → Forall mob_in_world (snd (auto_attack dt pl projs ms)).
Proof.
  intros Hall. unfold auto_attack. repeat case_match; cbn [snd]; try done.
  apply Forall_fmap. eapply Forall_impl; [exact Hall|].
  intros x Hx. by apply melee_strike_in_world.
Qed.

Lemma playing_block_in_world keys dt now minute w w' :
  Forall mob_in_world (mobs w) →
  playing_block keys dt now minute w = Some w' →
  Forall mob_in_world (mobs w').
Proof.
  intros Hall. unfold playing_block.
  destruct (spawn_loop _ _ _ _ _ _ _ _) as [[[acc ms]|] g] eqn:Hs; [|done].
  apply spawn_loop_in_world in Hs; [|done].
  match goal with |- context [update_mobs ?n ?i ?d ?m ?o ?l ?s ?g] =>
    pose proof (update_mobs_in_world n i d m o l s g Hs) as H1;
    destruct (update_mobs n i d m o l s g) as [[ms1 sc] g1] end.
  cbn [fst snd] in H1.
  match goal with |- context [update_projectiles ?n ?i ?d ?o ?l ?p ?m] =>
    pose proof (update_projectiles_in_world n i d o l p m H1) as H2;
    destruct (update_projectiles n i d o l p m) as [[projs pl2] ms2] end.
  cbn [fst snd] in H2.
  destruct (update_pools _ _ _ _ _) as [pools pl3].
  match goal with |- context [auto_attack ?d ?p ?l ?m] =>
    pose proof (auto_attack_in_world d p l m H2) as H4;
    destruct (auto_attack d p l m) as [[pl4 projs4] ms4] end.
  cbn [fst snd] in H4.
  destruct (level_up_check pl4 playing) as [pl5 st].
  intros [= <-]. done.
Qed.

Lemma frame_in_world inp w w' :
  Forall mob_in_world (mobs w) → frame inp w = Some w' →
  Forall mob_in_world (mobs w').
Proof.
  intros Hall. unfold frame.
  destruct (fold_left handle_event (frame_events inp) (running w, state w, player w))
    as [[run st] pl].
  destruct (is_playing st).
  - destruct (playing_block _ _ _ _ _) as [w1|] eqn:Hb; [|done].
    intros [= <-]. apply playing_block_in_world in Hb; [|done].
    by destruct (draw_camera_fields w1) as (_ & _ & -> & _).
  - intros [= <-].
    match goal with |- context [draw_camera ?w0] =>
      destruct (draw_camera_fields w0) as (_ & _ & -> & _) end. done.
Qed.

End MobsInWorld.

(** X28.  No mob ever leaves the world: if every mob is inside the world
    rectangle before a frame, every mob, the newly spawned ones
    included, is inside it after the frame, in every state; and so after
    any number of frames. *)
Theorem mobs_stay_in_world (inputs : list FrameInput) (w : World) :
  Forall mob_in_world (mobs w) →
  ∃ w', run_frames inputs w = Some w' ∧ Forall mob_in_world (mobs w').
Proof.
  revert w. induction inputs as [|inp inputs IH]; intros w Hall; cbn [run_frames].
  - by exists w.
  - destruct (running w); [|by exists w].
    destruct (frame_total inp w) as [w1 Hf]. rewrite Hf.
    apply IH. by eapply frame_in_world.
Qed.

Lemma mobs_stay_in_world_witness :
  ∃ w', run_frames one_second world_adjacent = Some w'
        ∧ Forall mob_in_world (mobs w').
Proof.
  apply (mobs_stay_in_world one_second world_adjacent).
  apply Forall_singleton. unfold mob_in_world, in_world_point.
  cbn [mob_x mob_y mob_adjacent]. eval_IZR. lra.
Defined.

Section PlayerInWorld.
Local Open Scope R_scope.

Lemma handle_events_position evs run st p :
  p_x (snd (fold_left handle_event evs (run, st, p))) = p_x p
  ∧ p_y (snd (fold_left handle_event evs (run, st, p))) = p_y p.
Proof.
  revert run st p. induction evs as [|ev evs IH]; intros run st p; cbn [fold_left];
    [done|].
  destruct (handle_event (run, st, p) ev) as [[run' st'] p'] eqn:He.
  destruct (IH run' st' p') as [-> ->].
  destruct ev as [|key|]; cbn [handle_event] in He; [by simplify_eq| |by simplify_eq].
  destruct (is_levelup st && bonus_key key); [|by simplify_eq].
  simplify_eq. by destruct key.
Qed.

Lemma frame_player_in_world inp w w' :
  in_world_point (p_x (player w)) (p_y (player w)) → frame inp w = Some w' →
  in_world_point (p_x (player w')) (p_y (player w')).
Proof.
  intros Hin. unfold frame.
  pose proof (handle_events_position (frame_events inp) (running w) (state w)
                (player w)) as [Hx Hy].
  destruct (fold_left handle_event (frame_events inp) (running w, state w, player w))
    as [[run st] pl]. cbn [snd] in Hx, Hy.
  destruct (is_playing st).
  - destruct (playing_block _ _ _ _ _) as [w1|] eqn:Hb; [|done].
    intros [= <-]. destruct (draw_camera_fields w1) as (-> & _).
    destruct (playing_block_checks _ _ _ _ _ _ Hb) as (p0 & Hu & -> & _).
    cbn [obstacles player] in Hu. destruct Hu as (Hx0 & Hy0 & _).
    assert (Hp0 : in_world_point (p_x p0) (p_y p0)).
    { rewrite Hx0, Hy0. apply move_player_in_world. by rewrite Hx, Hy. }
    unfold level_up_check. by case_match.
  - intros [= <-].
    match goal with |- context [draw_camera ?w0] =>
      destruct (draw_camera_fields w0) as (-> & _) end.
    cbn [player]. by rewrite Hx, Hy.
Qed.

End PlayerInWorld.

(** X29.  The player never leaves the world either: from a position
    inside the world rectangle, any number of frames with any events
    and keys, in any state, end with the player inside it. *)
Theorem player_stays_in_world (inputs : list FrameInput) (w : World) :
  in_world_point (p_x (player w)) (p_y (player w)) →
  ∃ w', run_frames inputs w = Some w'
        ∧ in_world_point (p_x (player w')) (p_y (player w')).
Proof.
  revert w. induction inputs as [|inp inputs IH]; intros w Hin; cbn [run_frames].
  - by exists w.
  - destruct (running w); [|by exists w].
    destruct (frame_total inp w) as [w1 Hf]. rewrite Hf.
    apply IH. by eapply frame_player_in_world.
Qed.

Lemma player_stays_in_world_witness :
  ∃ w', run_frames [mkFrameInput 17 [] keys_right; idle_frame]
          (start_world knight [] rng_zero) = Some w'
        ∧ in_world_point (p_x (player w')) (p_y (player w')).
Proof.
  apply (player_stays_in_world [mkFrameInput 17 [] keys_right; idle_frame]
           (start_world knight [] rng_zero)).
  unfold in_world_point. cbn [p_x p_y player start_world choose_champion new_player].
  eval_IZR. lra.
Defined.

